(** * Freshflow Foods front-end scripts: a shallow embedding

    The two scripts of the site ([js/main.js], the original, and its
    performance-tuned refactoring) wire DOM events to small state updates.
    This development embeds the handlers as functions on explicit page
    states and proves the properties the specification lists for them.

    Layout:
    - [JsString]  : JavaScript strings as UTF-16 code units, [trim],
                    [includes], [encodeURIComponent] and its inverse;
    - [Regex]     : the fragment of regular expressions used by the e-mail
                    test, with a derivative matcher;
    - [Dom]       : the elements the handlers touch;
    - [MainJs]    : the handlers of [js/main.js];
    - [Optimized] : the handlers of the optimized script, with its deferred
                    scheduler;
    - the theorems, last. *)

From Stdlib Require Import ZArith List Bool Lia String Ascii QArith.
From stdpp Require Import base option list gmap.

Import ListNotations.
#[local] Set Warnings "-clear-no-such-hyp".
Local Open Scope string_scope.
Local Open Scope Z_scope.
Local Open Scope list_scope.

(* ===================================================================== *)
(** * JavaScript strings *)
(* ===================================================================== *)

Module JsString.

(** A JavaScript string is a sequence of 16-bit code units. *)
Definition jsstring := list Z.

Definition code_unit (c : Z) : Prop := 0 <= c < 65536.

(** An ASCII literal of the source, as code units. *)
Fixpoint lit (s : string) : jsstring :=
  match s with
  | EmptyString => []
  | String a r => Z.of_N (N_of_ascii a) :: lit r
  end.

(** [s.length] *)
Definition jslength (s : jsstring) : Z := Z.of_nat (length s).

(** ** White space and [trim]

    [String.prototype.trim] strips the code units of the WhiteSpace and
    LineTerminator productions; the regular-expression class [\s] is the
    same set. *)
Definition is_space (c : Z) : bool :=
  (9 <=? c) && (c <=? 13)            (* TAB LF VT FF CR *)
  || (c =? 32)                       (* SP *)
  || (c =? 160)                      (* NBSP *)
  || (c =? 5760)                     (* U+1680 *)
  || (8192 <=? c) && (c <=? 8202)    (* U+2000 .. U+200A *)
  || (c =? 8232) || (c =? 8233)      (* LS PS *)
  || (c =? 8239) || (c =? 8287)      (* U+202F U+205F *)
  || (c =? 12288)                    (* U+3000 *)
  || (c =? 65279).                   (* U+FEFF *)

Fixpoint trimStart (s : jsstring) : jsstring :=
  match s with
  | [] => []
  | c :: r => if is_space c then trimStart r else s
  end.

Definition trimEnd (s : jsstring) : jsstring := rev (trimStart (rev s)).

Definition trim (s : jsstring) : jsstring := trimEnd (trimStart s).

(** ** [includes] *)
Fixpoint starts_with (p s : jsstring) : bool :=
  match p, s with
  | [], _ => true
  | a :: p', b :: s' => (a =? b) && starts_with p' s'
  | _ :: _, [] => false
  end.

Fixpoint includes (s p : jsstring) : bool :=
  starts_with p s ||
  match s with
  | [] => false
  | _ :: s' => includes s' p
  end.

(** ** Surrogates and UTF-8 *)
Definition is_lead (c : Z) : bool := (55296 <=? c) && (c <=? 56319).
Definition is_trail (c : Z) : bool := (56320 <=? c) && (c <=? 57343).

(** The code point of a surrogate pair. *)
Definition pair_code_point (hi lo : Z) : Z :=
  65536 + (hi - 55296) * 1024 + (lo - 56320).

(** The code units of a code point. *)
Definition utf16 (cp : Z) : jsstring :=
  if cp <? 65536 then [cp]
  else [55296 + (cp - 65536) / 1024; 56320 + (cp - 65536) mod 1024].

(** The octets of the UTF-8 encoding of a code point. *)
Definition utf8 (cp : Z) : list Z :=
  if cp <? 128 then [cp]
  else if cp <? 2048 then [192 + cp / 64; 128 + cp mod 64]
  else if cp <? 65536 then
    [224 + cp / 4096; 128 + (cp / 64) mod 64; 128 + cp mod 64]
  else
    [240 + cp / 262144; 128 + (cp / 4096) mod 64;
     128 + (cp / 64) mod 64; 128 + cp mod 64].

(** ** Percent escapes *)
Definition hexdigit (n : Z) : Z := if n <? 10 then 48 + n else 55 + n.

Definition hexval (c : Z) : option Z :=
  if (48 <=? c) && (c <=? 57) then Some (c - 48)
  else if (65 <=? c) && (c <=? 70) then Some (c - 55)
  else if (97 <=? c) && (c <=? 102) then Some (c - 87)
  else None.

Definition PERCENT : Z := 37.

Definition pct (b : Z) : jsstring :=
  [PERCENT; hexdigit (b / 16); hexdigit (b mod 16)].

Definition pct_all (bs : list Z) : jsstring := concat (map pct bs).

(** ** [encodeURIComponent]

    The characters left alone are the unreserved set: letters, digits and
    [- _ . ! ~ * ' ( )].  Everything else is replaced by the percent
    escapes of its UTF-8 octets; a surrogate that is not part of a pair
    raises URIError, here [None]. *)
Definition is_alpha (c : Z) : bool :=
  (65 <=? c) && (c <=? 90) || (97 <=? c) && (c <=? 122).
Definition is_digit (c : Z) : bool := (48 <=? c) && (c <=? 57).
Definition is_mark (c : Z) : bool :=
  (c =? 45) || (c =? 95) || (c =? 46) || (c =? 33) || (c =? 126)
  || (c =? 42) || (c =? 39) || (c =? 40) || (c =? 41).
Definition unreserved (c : Z) : bool := is_alpha c || is_digit c || is_mark c.

Fixpoint encodeURIComponent (s : jsstring) : option jsstring :=
  match s with
  | [] => Some []
  | c :: r =>
    if unreserved c then cons c <$> encodeURIComponent r
    else if is_lead c then
      match r with
      | d :: r' =>
        if is_trail d
        then app (pct_all (utf8 (pair_code_point c d))) <$> encodeURIComponent r'
        else None
      | [] => None
      end
    else if is_trail c then None
    else app (pct_all (utf8 c)) <$> encodeURIComponent r
  end.

(** ** [decodeURIComponent]

    The decoder keeps, between escapes, the part of a multi-octet sequence
    read so far: how many continuation octets are still due, the bits
    gathered, and the least code point the sequence length may encode. *)
Inductive pending :=
| Idle
| Due (n : nat) (acc lo : Z).

Definition valid_code_point (cp lo : Z) : bool :=
  (lo <=? cp) && (cp <=? 1114111) && negb ((55296 <=? cp) && (cp <=? 57343)).

(** One octet: the new state and the code units produced, or an error. *)
Definition step_octet (p : pending) (b : Z) : option (pending * jsstring) :=
  match p with
  | Idle =>
    if b <? 128 then Some (Idle, [b])
    else if (192 <=? b) && (b <? 224) then Some (Due 0 (b - 192) 128, [])
    else if (224 <=? b) && (b <? 240) then Some (Due 1 (b - 224) 2048, [])
    else if (240 <=? b) && (b <? 248) then Some (Due 2 (b - 240) 65536, [])
    else None
  | Due n acc lo =>
    if (128 <=? b) && (b <? 192) then
      let acc' := acc * 64 + (b - 128) in
      match n with
      | O => if valid_code_point acc' lo then Some (Idle, utf16 acc') else None
      | S n' => Some (Due n' acc' lo, [])
      end
    else None
  end.

Fixpoint decode_from (p : pending) (s : jsstring) : option jsstring :=
  match s with
  | [] => match p with Idle => Some [] | Due _ _ _ => None end
  | c :: r =>
    if c =? PERCENT then
      match r with
      | h1 :: h2 :: r' =>
        match hexval h1, hexval h2 with
        | Some a, Some b =>
          match step_octet p (16 * a + b) with
          | Some (p', out) => app out <$> decode_from p' r'
          | None => None
          end
        | _, _ => None
        end
      | _ => None
      end
    else
      match p with
      | Idle => cons c <$> decode_from Idle r
      | Due _ _ _ => None
      end
  end.

Definition decodeURIComponent (s : jsstring) : option jsstring :=
  decode_from Idle s.

(** Well-formed text: every code unit in range, every surrogate paired. *)
Fixpoint well_formed (s : jsstring) : bool :=
  match s with
  | [] => true
  | c :: r =>
    if is_lead c then
      match r with
      | d :: r' => is_trail d && well_formed r'
      | [] => false
      end
    else (0 <=? c) && (c <? 65536) && negb (is_trail c) && well_formed r
  end.

End JsString.

Import JsString.

(* ===================================================================== *)
(** * Regular expressions *)
(* ===================================================================== *)

Module Regex.

(** The members of a bracket class: a character, or the escape [\s]. *)
Inductive class_item :=
| ClassChar (c : Z)
| ClassSpace.

Definition in_item (c : Z) (i : class_item) : bool :=
  match i with
  | ClassChar d => c =? d
  | ClassSpace => is_space c
  end.

Definition in_class (c : Z) (items : list class_item) : bool :=
  existsb (in_item c) items.

Inductive regex :=
| Void                                  (* matches nothing *)
| Eps                                   (* the empty string *)
| Chr (c : Z)                           (* a literal character *)
| NotIn (items : list class_item)       (* [^...] *)
| Seq (r1 r2 : regex)
| Alt (r1 r2 : regex)
| Star (r : regex).

(** [r+] *)
Definition Plus (r : regex) : regex := Seq r (Star r).

(** What a pattern matches, as a relation. *)
Inductive matches : regex -> jsstring -> Prop :=
| MEps : matches Eps []
| MChr c : matches (Chr c) [c]
| MNotIn items c : in_class c items = false -> matches (NotIn items) [c]
| MSeq r1 r2 s1 s2 : matches r1 s1 -> matches r2 s2 -> matches (Seq r1 r2) (s1 ++ s2)
| MAltL r1 r2 s : matches r1 s -> matches (Alt r1 r2) s
| MAltR r1 r2 s : matches r2 s -> matches (Alt r1 r2) s
| MStarNil r : matches (Star r) []
| MStarCons r s1 s2 : matches r s1 -> matches (Star r) s2 -> matches (Star r) (s1 ++ s2).

(** The matcher: Brzozowski derivatives. *)
Fixpoint nullable (r : regex) : bool :=
  match r with
  | Void => false
  | Eps => true
  | Chr _ => false
  | NotIn _ => false
  | Seq r1 r2 => nullable r1 && nullable r2
  | Alt r1 r2 => nullable r1 || nullable r2
  | Star _ => true
  end.

Fixpoint deriv (c : Z) (r : regex) : regex :=
  match r with
  | Void => Void
  | Eps => Void
  | Chr d => if c =? d then Eps else Void
  | NotIn items => if in_class c items then Void else Eps
  | Seq r1 r2 =>
    if nullable r1 then Alt (Seq (deriv c r1) r2) (deriv c r2)
    else Seq (deriv c r1) r2
  | Alt r1 r2 => Alt (deriv c r1) (deriv c r2)
  | Star r1 => Seq (deriv c r1) (Star r1)
  end.

Fixpoint full_match (r : regex) (s : jsstring) : bool :=
  match s with
  | [] => nullable r
  | c :: s' => full_match (deriv c r) s'
  end.

(** [/^r$/.test(s)] for a pattern without flags: the whole string. *)
Definition test_anchored (r : regex) (s : jsstring) : bool := full_match r s.

End Regex.

(* ===================================================================== *)
(** * The DOM the handlers touch *)
(* ===================================================================== *)

Module Dom.

(** ** [classList] *)
Definition class_add (c : string) (cl : gset string) : gset string := cl ∪ {[ c ]}.
Definition class_remove (c : string) (cl : gset string) : gset string := cl ∖ {[ c ]}.
Definition class_contains (c : string) (cl : gset string) : bool := bool_decide (c ∈ cl).
Definition class_toggle (c : string) (cl : gset string) : gset string :=
  if class_contains c cl then class_remove c cl else class_add c cl.
(** [classList.toggle(c, force)] *)
Definition class_toggle_force (c : string) (force : bool) (cl : gset string) : gset string :=
  if force then class_add c cl else class_remove c cl.

(** ** [style.display] *)
Inductive display := DisplayUnset | DisplayNone | DisplayBlock | DisplayInline.

(** ** Form controls *)
Record input_el := {
  value : jsstring;
  classList : gset string;
  defaultValue : jsstring          (* what [form.reset()] restores *)
}.

Record option_el := { option_value : jsstring; option_text : jsstring }.

Record select_el := {
  options : list option_el;
  selectedIndex : Z;               (* -1 when nothing is selected *)
  defaultIndex : Z                 (* what [form.reset()] restores *)
}.

(** [select.options[i]], [undefined] out of range. *)
Definition option_at (sel : select_el) (i : Z) : option option_el :=
  if i <? 0 then None else options sel !! Z.to_nat i.

(** [select.value]: the value of the selected option, or the empty string. *)
Definition select_value (sel : select_el) : jsstring :=
  match option_at sel (selectedIndex sel) with
  | Some o => option_value o
  | None => []
  end.

(** The submit button with its two labels. *)
Record button_el := {
  btn_text : display;              (* .btn-text *)
  btn_loading : display;           (* .btn-loading *)
  disabled : bool
}.

Record anchor_el := { href : jsstring; anchor_display : display }.

Record form_data := {
  fd_name : jsstring;
  fd_email : jsstring;
  fd_phone : jsstring;
  fd_subject : jsstring;
  fd_message : jsstring
}.

(** The functions handed to [setTimeout] by the submit handlers, with the
    variables they close over. *)
Inductive closure :=
| MainSubmitDone (whatsappUrl mailtoUrl : jsstring) (formData : form_data)
| OptSubmitDone (whatsappUrl : jsstring).

Inductive log_entry :=
| LogFormSubmitted (formData : form_data)
| LogWhatsAppUrl (url : jsstring).

Inductive js_error := TypeError | URIError.

(** The contact page.  The three required inputs exist (the handlers
    dereference them without a check); every other element may be
    missing, as [getElementById] returning null. *)
Record page := {
  nameInput : input_el;
  emailInput : input_el;
  messageInput : input_el;
  nameError : option jsstring;         (* textContent *)
  emailError : option jsstring;
  messageError : option jsstring;
  phoneInput : option input_el;
  subjectSelect : option select_el;
  submitBtn : option button_el;
  contactForm_display : display;
  formSuccess : option display;
  body_appended : list anchor_el;      (* document.body.appendChild *)
  window_opened : list (jsstring * jsstring);   (* window.open(url, target) *)
  timers : list (Z * closure);         (* setTimeout(f, delay), pending *)
  console : list log_entry
}.

Definition with_name (i : input_el) (e : option jsstring) (p : page) : page :=
  {| nameInput := i; emailInput := emailInput p; messageInput := messageInput p;
     nameError := e; emailError := emailError p; messageError := messageError p;
     phoneInput := phoneInput p; subjectSelect := subjectSelect p;
     submitBtn := submitBtn p; contactForm_display := contactForm_display p;
     formSuccess := formSuccess p; body_appended := body_appended p;
     window_opened := window_opened p; timers := timers p; console := console p |}.

Definition with_email (i : input_el) (e : option jsstring) (p : page) : page :=
  {| nameInput := nameInput p; emailInput := i; messageInput := messageInput p;
     nameError := nameError p; emailError := e; messageError := messageError p;
     phoneInput := phoneInput p; subjectSelect := subjectSelect p;
     submitBtn := submitBtn p; contactForm_display := contactForm_display p;
     formSuccess := formSuccess p; body_appended := body_appended p;
     window_opened := window_opened p; timers := timers p; console := console p |}.

Definition with_message (i : input_el) (e : option jsstring) (p : page) : page :=
  {| nameInput := nameInput p; emailInput := emailInput p; messageInput := i;
     nameError := nameError p; emailError := emailError p; messageError := e;
     phoneInput := phoneInput p; subjectSelect := subjectSelect p;
     submitBtn := submitBtn p; contactForm_display := contactForm_display p;
     formSuccess := formSuccess p; body_appended := body_appended p;
     window_opened := window_opened p; timers := timers p; console := console p |}.

Definition with_optional (ph : option input_el) (su : option select_el) (p : page) : page :=
  {| nameInput := nameInput p; emailInput := emailInput p; messageInput := messageInput p;
     nameError := nameError p; emailError := emailError p; messageError := messageError p;
     phoneInput := ph; subjectSelect := su;
     submitBtn := submitBtn p; contactForm_display := contactForm_display p;
     formSuccess := formSuccess p; body_appended := body_appended p;
     window_opened := window_opened p; timers := timers p; console := console p |}.

Definition with_submitBtn (b : option button_el) (p : page) : page :=
  {| nameInput := nameInput p; emailInput := emailInput p; messageInput := messageInput p;
     nameError := nameError p; emailError := emailError p; messageError := messageError p;
     phoneInput := phoneInput p; subjectSelect := subjectSelect p;
     submitBtn := b; contactForm_display := contactForm_display p;
     formSuccess := formSuccess p; body_appended := body_appended p;
     window_opened := window_opened p; timers := timers p; console := console p |}.

Definition with_displays (f : display) (s : option display) (p : page) : page :=
  {| nameInput := nameInput p; emailInput := emailInput p; messageInput := messageInput p;
     nameError := nameError p; emailError := emailError p; messageError := messageError p;
     phoneInput := phoneInput p; subjectSelect := subjectSelect p;
     submitBtn := submitBtn p; contactForm_display := f;
     formSuccess := s; body_appended := body_appended p;
     window_opened := window_opened p; timers := timers p; console := console p |}.

Definition with_effects (a : list anchor_el) (o : list (jsstring * jsstring))
    (t : list (Z * closure)) (c : list log_entry) (p : page) : page :=
  {| nameInput := nameInput p; emailInput := emailInput p; messageInput := messageInput p;
     nameError := nameError p; emailError := emailError p; messageError := messageError p;
     phoneInput := phoneInput p; subjectSelect := subjectSelect p;
     submitBtn := submitBtn p; contactForm_display := contactForm_display p;
     formSuccess := formSuccess p; body_appended := a;
     window_opened := o; timers := t; console := c |}.

(** [setTimeout(f, delay)] *)
Definition setTimeout (f : closure) (delay : Z) (p : page) : page :=
  with_effects (body_appended p) (window_opened p) (timers p ++ [(delay, f)]) (console p) p.

(** [window.open(url, target)] *)
Definition window_open (url target : jsstring) (p : page) : page :=
  with_effects (body_appended p) (window_opened p ++ [(url, target)]) (timers p) (console p) p.

(** [document.body.appendChild(a)] *)
Definition appendChild (a : anchor_el) (p : page) : page :=
  with_effects (body_appended p ++ [a]) (window_opened p) (timers p) (console p) p.

Definition console_log (e : log_entry) (p : page) : page :=
  with_effects (body_appended p) (window_opened p) (timers p) (console p ++ [e]) p.

(** [form.reset()]: every control goes back to its default. *)
Definition reset_input (i : input_el) : input_el :=
  {| value := defaultValue i; classList := classList i; defaultValue := defaultValue i |}.

Definition reset_select (s : select_el) : select_el :=
  {| options := options s; selectedIndex := defaultIndex s; defaultIndex := defaultIndex s |}.

Definition form_reset (p : page) : page :=
  with_optional (reset_input <$> phoneInput p) (reset_select <$> subjectSelect p)
    (with_message (reset_input (messageInput p)) (messageError p)
       (with_email (reset_input (emailInput p)) (emailError p)
          (with_name (reset_input (nameInput p)) (nameError p) p))).

(** What a handler leaves behind: a page, or a page and the exception that
    stopped it. *)
Inductive outcome :=
| Done (p : page)
| Thrown (e : js_error) (p : page).

Definition page_of (o : outcome) : page :=
  match o with Done p => p | Thrown _ p => p end.

(** The three validated fields. *)
Inductive field := FName | FEmail | FMessage.

Definition field_input (f : field) (p : page) : input_el :=
  match f with
  | FName => nameInput p
  | FEmail => emailInput p
  | FMessage => messageInput p
  end.

Definition field_error (f : field) (p : page) : option jsstring :=
  match f with
  | FName => nameError p
  | FEmail => emailError p
  | FMessage => messageError p
  end.

Definition with_field (f : field) (i : input_el) (e : option jsstring) (p : page) : page :=
  match f with
  | FName => with_name i e p
  | FEmail => with_email i e p
  | FMessage => with_message i e p
  end.

(** The validation type each field is checked with. *)
Definition field_type (f : field) : string :=
  match f with
  | FName => "name"
  | FEmail => "email"
  | FMessage => "message"
  end.

(** The browser stores what the user typed before the input event. *)
Definition type_into (f : field) (v : jsstring) (p : page) : page :=
  let i := field_input f p in
  with_field f {| value := v; classList := classList i; defaultValue := defaultValue i |}
             (field_error f p) p.

End Dom.

(* ===================================================================== *)
(** * [js/main.js] *)
(* ===================================================================== *)

Module MainJs.
Import Dom Regex.

(** ** Header *)

(** [window.scrollY] is a number, not always whole. *)
Definition Qgtb (x y : Q) : bool := negb (Qle_bool x y).

Definition checkHeaderScroll (scrollY : Q) (header : gset string) : gset string :=
  if Qgtb scrollY 50 then class_add "scrolled" header
  else class_remove "scrolled" header.

(** ** Dropdowns

    The click handler of the toggle of the [d]-th dropdown; the first
    component is whether the default action was prevented. *)
Definition dropdown_toggle_click (innerWidth : Z) (d : nat)
    (dropdowns : list (gset string)) : bool * list (gset string) :=
  if innerWidth <=? 991 then
    let toggled := alter (class_toggle "active") d dropdowns in
    (true,
     imap (fun i other => if decide (i ≠ d) then class_remove "active" other else other)
          toggled)
  else (false, dropdowns).

Definition dropdown_resize (innerWidth : Z) (dropdowns : list (gset string))
  : list (gset string) :=
  if 991 <? innerWidth then class_remove "active" <$> dropdowns else dropdowns.

(** ** Scroll animations *)

Record animated_el := {
  el_classList : gset string;
  dataset_delay : option Z     (* data-delay, when set and not empty *)
}.

Record entry := { target : nat; isIntersecting : bool }.

Record animations := {
  animatedElements : list animated_el;
  observed : gset nat;             (* targets of the IntersectionObserver *)
  reveal_timers : list (Z * nat)   (* setTimeout(add 'animated' to target, delay) *)
}.

Definition add_animated (e : animated_el) : animated_el :=
  {| el_classList := class_add "animated" (el_classList e);
     dataset_delay := dataset_delay e |}.

Definition stagger (index : nat) (e : animated_el) : animated_el :=
  match dataset_delay e with
  | Some _ => e
  | None => {| el_classList := el_classList e;
               dataset_delay := Some (Z.of_nat index mod 6 * 100) |}
  end.

Definition initScrollAnimations (prefersReducedMotion : bool)
    (els : list animated_el) : animations :=
  if (length els =? 0)%nat then
    {| animatedElements := els; observed := ∅; reveal_timers := [] |}
  else if prefersReducedMotion then
    {| animatedElements := add_animated <$> els; observed := ∅; reveal_timers := [] |}
  else
    {| animatedElements := imap stagger els;
       observed := list_to_set (seq 0 (length els));
       reveal_timers := [] |}.

(** One entry of the observer callback. *)
Definition on_entry (a : animations) (en : entry) : animations :=
  if isIntersecting en then
    let delay := default 0 (animatedElements a !! target en ≫= dataset_delay) in
    {| animatedElements := animatedElements a;
       observed := observed a ∖ {[ target en ]};
       reveal_timers := reveal_timers a ++ [(delay, target en)] |}
  else a.

(** The observer callback: [entries.forEach]. *)
Definition observer_callback (entries : list entry) (a : animations) : animations :=
  foldl on_entry a entries.

(** The function given to [setTimeout], when its timer fires. *)
Definition reveal (t : nat) (a : animations) : animations :=
  {| animatedElements := alter add_animated t (animatedElements a);
     observed := observed a;
     reveal_timers := reveal_timers a |}.

(** ** Contact form *)

Definition emailRegex : regex :=
  let part := Plus (NotIn [ClassSpace; ClassChar 64]) in
  Seq part (Seq (Chr 64) (Seq part (Seq (Chr 46) part))).

Definition isValidEmail (email : jsstring) : bool := test_anchored emailRegex email.

Definition showError (input : input_el) (errorEl : option jsstring) (message : jsstring)
  : input_el * option jsstring :=
  ({| value := value input; classList := class_add "error" (classList input);
      defaultValue := defaultValue input |},
   match errorEl with Some _ => Some message | None => None end).

Definition clearError (input : input_el) (errorEl : option jsstring)
  : input_el * option jsstring :=
  ({| value := value input; classList := class_remove "error" (classList input);
      defaultValue := defaultValue input |},
   match errorEl with Some _ => Some [] | None => None end).

Definition MSG_REQUIRED : jsstring := lit "This field is required.".
Definition MSG_EMAIL : jsstring := lit "Please enter a valid email address.".
Definition MSG_NAME : jsstring := lit "Name must be at least 2 characters.".
Definition MSG_MESSAGE : jsstring := lit "Message must be at least 10 characters.".

Definition validateField (input : input_el) (errorEl : option jsstring) (type : string)
  : input_el * option jsstring * bool :=
  let value := trim (value input) in
  let '(input, errorEl) := clearError input errorEl in
  match value with
  | [] => (showError input errorEl MSG_REQUIRED, false)
  | _ :: _ =>
    if String.eqb type "email" then
      if negb (isValidEmail value) then (showError input errorEl MSG_EMAIL, false)
      else (input, errorEl, true)
    else if String.eqb type "name" then
      if jslength value <? 2 then (showError input errorEl MSG_NAME, false)
      else (input, errorEl, true)
    else if String.eqb type "message" then
      if jslength value <? 10 then (showError input errorEl MSG_MESSAGE, false)
      else (input, errorEl, true)
    else (input, errorEl, true)
  end.

(** The blur listener of a field. *)
Definition on_blur (f : field) (p : page) : page :=
  let '(i, e, _) := validateField (field_input f p) (field_error f p) (field_type f) in
  with_field f i e p.

(** The input listener of a field. *)
Definition on_input (f : field) (p : page) : page :=
  let i := field_input f p in
  with_field f {| value := value i; classList := class_remove "error" (classList i);
                  defaultValue := defaultValue i |}
             (field_error f p) p.

Definition EN_DASH : Z := 8211.

Definition DEFAULT_PHONE : jsstring := lit "Not provided".
Definition DEFAULT_SUBJECT : jsstring := lit "General Inquiry".

(** [a || b] on strings. *)
Definition or_default (a b : jsstring) : jsstring :=
  match a with [] => b | _ :: _ => a end.

Definition gather (p : page) : form_data :=
  {| fd_name := trim (value (nameInput p));
     fd_email := trim (value (emailInput p));
     fd_phone :=
       match phoneInput p with
       | Some ph => or_default (trim (value ph)) DEFAULT_PHONE
       | None => DEFAULT_PHONE
       end;
     fd_subject :=
       match subjectSelect p with
       | Some sel => or_default (select_value sel) DEFAULT_SUBJECT
       | None => DEFAULT_SUBJECT
       end;
     fd_message := trim (value (messageInput p)) |}.

(** [subjectSelect.options[subjectSelect.selectedIndex].text], a TypeError
    when no option is selected. *)
Definition subject_label (p : page) : option jsstring :=
  match subjectSelect p with
  | Some sel => option_text <$> option_at sel (selectedIndex sel)
  | None => Some DEFAULT_SUBJECT
  end.

Definition HEADER : jsstring := lit "New Enquiry " ++ [EN_DASH] ++ lit " Freshflow Foods".

(** The template literal of the WhatsApp message; [None] is the URIError
    of [encodeURIComponent]. *)
Definition whatsappMessage (formData : form_data) (subjectLabel : jsstring)
  : option jsstring :=
  n ← encodeURIComponent (fd_name formData);
  e ← encodeURIComponent (fd_email formData);
  ph ← encodeURIComponent (fd_phone formData);
  su ← encodeURIComponent subjectLabel;
  m ← encodeURIComponent (fd_message formData);
  Some (lit "*" ++ HEADER ++ lit "*%0A%0A*Name:* " ++ n
        ++ lit "%0A*Email:* " ++ e
        ++ lit "%0A*Phone:* " ++ ph
        ++ lit "%0A*Subject:* " ++ su
        ++ lit "%0A%0A*Message:*%0A" ++ m
        ++ lit "%0A%0A_Sent from Freshflow Foods website contact form._").

Definition NL : jsstring := [10].

Definition emailSubject_text (subjectLabel : jsstring) : jsstring :=
  HEADER ++ lit ": " ++ subjectLabel.

Definition emailBody_text (formData : form_data) (subjectLabel : jsstring) : jsstring :=
  HEADER ++ NL ++ NL ++ lit "Name: " ++ fd_name formData
  ++ NL ++ lit "Email: " ++ fd_email formData
  ++ NL ++ lit "Phone: " ++ fd_phone formData
  ++ NL ++ lit "Subject: " ++ subjectLabel
  ++ NL ++ NL ++ lit "Message:" ++ NL ++ fd_message formData
  ++ NL ++ NL ++ lit "---" ++ NL ++ lit "Sent from Freshflow Foods website contact form.".

Definition WA_PREFIX : jsstring := lit "https://wa.me/917794084488?text=".
Definition MAILTO_PREFIX : jsstring := lit "mailto:freshflowfoods@gmail.com?subject=".

Definition btn_busy (b : button_el) : button_el :=
  {| btn_text := DisplayNone; btn_loading := DisplayInline; disabled := true |}.

Definition btn_ready (b : button_el) : button_el :=
  {| btn_text := DisplayInline; btn_loading := DisplayNone; disabled := false |}.

(** The three validations of the submit listener, in order. *)
Definition validate_all (p : page) : page * bool * bool * bool :=
  let '(ni, ne, isNameValid) := validateField (nameInput p) (nameError p) "name" in
  let p := with_name ni ne p in
  let '(ei, ee, isEmailValid) := validateField (emailInput p) (emailError p) "email" in
  let p := with_email ei ee p in
  let '(mi, me, isMessageValid) :=
    validateField (messageInput p) (messageError p) "message" in
  let p := with_message mi me p in
  (p, isNameValid, isEmailValid, isMessageValid).

(** The submit listener. *)
Definition on_submit (p : page) : outcome :=
  let '(p, isNameValid, isEmailValid, isMessageValid) := validate_all p in
  if isNameValid && isEmailValid && isMessageValid then
    let p := with_submitBtn (btn_busy <$> submitBtn p) p in
    let formData := gather p in
    match subject_label p with
    | None => Thrown TypeError p
    | Some subjectLabel =>
      match whatsappMessage formData subjectLabel with
      | None => Thrown URIError p
      | Some message =>
        match encodeURIComponent (emailSubject_text subjectLabel),
              encodeURIComponent (emailBody_text formData subjectLabel) with
        | Some emailSubject, Some emailBody =>
          let whatsappUrl := WA_PREFIX ++ message in
          let mailtoUrl := MAILTO_PREFIX ++ emailSubject ++ lit "&body=" ++ emailBody in
          Done (setTimeout (MainSubmitDone whatsappUrl mailtoUrl formData) 1000 p)
        | _, _ => Thrown URIError p
        end
      end
    end
  else Done p.

(** The function given to [setTimeout] by the submit listener. *)
Definition run_closure (f : closure) (p : page) : page :=
  match f with
  | MainSubmitDone whatsappUrl mailtoUrl formData =>
    let p := window_open whatsappUrl (lit "_blank") p in
    let emailLink := {| href := mailtoUrl; anchor_display := DisplayNone |} in
    let p := appendChild emailLink p in
    let p := with_displays DisplayNone
               (match formSuccess p with Some _ => Some DisplayBlock | None => None end) p in
    let p := with_submitBtn (btn_ready <$> submitBtn p) p in
    let p := console_log (LogFormSubmitted formData) p in
    console_log (LogWhatsAppUrl whatsappUrl) p
  | OptSubmitDone _ => p
  end.

(** The [k]-th pending timer fires. *)
Definition fire_timer (k : nat) (p : page) : page :=
  match timers p !! k with
  | Some (_, f) =>
    run_closure f
      (with_effects (body_appended p) (window_opened p) (delete k (timers p)) (console p) p)
  | None => p
  end.

Definition drop_error (i : input_el) : input_el :=
  {| value := value i; classList := class_remove "error" (classList i);
     defaultValue := defaultValue i |}.

Definition blank (e : option jsstring) : option jsstring :=
  match e with Some _ => Some [] | None => None end.

(** The click listener of the reset button. *)
Definition resetForm_click (p : page) : page :=
  let p := form_reset p in
  let p := with_name (drop_error (nameInput p)) (nameError p) p in
  let p := with_email (drop_error (emailInput p)) (emailError p) p in
  let p := with_message (drop_error (messageInput p)) (messageError p) p in
  let p := with_name (nameInput p) (blank (nameError p)) p in
  let p := with_email (emailInput p) (blank (emailError p)) p in
  let p := with_message (messageInput p) (blank (messageError p)) p in
  with_displays DisplayBlock
    (match formSuccess p with Some _ => Some DisplayNone | None => None end) p.

(** What can happen to the form. *)
Inductive form_event :=
| Blur (f : field)
| Input (f : field) (v : jsstring)
| Submit
| ResetClick
| Timer (k : nat).

Definition handle (p : page) (ev : form_event) : page :=
  match ev with
  | Blur f => on_blur f p
  | Input f v => on_input f (type_into f v p)
  | Submit => page_of (on_submit p)
  | ResetClick => resetForm_click p
  | Timer k => fire_timer k p
  end.

End MainJs.

(* ===================================================================== *)
(** * The optimized script *)
(* ===================================================================== *)

Module Optimized.
Import Dom Regex.

(** ** Header *)
Definition checkScroll (scrollY : Q) (header : gset string) : gset string :=
  class_toggle_force "scrolled" (MainJs.Qgtb scrollY 50) header.

(** ** Dropdowns: the others are looked up again at each click. *)
Definition dropdown_toggle_click (innerWidth : Z) (d : nat)
    (document_dropdowns : list (gset string)) : bool * list (gset string) :=
  if innerWidth <=? 991 then
    let toggled := alter (class_toggle "active") d document_dropdowns in
    (true,
     imap (fun i other => if decide (i ≠ d) then class_remove "active" other else other)
          toggled)
  else (false, document_dropdowns).

(** ** Contact form *)
Definition isValidEmail (email : jsstring) : bool :=
  test_anchored MainJs.emailRegex email.

Definition showError (input : input_el) (errorEl : option jsstring) (message : jsstring)
  : input_el * option jsstring :=
  ({| value := value input; classList := class_add "error" (classList input);
      defaultValue := defaultValue input |},
   match errorEl with Some _ => Some message | None => None end).

Definition clearError (input : input_el) (errorEl : option jsstring)
  : input_el * option jsstring :=
  ({| value := value input; classList := class_remove "error" (classList input);
      defaultValue := defaultValue input |},
   match errorEl with Some _ => Some [] | None => None end).

Definition validateField (input : input_el) (errorEl : option jsstring) (type : string)
  : input_el * option jsstring * bool :=
  let value := trim (value input) in
  let '(input, errorEl) := clearError input errorEl in
  match value with
  | [] => (showError input errorEl MainJs.MSG_REQUIRED, false)
  | _ :: _ =>
    if String.eqb type "email" && negb (isValidEmail value) then
      (showError input errorEl MainJs.MSG_EMAIL, false)
    else if String.eqb type "name" && (jslength value <? 2) then
      (showError input errorEl MainJs.MSG_NAME, false)
    else if String.eqb type "message" && (jslength value <? 10) then
      (showError input errorEl MainJs.MSG_MESSAGE, false)
    else (input, errorEl, true)
  end.

Definition on_blur (f : field) (p : page) : page :=
  let '(i, e, _) := validateField (field_input f p) (field_error f p) (field_type f) in
  with_field f i e p.

Definition on_input (f : field) (p : page) : page :=
  let i := field_input f p in
  with_field f {| value := value i; classList := class_remove "error" (classList i);
                  defaultValue := defaultValue i |}
             (field_error f p) p.

Definition validate_all (p : page) : page * bool * bool * bool :=
  let '(ni, ne, isNameValid) := validateField (nameInput p) (nameError p) "name" in
  let p := with_name ni ne p in
  let '(ei, ee, isEmailValid) := validateField (emailInput p) (emailError p) "email" in
  let p := with_email ei ee p in
  let '(mi, me, isMessageValid) :=
    validateField (messageInput p) (messageError p) "message" in
  let p := with_message mi me p in
  (p, isNameValid, isEmailValid, isMessageValid).

(** The submit listener: the same data and the same template literal as
    the original, and no e-mail link. *)
Definition on_submit (p : page) : outcome :=
  let '(p, isNameValid, isEmailValid, isMessageValid) := validate_all p in
  if isNameValid && isEmailValid && isMessageValid then
    let p := with_submitBtn (MainJs.btn_busy <$> submitBtn p) p in
    let formData := MainJs.gather p in
    match MainJs.subject_label p with
    | None => Thrown TypeError p
    | Some subjectLabel =>
      match MainJs.whatsappMessage formData subjectLabel with
      | None => Thrown URIError p
      | Some message =>
        let whatsappUrl := MainJs.WA_PREFIX ++ message in
        Done (setTimeout (OptSubmitDone whatsappUrl) 1000 p)
      end
    end
  else Done p.

Definition run_closure (f : closure) (p : page) : page :=
  match f with
  | OptSubmitDone whatsappUrl =>
    let p := window_open whatsappUrl (lit "_blank") p in
    let p := with_displays DisplayNone
               (match formSuccess p with Some _ => Some DisplayBlock | None => None end) p in
    with_submitBtn (MainJs.btn_ready <$> submitBtn p) p
  | MainSubmitDone _ _ _ => p
  end.

Definition fire_timer (k : nat) (p : page) : page :=
  match timers p !! k with
  | Some (_, f) =>
    run_closure f
      (with_effects (body_appended p) (window_opened p) (delete k (timers p)) (console p) p)
  | None => p
  end.

(** The click listener of the reset button. *)
Definition resetForm_click (p : page) : page :=
  let p := form_reset p in
  let p := with_name (MainJs.drop_error (nameInput p)) (nameError p) p in
  let p := with_email (MainJs.drop_error (emailInput p)) (emailError p) p in
  let p := with_message (MainJs.drop_error (messageInput p)) (messageError p) p in
  let p := with_name (nameInput p) (MainJs.blank (nameError p)) p in
  let p := with_email (emailInput p) (MainJs.blank (emailError p)) p in
  let p := with_message (messageInput p) (MainJs.blank (messageError p)) p in
  with_displays DisplayBlock
    (match formSuccess p with Some _ => Some DisplayNone | None => None end) p.

Definition handle (p : page) (ev : MainJs.form_event) : page :=
  match ev with
  | MainJs.Blur f => on_blur f p
  | MainJs.Input f v => on_input f (type_into f v p)
  | MainJs.Submit => page_of (on_submit p)
  | MainJs.ResetClick => resetForm_click p
  | MainJs.Timer k => fire_timer k p
  end.

(** ** Deferred initialization *)

(** The initializers, as the calls the scheduler makes. *)
Inductive initializer :=
| initHeroSwiperDeferred
| initSmoothScroll
| initScrollAnimations
| initBreedCardsAnimation
| initContactForm
| initActiveNav
| initBackToTop
| initResponsiveHandlers.

(** The callbacks the scheduler hands to the browser. *)
Inductive callback :=
| OuterFrame          (* first requestAnimationFrame *)
| InnerFrame          (* second requestAnimationFrame *)
| Bundle.             (* the argument of deferInit *)

Record scheduler := {
  has_requestIdleCallback : bool;       (* 'requestIdleCallback' in window *)
  frame_requests : list callback;       (* requestAnimationFrame(cb) *)
  idle_requests : list (callback * Z);  (* requestIdleCallback(cb, {timeout}) *)
  timeouts : list (callback * Z);       (* setTimeout(cb, delay) *)
  called : list initializer             (* the initializers run so far *)
}.

Definition requestAnimationFrame (cb : callback) (s : scheduler) : scheduler :=
  {| has_requestIdleCallback := has_requestIdleCallback s;
     frame_requests := frame_requests s ++ [cb];
     idle_requests := idle_requests s; timeouts := timeouts s; called := called s |}.

Definition requestIdleCallback (cb : callback) (timeout : Z) (s : scheduler) : scheduler :=
  {| has_requestIdleCallback := has_requestIdleCallback s;
     frame_requests := frame_requests s;
     idle_requests := idle_requests s ++ [(cb, timeout)];
     timeouts := timeouts s; called := called s |}.

Definition setTimeout (cb : callback) (delay : Z) (s : scheduler) : scheduler :=
  {| has_requestIdleCallback := has_requestIdleCallback s;
     frame_requests := frame_requests s; idle_requests := idle_requests s;
     timeouts := timeouts s ++ [(cb, delay)]; called := called s |}.

Definition call (i : initializer) (s : scheduler) : scheduler :=
  {| has_requestIdleCallback := has_requestIdleCallback s;
     frame_requests := frame_requests s; idle_requests := idle_requests s;
     timeouts := timeouts s; called := called s ++ [i] |}.

Definition deferInit (cb : callback) (s : scheduler) : scheduler :=
  if has_requestIdleCallback s then requestIdleCallback cb 2000 s
  else setTimeout cb 100 s.

Definition initDeferredFeatures (s : scheduler) : scheduler :=
  requestAnimationFrame OuterFrame s.

Definition bundle : list initializer :=
  [initSmoothScroll; initScrollAnimations; initBreedCardsAnimation;
   initContactForm; initActiveNav; initBackToTop; initResponsiveHandlers].

Definition run (cb : callback) (s : scheduler) : scheduler :=
  match cb with
  | OuterFrame => requestAnimationFrame InnerFrame s
  | InnerFrame => deferInit Bundle (call initHeroSwiperDeferred s)
  | Bundle => foldl (fun s i => call i s) s bundle
  end.

(** The browser takes one request off a queue and runs it: animation
    frames in order, idle requests and timeouts in any order. *)
Inductive step : scheduler -> scheduler -> Prop :=
| step_frame s cb rest :
    frame_requests s = cb :: rest ->
    step s (run cb {| has_requestIdleCallback := has_requestIdleCallback s;
                      frame_requests := rest;
                      idle_requests := idle_requests s;
                      timeouts := timeouts s; called := called s |})
| step_idle s k cb t :
    idle_requests s !! k = Some (cb, t) ->
    step s (run cb {| has_requestIdleCallback := has_requestIdleCallback s;
                      frame_requests := frame_requests s;
                      idle_requests := delete k (idle_requests s);
                      timeouts := timeouts s; called := called s |})
| step_timeout s k cb t :
    timeouts s !! k = Some (cb, t) ->
    step s (run cb {| has_requestIdleCallback := has_requestIdleCallback s;
                      frame_requests := frame_requests s;
                      idle_requests := idle_requests s;
                      timeouts := delete k (timeouts s); called := called s |}).

(** The page when the script starts its deferred part. *)
Definition start (idle : bool) : scheduler :=
  initDeferredFeatures
    {| has_requestIdleCallback := idle; frame_requests := []; idle_requests := [];
       timeouts := []; called := [] |}.

End Optimized.

(* ===================================================================== *)
(** * Vocabulary of the properties *)
(* ===================================================================== *)

Module Props.
Import Dom Regex.

(** Arithmetic with division by constants. *)
Ltac zdiv := Z.div_mod_to_equations; lia.

(** A Unicode scalar value. *)
Definition scalar (cp : Z) : Prop :=
  0 <= cp <= 1114111 /\ ~ (55296 <= cp <= 57343).

(** ** Dropdowns *)
Definition is_open (ds : list (gset string)) (i : nat) : Prop :=
  exists cl, ds !! i = Some cl /\ "active" ∈ cl.

Definition at_most_one_open (ds : list (gset string)) : Prop :=
  forall i j, is_open ds i -> is_open ds j -> i = j.

(** A run of clicks, each with the viewport width at that moment. *)
Definition run_clicks (ds : list (gset string)) (clicks : list (Z * nat))
  : list (gset string) :=
  foldl (fun ds c => (MainJs.dropdown_toggle_click c.1 c.2 ds).2) ds clicks.

(** ** Validation, in the words of the specification *)

(** A character allowed in the parts of an address: no white space, no
    at sign. *)
Definition address_char (c : Z) : Prop := is_space c = false /\ c <> 64.

Definition address_part (s : jsstring) : Prop := s <> [] /\ Forall address_char s.

(** The permissive shape local@domain.tld. *)
Definition local_at_domain_tld (s : jsstring) : Prop :=
  exists loc domain tld,
    s = loc ++ [64] ++ domain ++ [46] ++ tld
    /\ address_part loc /\ address_part domain /\ address_part tld.

(** The bracket class of the e-mail pattern. *)
Definition address_class : regex := NotIn [ClassSpace; ClassChar 64].

(** The shape rule of each field, on the trimmed value. *)
Definition shape_ok (f : field) (v : jsstring) : Prop :=
  match f with
  | FName => 2 <= jslength v
  | FEmail => local_at_domain_tld v
  | FMessage => 10 <= jslength v
  end.

Definition shape_message (f : field) : jsstring :=
  match f with
  | FName => MainJs.MSG_NAME
  | FEmail => MainJs.MSG_EMAIL
  | FMessage => MainJs.MSG_MESSAGE
  end.

(** The rules in order, first failure wins: the error message a raw field
    value earns, or none. *)
Inductive verdict (f : field) (raw : jsstring) : option jsstring -> Prop :=
| verdict_required :
    trim raw = [] -> verdict f raw (Some MainJs.MSG_REQUIRED)
| verdict_shape :
    trim raw <> [] -> ~ shape_ok f (trim raw) -> verdict f raw (Some (shape_message f))
| verdict_valid :
    trim raw <> [] -> shape_ok f (trim raw) -> verdict f raw None.

(** What a field looks like after a validation with that verdict. *)
Definition shown (v : option jsstring) (input : input_el) (errorEl : option jsstring)
  : input_el * option jsstring * bool :=
  match v with
  | Some msg =>
    ({| value := value input; classList := classList input ∪ {[ "error" ]};
        defaultValue := defaultValue input |},
     match errorEl with Some _ => Some msg | None => None end, false)
  | None =>
    ({| value := value input; classList := classList input ∖ {[ "error" ]};
        defaultValue := defaultValue input |},
     match errorEl with Some _ => Some [] | None => None end, true)
  end.

(** ** The form *)

(** A field after its validation on page [p]. *)
Definition validated (f : field) (p : page) : input_el * option jsstring * bool :=
  MainJs.validateField (field_input f p) (field_error f p) (field_type f).

(** The page after the three validations of a submit. *)
Definition revalidated (p : page) : page :=
  with_message (validated FMessage p).1.1 (validated FMessage p).1.2
    (with_email (validated FEmail p).1.1 (validated FEmail p).1.2
       (with_name (validated FName p).1.1 (validated FName p).1.2 p)).

(** Everything on the page that is not one of the three fields. *)
Definition surroundings (p : page) :=
  (phoneInput p, subjectSelect p, submitBtn p, contactForm_display p, formSuccess p,
   body_appended p, window_opened p, timers p, console p).

(** The markup gives the text controls no initial value. *)
Definition no_default_values (p : page) : Prop :=
  defaultValue (nameInput p) = [] /\ defaultValue (emailInput p) = []
  /\ defaultValue (messageInput p) = []
  /\ (forall ph, phoneInput p = Some ph -> defaultValue ph = []).

(** Events that neither validate field [f] nor reset the form. *)
Definition quiet (f : field) (ev : MainJs.form_event) : Prop :=
  match ev with
  | MainJs.Input _ _ => True
  | MainJs.Blur g => g <> f
  | MainJs.Timer _ => True
  | MainJs.Submit => False
  | MainJs.ResetClick => False
  end.

(** The page when the submit listener has accepted the form: fields
    validated, button busy. *)
Definition submitting (p : page) : page :=
  with_submitBtn (MainJs.btn_busy <$> submitBtn p) (revalidated p).

(** The text of the WhatsApp message, before any escaping. *)
Definition whatsapp_text (formData : form_data) (subjectLabel : jsstring) : jsstring :=
  lit "*" ++ MainJs.HEADER ++ lit "*" ++ MainJs.NL ++ MainJs.NL
  ++ lit "*Name:* " ++ fd_name formData ++ MainJs.NL
  ++ lit "*Email:* " ++ fd_email formData ++ MainJs.NL
  ++ lit "*Phone:* " ++ fd_phone formData ++ MainJs.NL
  ++ lit "*Subject:* " ++ subjectLabel ++ MainJs.NL ++ MainJs.NL
  ++ lit "*Message:*" ++ MainJs.NL ++ fd_message formData ++ MainJs.NL ++ MainJs.NL
  ++ lit "_Sent from Freshflow Foods website contact form._".

(** The text the user typed is well-formed UTF-16, and so is the label of
    the subject. *)
Definition well_formed_entries (p : page) (subjectLabel : jsstring) : Prop :=
  well_formed (value (nameInput p)) = true
  /\ well_formed (value (emailInput p)) = true
  /\ well_formed (value (messageInput p)) = true
  /\ (forall ph, phoneInput p = Some ph -> well_formed (value ph) = true)
  /\ well_formed subjectLabel = true.

(** The phone control is missing or blank. *)
Definition phone_absent (p : page) : Prop :=
  match phoneInput p with
  | Some ph => trim (value ph) = []
  | None => True
  end.

(** The subject control is missing or has an empty value. *)
Definition subject_absent (p : page) : Prop :=
  match subjectSelect p with
  | Some sel => select_value sel = []
  | None => True
  end.

(** ** Sample pages *)
Definition text_input (v : jsstring) : input_el :=
  {| value := v; classList := ∅; defaultValue := [] |}.

Definition sample_subject : select_el :=
  {| options := [ {| option_value := []; option_text := lit "Select a subject" |};
                  {| option_value := lit "order"; option_text := lit "Place an Order" |} ];
     selectedIndex := 1; defaultIndex := 0 |}.

Definition sample_page (name email message : jsstring)
    (phone : option input_el) (subject : option select_el) : page :=
  {| nameInput := text_input name; emailInput := text_input email;
     messageInput := text_input message;
     nameError := Some []; emailError := Some []; messageError := Some [];
     phoneInput := phone; subjectSelect := subject;
     submitBtn := Some {| btn_text := DisplayInline; btn_loading := DisplayNone;
                          disabled := false |};
     contactForm_display := DisplayUnset; formSuccess := Some DisplayNone;
     body_appended := []; window_opened := []; timers := []; console := [] |}.

(** The submission of the specification's example, without the optional
    controls. *)
Definition jo_page : page :=
  sample_page (lit "Jo Smith") (lit "jo@example.com")
              (lit "Hello, I would like to order.") None None.

(** The same with blanks typed around the name. *)
Definition padded_page : page :=
  sample_page (lit "  Jo Smith  ") (lit "jo@example.com")
              (lit "Hello, I would like to order.") None None.

(** The escaped message both sample pages produce. *)
Definition jo_payload : jsstring :=
  lit "*New Enquiry " ++ [MainJs.EN_DASH]
  ++ lit " Freshflow Foods*%0A%0A*Name:* Jo%20Smith%0A*Email:* jo%40example.com"
  ++ lit "%0A*Phone:* Not%20provided%0A*Subject:* General%20Inquiry"
  ++ lit "%0A%0A*Message:*%0AHello%2C%20I%20would%20like%20to%20order."
  ++ lit "%0A%0A_Sent from Freshflow Foods website contact form._".

(** A page with an error showing on the name. *)
Definition short_name_page : page :=
  sample_page (lit "A") (lit "jo@example.com") (lit "Hello, I would like to order.")
              (Some (text_input (lit "12345"))) (Some sample_subject).

(** A subject control whose first option, the default, has a value of
    its own; the visitor has picked the second. *)
Definition preset_subject : select_el :=
  {| options := [ {| option_value := lit "general"; option_text := lit "General Inquiry" |};
                  {| option_value := lit "order"; option_text := lit "Place an Order" |} ];
     selectedIndex := 1; defaultIndex := 0 |}.

Definition preset_page : page :=
  sample_page (lit "Jo Smith") (lit "jo@example.com")
              (lit "Hello, I would like to order.") None (Some preset_subject).

(** [select.value] once the control is back at its default option. *)
Definition default_select_value (sel : select_el) : jsstring :=
  match option_at sel (defaultIndex sel) with
  | Some o => option_value o
  | None => []
  end.

Definition MAILTO_SCHEME : jsstring := lit "mailto:".

(** ** The deferred scheduler: the states it goes through *)

Definition after_outer_frame (idle : bool) : Optimized.scheduler :=
  {| Optimized.has_requestIdleCallback := idle;
     Optimized.frame_requests := [Optimized.InnerFrame];
     Optimized.idle_requests := []; Optimized.timeouts := [];
     Optimized.called := [] |}.

Definition bundle_queued (idle : bool) : Optimized.scheduler :=
  {| Optimized.has_requestIdleCallback := idle;
     Optimized.frame_requests := [];
     Optimized.idle_requests := if idle then [(Optimized.Bundle, 2000)] else [];
     Optimized.timeouts := if idle then [] else [(Optimized.Bundle, 100)];
     Optimized.called := [Optimized.initHeroSwiperDeferred] |}.

Definition bundle_done (idle : bool) : Optimized.scheduler :=
  {| Optimized.has_requestIdleCallback := idle;
     Optimized.frame_requests := [];
     Optimized.idle_requests := []; Optimized.timeouts := [];
     Optimized.called := Optimized.initHeroSwiperDeferred :: Optimized.bundle |}.

(** ** Scroll animations: the observer in the browser

    The browser queues an entry when an observed element crosses the
    threshold, in either direction, and later calls the callback with the
    queue; it removes a timer when it fires. *)
Record observer_world := {
  anims : MainJs.animations;
  queued : list MainJs.entry
}.

Inductive anim_event :=
| Enter (el : nat)           (* el comes into view *)
| Leave (el : nat)           (* el goes out of view *)
| Deliver                    (* the callback runs on the queue *)
| Fire (k : nat).            (* the k-th pending timer fires *)

Definition crossing (el : nat) (intersecting : bool) (w : observer_world) : observer_world :=
  if bool_decide (el ∈ MainJs.observed (anims w)) then
    {| anims := anims w;
       queued := queued w ++ [ {| MainJs.target := el;
                                  MainJs.isIntersecting := intersecting |} ] |}
  else w.

Definition anim_exec (w : observer_world) (ev : anim_event) : observer_world :=
  match ev with
  | Enter el => crossing el true w
  | Leave el => crossing el false w
  | Deliver =>
    {| anims := MainJs.observer_callback (queued w) (anims w); queued := [] |}
  | Fire k =>
    match MainJs.reveal_timers (anims w) !! k with
    | Some (_, t) =>
      {| anims :=
           MainJs.reveal t
             {| MainJs.animatedElements := MainJs.animatedElements (anims w);
                MainJs.observed := MainJs.observed (anims w);
                MainJs.reveal_timers := delete k (MainJs.reveal_timers (anims w)) |};
         queued := queued w |}
    | None => w
    end
  end.

Definition anim_run (w : observer_world) (evs : list anim_event) : observer_world :=
  foldl anim_exec w evs.

(** The element carries the class "animated". *)
Definition is_revealed (a : MainJs.animations) (el : nat) : bool :=
  match MainJs.animatedElements a !! el with
  | Some e => bool_decide ("animated" ∈ MainJs.el_classList e)
  | None => false
  end.

(** How many times the element goes from not revealed to revealed. *)
Fixpoint reveal_transitions (el : nat) (w : observer_world) (evs : list anim_event) : nat :=
  match evs with
  | [] => 0
  | ev :: rest =>
    let w' := anim_exec w ev in
    ((if negb (is_revealed (anims w) el) && is_revealed (anims w') el then 1 else 0)
     + reveal_transitions el w' rest)%nat
  end.

(** The pending timers that reveal the element. *)
Fixpoint pending_reveals (el : nat) (ts : list (Z * nat)) : nat :=
  match ts with
  | [] => 0
  | (_, t) :: rest => ((if Nat.eqb t el then 1 else 0) + pending_reveals el rest)%nat
  end.

(** The page after [initScrollAnimations], motion allowed. *)
Definition observing (els : list MainJs.animated_el) : observer_world :=
  {| anims := MainJs.initScrollAnimations false els; queued := [] |}.

(** The element is no longer observed and has no entry in the queue. *)
Definition gone (el : nat) (w : observer_world) : Prop :=
  (el ∉ MainJs.observed (anims w))
  /\ Forall (fun en => MainJs.target en ≠ el) (queued w).

(** Everything the observer handles is an element of the page. *)
Definition in_range (n : nat) (w : observer_world) : Prop :=
  length (MainJs.animatedElements (anims w)) = n
  /\ (forall x, x ∈ MainJs.observed (anims w) -> (x < n)%nat)
  /\ Forall (fun en => (MainJs.target en < n)%nat) (queued w)
  /\ Forall (fun t => (t.2 < n)%nat) (MainJs.reveal_timers (anims w)).

(** Two elements to animate, neither with a delay of its own. *)
Definition two_elements : list MainJs.animated_el :=
  [ {| MainJs.el_classList := {[ "card" ]}; MainJs.dataset_delay := None |};
    {| MainJs.el_classList := ∅; MainJs.dataset_delay := None |} ].

End Props.

Import Props.

(* ===================================================================== *)
(** * Further vocabulary: links and exceptions of the form *)
(* ===================================================================== *)

Module FormProps.
Import Dom.

(** How often a code unit occurs in a string. *)
Fixpoint jscount (c : Z) (s : jsstring) : nat :=
  match s with
  | [] => 0
  | x :: r => ((if Z.eqb x c then 1 else 0) + jscount c r)%nat
  end.

Definition AMPERSAND : Z := 38.
Definition HASH : Z := 35.
Definition AT_SIGN : Z := 64.

(** Every element of the string is a 16-bit code unit. *)
Definition code_units (s : jsstring) : Prop := Forall code_unit s.

(** The five texts the submit listener escapes. *)
Definition escaped_texts (p : page) (subjectLabel : jsstring) : list jsstring :=
  [ fd_name (MainJs.gather p); fd_email (MainJs.gather p); fd_phone (MainJs.gather p);
    subjectLabel; fd_message (MainJs.gather p) ].

(** The page one second after an accepted submit of the original script,
    when the timer it set has fired. *)
Definition after_success (p : page) : page :=
  MainJs.fire_timer (length (timers p)) (page_of (MainJs.on_submit p)).

Definition after_success_opt (p : page) : page :=
  Optimized.fire_timer (length (timers p)) (page_of (Optimized.on_submit p)).

(** A page with a subject control on which nothing is selected. *)
Definition unselected_page : page :=
  sample_page (lit "Jo Smith") (lit "jo@example.com")
    (lit "Hello, I would like to order.") None
    (Some {| options := [ {| option_value := lit "order";
                             option_text := lit "Place an Order" |} ];
             selectedIndex := -1; defaultIndex := -1 |}).

(** A page whose name holds a lone surrogate between two letters. *)
Definition surrogate_page : page :=
  sample_page [74; 55357; 111] (lit "jo@example.com")
    (lit "Hello, I would like to order.") None None.

(** The WhatsApp message around the five escaped texts. *)
Definition wa_template (n e ph su m : jsstring) : jsstring :=
  lit "*" ++ MainJs.HEADER ++ lit "*%0A%0A*Name:* " ++ n
  ++ lit "%0A*Email:* " ++ e
  ++ lit "%0A*Phone:* " ++ ph
  ++ lit "%0A*Subject:* " ++ su
  ++ lit "%0A%0A*Message:*%0A" ++ m
  ++ lit "%0A%0A_Sent from Freshflow Foods website contact form._".

(** The characters [encodeURIComponent] can produce. *)
Definition escaped_char (c : Z) : Prop := unreserved c = true \/ c = PERCENT.

End FormProps.

Import FormProps.

(* ===================================================================== *)
(** * Navigation: mobile menu, resize, active link, back to top, anchors *)
(* ===================================================================== *)

Module Navigation.
Import Dom.

(** ** Mobile menu

    The toggle button, the menu, and [document.body.style.overflow]. *)
Record nav := {
  navToggle : gset string;
  navMenu : gset string;
  body_overflow : jsstring
}.

Definition HIDDEN : jsstring := lit "hidden".

(** The click listener of the toggle button. *)
Definition navToggle_click (s : nav) : nav :=
  let toggle := class_toggle "active" (navToggle s) in
  let menu := class_toggle "active" (navMenu s) in
  {| navToggle := toggle; navMenu := menu;
     body_overflow := if class_contains "active" menu then HIDDEN else [] |}.

(** What the three closing listeners do. *)
Definition close_menu (s : nav) : nav :=
  {| navToggle := class_remove "active" (navToggle s);
     navMenu := class_remove "active" (navMenu s);
     body_overflow := [] |}.

(** The click listener on the document; the flags say whether the menu,
    respectively the toggle, contains the target of the click. *)
Definition document_click (in_menu in_toggle : bool) (s : nav) : nav :=
  if negb in_menu && negb in_toggle then close_menu s else s.

(** The click listener of a menu link that is not a dropdown toggle. *)
Definition navLink_click (s : nav) : nav := close_menu s.

(** The resize handler of [initResponsiveHandlers], once the debounce
    lets it run; the menu is [None] when the toggle or the menu is
    missing from the page. *)
Definition handleResize (innerWidth : Z) (menu : option nav)
    (dropdowns : list (gset string)) : option nav * list (gset string) :=
  if 991 <? innerWidth then
    (close_menu <$> menu, class_remove "active" <$> dropdowns)
  else (menu, dropdowns).

(** A click reaches the listener of its target and then, bubbling, the
    listener of the document. *)
Inductive menu_event :=
| ClickToggle                 (* on the toggle button *)
| ClickNavLink                (* on a plain link of the menu *)
| ClickInsideMenu             (* elsewhere inside the menu *)
| ClickOutside                (* anywhere else *)
| Resized (innerWidth : Z).   (* the debounced resize handler runs *)

Definition menu_handle (s : nav) (ev : menu_event) : nav :=
  match ev with
  | ClickToggle => document_click false true (navToggle_click s)
  | ClickNavLink => document_click true false (navLink_click s)
  | ClickInsideMenu => document_click true false s
  | ClickOutside => document_click false false s
  | Resized w =>
    match (handleResize w (Some s) []).1 with
    | Some s' => s'
    | None => s
    end
  end.

(** ** Back to top *)

(** The scroll listener of the original script. *)
Definition backToTop_scroll (scrollY : Q) (btn : gset string) : gset string :=
  if MainJs.Qgtb scrollY 500 then class_add "visible" btn
  else class_remove "visible" btn.

(** The scroll listener of the optimized script. *)
Definition backToTop_scroll_opt (scrollY : Q) (btn : gset string) : gset string :=
  class_toggle_force "visible" (MainJs.Qgtb scrollY 500) btn.

(** ** Active link *)

Record section_el := {
  offsetTop : Z;
  offsetHeight : Z;
  section_id : jsstring
}.

(** A link of the menu; the href is [None] when the attribute is missing
    ([getAttribute] returns null). *)
Record nav_link := {
  link_href : option jsstring;
  link_classList : gset string
}.

(** [a === b] on strings. *)
Definition jseq (a b : jsstring) : bool := bool_decide (a = b).

(** [s.endsWith(suffix)] *)
Definition ends_with (s suffix : jsstring) : bool := starts_with (rev suffix) (rev s).

Definition HASH_SIGN : jsstring := lit "#".

(** The inner loop over the links for one section; the flag is false when
    a link without href made [endsWith] raise a TypeError, which leaves
    the links after it untouched. *)
Fixpoint mark_links (sectionId : jsstring) (links : list nav_link)
  : list nav_link * bool :=
  match links with
  | [] => ([], true)
  | link :: rest =>
    let cleared := class_remove "active" (link_classList link) in
    match link_href link with
    | None => ({| link_href := None; link_classList := cleared |} :: rest, false)
    | Some href =>
      let cl :=
        if jseq href (HASH_SIGN ++ sectionId) || ends_with href (HASH_SIGN ++ sectionId)
        then class_add "active" cleared else cleared in
      let '(rest', ok) := mark_links sectionId rest in
      ({| link_href := Some href; link_classList := cl |} :: rest', ok)
    end
  end.

Definition Qltb (x y : Q) : bool := negb (Qle_bool y x).

(** The section contains the scroll position. *)
Definition section_current (scrollPosition : Q) (sec : section_el) : bool :=
  Qle_bool (inject_Z (offsetTop sec)) scrollPosition
  && Qltb scrollPosition (inject_Z (offsetTop sec + offsetHeight sec)).

(** [updateActiveNav]: the loop over the sections, stopping at an
    exception. *)
Fixpoint updateActiveNav_from (scrollPosition : Q) (sections : list section_el)
    (links : list nav_link) : list nav_link * bool :=
  match sections with
  | [] => (links, true)
  | sec :: rest =>
    if section_current scrollPosition sec then
      let '(links', ok) := mark_links (section_id sec) links in
      if ok then updateActiveNav_from scrollPosition rest links' else (links', false)
    else updateActiveNav_from scrollPosition rest links
  end.

Definition updateActiveNav (scrollY : Q) (sections : list section_el)
    (links : list nav_link) : list nav_link * bool :=
  let scrollPosition := (scrollY + 100)%Q in
  updateActiveNav_from scrollPosition sections links.

(** ** Smooth scroll *)

(** [document.querySelector(href)]: a selector that does not parse raises
    a SyntaxError; otherwise null, or an element, given by the offset of
    its top edge in the document. *)
Inductive query_result :=
| QuerySyntaxError
| QueryNull
| QueryFound (pageTop : Q).

Record anchor_outcome := {
  defaultPrevented : bool;
  scrollTo_top : option Q;             (* window.scrollTo({top, behavior: 'smooth'}) *)
  pushState_url : option jsstring;     (* history.pushState(null, null, href) *)
  raised : bool
}.

(** [target.getBoundingClientRect().top] *)
Definition rect_top (pageTop scrollY : Q) : Q := (pageTop - scrollY)%Q.

(** The click listener of a link whose href starts with "#"; the header
    height is [None] when the page has no header. *)
Definition anchor_click (href : jsstring) (querySelector : jsstring -> query_result)
    (header_offsetHeight : option Z) (scrollY : Q) : anchor_outcome :=
  if jseq href (lit "#") || jseq href [] then
    {| defaultPrevented := false; scrollTo_top := None; pushState_url := None;
       raised := false |}
  else
    match querySelector href with
    | QuerySyntaxError =>
      {| defaultPrevented := false; scrollTo_top := None; pushState_url := None;
         raised := true |}
    | QueryNull =>
      {| defaultPrevented := false; scrollTo_top := None; pushState_url := None;
         raised := false |}
    | QueryFound pageTop =>
      let headerHeight := inject_Z (default 0 header_offsetHeight) in
      let targetPosition := (rect_top pageTop scrollY + scrollY - headerHeight)%Q in
      {| defaultPrevented := true; scrollTo_top := Some targetPosition;
         pushState_url := Some href; raised := false |}
    end.

End Navigation.

(* ===================================================================== *)
(** * Further vocabulary: navigation *)
(* ===================================================================== *)

Module NavProps.
Import Dom Navigation.

(** The page scroll is locked exactly when the menu is open. *)
Definition locked_iff_open (s : nav) : Prop :=
  body_overflow s = HIDDEN <-> "active" ∈ navMenu s.

(** The toggle button shows the state of the menu. *)
Definition synced (s : nav) : Prop :=
  "active" ∈ navToggle s <-> "active" ∈ navMenu s.

Definition menu_closed (s : nav) : Prop :=
  ("active" ∉ navMenu s) /\ ("active" ∉ navToggle s) /\ body_overflow s = [].

(** The events that close the menu whatever its state. *)
Definition closing (ev : menu_event) : Prop :=
  match ev with
  | ClickNavLink | ClickOutside => True
  | Resized w => 991 < w
  | ClickToggle | ClickInsideMenu => False
  end.

(** The last section, in document order, that contains the position. *)
Fixpoint last_current (scrollPosition : Q) (sections : list section_el)
  : option section_el :=
  match sections with
  | [] => None
  | sec :: rest =>
    match last_current scrollPosition rest with
    | Some s => Some s
    | None => if section_current scrollPosition sec then Some sec else None
    end
  end.

(** A link as the highlighting for section [id] leaves it: active exactly
    when its href ends with "#id". *)
Definition highlighted (id : jsstring) (link : nav_link) : nav_link :=
  {| link_href := link_href link;
     link_classList :=
       if ends_with (default [] (link_href link)) (HASH_SIGN ++ id)
       then link_classList link ∪ {[ "active" ]}
       else link_classList link ∖ {[ "active" ]} |}.

Definition has_href (link : nav_link) : Prop := link_href link <> None.

(** A page with three sections and their links. *)
Definition sample_sections : list section_el :=
  [ {| offsetTop := 0; offsetHeight := 600; section_id := lit "home" |};
    {| offsetTop := 600; offsetHeight := 800; section_id := lit "about" |};
    {| offsetTop := 1400; offsetHeight := 500; section_id := lit "contact" |} ].

Definition sample_links : list nav_link :=
  [ {| link_href := Some (lit "#home"); link_classList := {[ "nav-link"; "active" ]} |};
    {| link_href := Some (lit "index.html#about"); link_classList := {[ "nav-link" ]} |};
    {| link_href := Some (lit "#contact"); link_classList := {[ "nav-link" ]} |} ].

Definition open_menu : nav :=
  {| navToggle := {[ "nav-toggle"; "active" ]}; navMenu := {[ "nav-menu"; "active" ]};
     body_overflow := HIDDEN |}.

End NavProps.

Import NavProps.

(* ===================================================================== *)
(** * The utilities: throttle and debounce *)
(* ===================================================================== *)

Module Timing.

Section Wrappers.
Context {A : Type}.    (* the arguments the wrapped function is called with *)

(** ** [throttle(func, limit)]

    The closure holds [inThrottle]; its timers are kept with the time at
    which they are due, and every run of [func] is logged with its time,
    its arguments and whether it raised, latest first. *)
Record throttled := {
  inThrottle : bool;
  throttle_timers : list Z;
  throttle_ran : list (Z * A * bool)
}.

Definition throttle_new : throttled :=
  {| inThrottle := false; throttle_timers := []; throttle_ran := [] |}.

(** The wrapper is called at time [now]; [raises] tells how [func] ends
    when it is run in this call.  [func] runs first: when it raises, the
    exception leaves the wrapper before [inThrottle] is set and before
    the timer is. *)
Definition throttle_call (limit now : Z) (args : A) (raises : bool) (s : throttled)
  : throttled :=
  if inThrottle s then s
  else if raises then
    {| inThrottle := inThrottle s;
       throttle_timers := throttle_timers s;
       throttle_ran := (now, args, true) :: throttle_ran s |}
  else {| inThrottle := true;
          throttle_timers := throttle_timers s ++ [now + limit];
          throttle_ran := (now, args, false) :: throttle_ran s |}.

(** The function given to [setTimeout]. *)
Definition throttle_release (s : throttled) : throttled :=
  {| inThrottle := false; throttle_timers := throttle_timers s;
     throttle_ran := throttle_ran s |}.

(** ** [debounce(func, wait)]

    The closure holds [timeout], the id of the last timer set; pending
    timers carry their id, the time they are due and the arguments their
    [later] closes over. *)
Record debounced := {
  timeout : option nat;
  next_timer_id : nat;
  debounce_timers : list (nat * Z * A);
  debounce_ran : list (Z * A)
}.

Definition debounce_new : debounced :=
  {| timeout := None; next_timer_id := 0; debounce_timers := []; debounce_ran := [] |}.

(** [clearTimeout(id)]: nothing happens for an id that is not pending. *)
Definition clearTimeout (id : option nat) (timers : list (nat * Z * A))
  : list (nat * Z * A) :=
  match id with
  | Some i => filter (fun t => t.1.1 ≠ i) timers
  | None => timers
  end.

(** The wrapper is called at time [now]. *)
Definition debounce_call (wait now : Z) (args : A) (s : debounced) : debounced :=
  let timers := clearTimeout (timeout s) (debounce_timers s) in
  let id := next_timer_id s in
  {| timeout := Some id; next_timer_id := S id;
     debounce_timers := timers ++ [(id, now + wait, args)];
     debounce_ran := debounce_ran s |}.

(** [later] of the original script: clear, then call. *)
Definition later (now : Z) (args : A) (s : debounced) : debounced :=
  {| timeout := timeout s; next_timer_id := next_timer_id s;
     debounce_timers := clearTimeout (timeout s) (debounce_timers s);
     debounce_ran := (now, args) :: debounce_ran s |}.

(** The arrow function of the optimized script: call. *)
Definition later_opt (now : Z) (args : A) (s : debounced) : debounced :=
  {| timeout := timeout s; next_timer_id := next_timer_id s;
     debounce_timers := debounce_timers s;
     debounce_ran := (now, args) :: debounce_ran s |}.

(** ** The clock

    Events carry the time at which they happen; time does not go back,
    and a timer does not fire before it is due. *)
Inductive timing_event :=
| Call (now : Z) (args : A)
| Fire (now : Z) (k : nat).    (* the k-th pending timer fires *)

Definition event_time (ev : timing_event) : Z :=
  match ev with Call now _ => now | Fire now _ => now end.

(** What happens to a throttled function: a call, with the way [func]
    ends if the call runs it, or a timer that fires. *)
Inductive throttle_event :=
| TCall (now : Z) (args : A) (raises : bool)
| TFire (now : Z) (k : nat).

Definition throttle_time (ev : throttle_event) : Z :=
  match ev with TCall now _ _ => now | TFire now _ => now end.

Definition throttle_exec (limit : Z) (w : Z * throttled) (ev : throttle_event)
  : option (Z * throttled) :=
  let '(clock, s) := w in
  if throttle_time ev <? clock then None
  else match ev with
       | TCall now args raises => Some (now, throttle_call limit now args raises s)
       | TFire now k =>
         match throttle_timers s !! k with
         | Some due =>
           if due <=? now then
             Some (now, throttle_release
                          {| inThrottle := inThrottle s;
                             throttle_timers := delete k (throttle_timers s);
                             throttle_ran := throttle_ran s |})
           else None
         | None => None
         end
       end.

Definition debounce_exec (original : bool) (wait : Z) (w : Z * debounced)
    (ev : timing_event) : option (Z * debounced) :=
  let '(clock, s) := w in
  if event_time ev <? clock then None
  else match ev with
       | Call now args => Some (now, debounce_call wait now args s)
       | Fire now k =>
         match debounce_timers s !! k with
         | Some (_, due, args) =>
           if due <=? now then
             let s' := {| timeout := timeout s; next_timer_id := next_timer_id s;
                          debounce_timers := delete k (debounce_timers s);
                          debounce_ran := debounce_ran s |} in
             Some (now, if original then later now args s' else later_opt now args s')
           else None
         | None => None
         end
       end.

(** A run of events, [None] if one of them cannot happen. *)
Fixpoint run_events {W : Type} (exec : W -> timing_event -> option W)
    (w : W) (evs : list timing_event) : option W :=
  match evs with
  | [] => Some w
  | ev :: rest =>
    match exec w ev with
    | Some w' => run_events exec w' rest
    | None => None
    end
  end.

Fixpoint throttle_run (limit : Z) (w : Z * throttled) (evs : list throttle_event)
  : option (Z * throttled) :=
  match evs with
  | [] => Some w
  | ev :: rest =>
    match throttle_exec limit w ev with
    | Some w' => throttle_run limit w' rest
    | None => None
    end
  end.

(** The run after a run that returned is at least [gap] later; the run
    after a run that raised is not earlier (the log is latest first). *)
Fixpoint spaced (gap : Z) (ran : list (Z * A * bool)) : Prop :=
  match ran with
  | (t2, _, _) :: (((t1, _, raised) :: _) as earlier) =>
    t1 <= t2 /\ (raised = false -> t1 + gap <= t2) /\ spaced gap earlier
  | _ => True
  end.

(** The call that came last in a run of events. *)
Fixpoint last_call (evs : list timing_event) (found : option (Z * A)) : option (Z * A) :=
  match evs with
  | [] => found
  | Call now args :: rest => last_call rest (Some (now, args))
  | Fire _ _ :: rest => last_call rest found
  end.

(** What the proofs keep about a throttle. *)
Definition throttle_inv (limit : Z) (w : Z * throttled) : Prop :=
  let '(clock, s) := w in
  spaced limit (throttle_ran s)
  /\ match throttle_ran s with
     | [] => inThrottle s = false /\ throttle_timers s = []
     | (t, _, raised) :: _ =>
       t <= clock
       /\ if inThrottle s then raised = false /\ throttle_timers s = [t + limit]
          else throttle_timers s = [] /\ (raised = false -> t + limit <= clock)
     end.

(** What the proofs keep about a debounce: either nothing is pending, or
    the one pending timer belongs to the call that came last. *)
Definition debounce_inv (wait : Z) (called : option (Z * A)) (w : Z * debounced) : Prop :=
  let '(clock, s) := w in
  debounce_timers s = []
  \/ exists id tc args,
       called = Some (tc, args) /\ timeout s = Some id
       /\ debounce_timers s = [(id, tc + wait, args)].

End Wrappers.

Arguments throttled : clear implicits.
Arguments throttle_event : clear implicits.
Arguments debounced : clear implicits.
Arguments timing_event : clear implicits.

End Timing.

(* ===================================================================== *)
(** * Cards, lazy images and the start of the optimized script *)
(* ===================================================================== *)

Module Media.
Import Dom.

(** ** Card animation ([initBreedCardsAnimation]) *)
Record card_deck := {
  allCards : list (gset string);    (* the class lists, breed cards first *)
  cards_observed : gset nat
}.

Definition initBreedCardsAnimation (prefersReducedMotion : bool)
    (breedCards regionCards : list (gset string)) : card_deck :=
  let cards := breedCards ++ regionCards in
  if (length cards =? 0)%nat then {| allCards := cards; cards_observed := ∅ |}
  else if prefersReducedMotion then
    {| allCards := class_add "animate-in" <$> cards; cards_observed := ∅ |}
  else
    {| allCards := cards; cards_observed := list_to_set (seq 0 (length cards)) |}.

Definition card_entry (d : card_deck) (en : MainJs.entry) : card_deck :=
  if MainJs.isIntersecting en then
    {| allCards := alter (class_add "animate-in") (MainJs.target en) (allCards d);
       cards_observed := cards_observed d ∖ {[ MainJs.target en ]} |}
  else d.

(** The observer callback of the cards. *)
Definition cards_callback (entries : list MainJs.entry) (d : card_deck) : card_deck :=
  foldl card_entry d entries.

(** ** Lazy images (original script) *)
Record image := {
  img_src : option jsstring;       (* the src attribute *)
  data_src : option jsstring       (* the data-src attribute *)
}.

(** The [src] of an image is a USVString: on assignment every unpaired
    surrogate becomes U+FFFD. *)
Fixpoint toUSVString (s : jsstring) : jsstring :=
  match s with
  | [] => []
  | c :: r =>
    if is_lead c then
      match r with
      | d :: r' => if is_trail d then c :: d :: toUSVString r'
                   else 65533 :: toUSVString r
      | [] => [65533]
      end
    else if is_trail c then 65533 :: toUSVString r
    else c :: toUSVString r
  end.

(** [img.src = img.dataset.src; img.removeAttribute('data-src')]; an
    undefined [dataset.src] is stored as the string "undefined". *)
Definition load_image (img : image) : image :=
  {| img_src := Some (toUSVString (default (lit "undefined") (data_src img)));
     data_src := None |}.

Record gallery := {
  lazyImages : list image;
  images_observed : gset nat
}.

(** The images are those selected by [img[data-src]]. *)
Definition initLazyImages (hasIntersectionObserver : bool) (lazy : list image) : gallery :=
  if (length lazy =? 0)%nat then {| lazyImages := lazy; images_observed := ∅ |}
  else if hasIntersectionObserver then
    {| lazyImages := lazy; images_observed := list_to_set (seq 0 (length lazy)) |}
  else {| lazyImages := load_image <$> lazy; images_observed := ∅ |}.

Definition image_entry (g : gallery) (en : MainJs.entry) : gallery :=
  if MainJs.isIntersecting en then
    {| lazyImages := alter load_image (MainJs.target en) (lazyImages g);
       images_observed := images_observed g ∖ {[ MainJs.target en ]} |}
  else g.

Definition images_callback (entries : list MainJs.entry) (g : gallery) : gallery :=
  foldl image_entry g entries.

(** How many entries report the element as intersecting. *)
Definition intersections (el : nat) (entries : list MainJs.entry) : nat :=
  length (filter (fun en => MainJs.isIntersecting en = true /\ MainJs.target en = el)
                 entries).

End Media.

Module Boot.

(** The three initializers the optimized script runs at once. *)
Inductive critical := initHeader | initMobileMenu | initDropdowns.

(** The two DOMContentLoaded listeners the script may register. *)
Inductive dom_listener := RunCritical | RunDeferred.

Record boot := {
  loading : bool;                          (* document.readyState === 'loading' *)
  dom_listeners : list dom_listener;       (* addEventListener('DOMContentLoaded', ..) *)
  critical_called : list critical;
  deferred : Optimized.scheduler
}.

Definition run_critical (b : boot) : boot :=
  {| loading := loading b; dom_listeners := dom_listeners b;
     critical_called := critical_called b ++ [initHeader; initMobileMenu; initDropdowns];
     deferred := deferred b |}.

Definition run_deferred (b : boot) : boot :=
  {| loading := loading b; dom_listeners := dom_listeners b;
     critical_called := critical_called b;
     deferred := Optimized.initDeferredFeatures (deferred b) |}.

Definition listen (l : dom_listener) (b : boot) : boot :=
  {| loading := loading b; dom_listeners := dom_listeners b ++ [l];
     critical_called := critical_called b; deferred := deferred b |}.

(** The script, top to bottom: the critical block, then the deferred
    block. *)
Definition script (b : boot) : boot :=
  let b := if loading b then listen RunCritical b else run_critical b in
  if loading b then listen RunDeferred b else run_deferred b.

Definition run_listener (b : boot) (l : dom_listener) : boot :=
  match l with
  | RunCritical => run_critical b
  | RunDeferred => run_deferred b
  end.

(** The page before the script runs. *)
Definition blank (isLoading idle : bool) : boot :=
  {| loading := isLoading; dom_listeners := []; critical_called := [];
     deferred := {| Optimized.has_requestIdleCallback := idle;
                    Optimized.frame_requests := []; Optimized.idle_requests := [];
                    Optimized.timeouts := []; Optimized.called := [] |} |}.

(** The browser fires DOMContentLoaded once, running the listeners in the
    order they were added; and it serves the scheduler's requests. *)
Inductive boot_step : boot -> boot -> Prop :=
| step_dom_ready b :
    loading b = true ->
    boot_step b (foldl run_listener
                   {| loading := false; dom_listeners := dom_listeners b;
                      critical_called := critical_called b; deferred := deferred b |}
                   (dom_listeners b))
| step_scheduler b s' :
    Optimized.step (deferred b) s' ->
    boot_step b {| loading := loading b; dom_listeners := dom_listeners b;
                   critical_called := critical_called b; deferred := s' |}.

(** The deferred part has begun: something is requested or was called. *)
Definition deferred_begun (s : Optimized.scheduler) : Prop :=
  Optimized.frame_requests s <> [] \/ Optimized.idle_requests s <> []
  \/ Optimized.timeouts s <> [] \/ Optimized.called s <> [].

End Boot.

(* ===================================================================== *)
(** * Properties of strings and of the URI codec *)
(* ===================================================================== *)

Section UriCodec.

Lemma fmap_app_compose (a b : jsstring) (o : option jsstring) :
  app a <$> (app b <$> o) = app (a ++ b) <$> o.
Proof. destruct o; simpl; [by rewrite app_assoc | done]. Qed.

Lemma fmap_cons_app (c : Z) (b : jsstring) (o : option jsstring) :
  cons c <$> (app b <$> o) = app (c :: b) <$> o.
Proof. by destruct o. Qed.

Lemma fmap_app_nil (o : option jsstring) : app [] <$> o = o.
Proof. by destruct o. Qed.

Lemma hexval_hexdigit n : 0 <= n < 16 -> hexval (hexdigit n) = Some n.
Proof.
  intros Hn. unfold hexval, hexdigit.
  destruct (n <? 10) eqn:E.
  - assert (H : (48 <=? 48 + n) && (48 + n <=? 57) = true) by lia.
    rewrite H. f_equal. lia.
  - assert (H1 : (48 <=? 55 + n) && (55 + n <=? 57) = false) by lia.
    assert (H2 : (65 <=? 55 + n) && (55 + n <=? 70) = true) by lia.
    rewrite H1, H2. f_equal. lia.
Qed.

(** Decoding one escape feeds its octet to the octet automaton. *)
Lemma decode_from_pct p b r :
  0 <= b < 256 ->
  decode_from p (pct b ++ r) =
  match step_octet p b with
  | Some (p', out) => app out <$> decode_from p' r
  | None => None
  end.
Proof.
  intros Hb. unfold pct. cbn [app decode_from].
  rewrite Z.eqb_refl.
  assert (Hq : 0 <= b / 16 < 16) by (split; [apply Z.div_pos | apply Z.div_lt_upper_bound]; lia).
  assert (Hr : 0 <= b mod 16 < 16) by (apply Z.mod_pos_bound; lia).
  rewrite (hexval_hexdigit _ Hq), (hexval_hexdigit _ Hr).
  replace (16 * (b / 16) + b mod 16) with b by (rewrite <- Z.div_mod; lia).
  reflexivity.
Qed.

Lemma decode_from_utf8 cp r :
  scalar cp ->
  decode_from Idle (pct_all (utf8 cp) ++ r) = app (utf16 cp) <$> decode_from Idle r.
Proof.
  intros [Hr Hs]. unfold utf8, pct_all.
  destruct (cp <? 128) eqn:E1; [|destruct (cp <? 2048) eqn:E2; [|destruct (cp <? 65536) eqn:E3]];
    cbn [map concat]; rewrite ?app_nil_r, <- ?app_assoc.
  - rewrite decode_from_pct by zdiv. unfold step_octet. rewrite E1.
    unfold utf16. replace (cp <? 65536) with true by zdiv. reflexivity.
  - rewrite decode_from_pct by zdiv.
    unfold step_octet at 1.
    replace (192 + cp / 64 <? 128) with false by zdiv.
    replace ((192 <=? 192 + cp / 64) && (192 + cp / 64 <? 224)) with true by zdiv.
    rewrite decode_from_pct by zdiv.
    unfold step_octet.
    replace ((128 <=? 128 + cp mod 64) && (128 + cp mod 64 <? 192)) with true by zdiv.
    cbv zeta.
    replace ((192 + cp / 64 - 192) * 64 + (128 + cp mod 64 - 128)) with cp by zdiv.
    unfold valid_code_point.
    replace ((128 <=? cp) && (cp <=? 1114111) && negb ((55296 <=? cp) && (cp <=? 57343)))
      with true by zdiv.
    rewrite fmap_app_nil. reflexivity.
  - rewrite decode_from_pct by zdiv.
    unfold step_octet at 1.
    replace (224 + cp / 4096 <? 128) with false by zdiv.
    replace ((192 <=? 224 + cp / 4096) && (224 + cp / 4096 <? 224)) with false by zdiv.
    replace ((224 <=? 224 + cp / 4096) && (224 + cp / 4096 <? 240)) with true by zdiv.
    rewrite decode_from_pct by zdiv.
    unfold step_octet at 1.
    replace ((128 <=? 128 + (cp / 64) mod 64) && (128 + (cp / 64) mod 64 <? 192))
      with true by zdiv.
    cbv zeta.
    rewrite decode_from_pct by zdiv.
    unfold step_octet.
    replace ((128 <=? 128 + cp mod 64) && (128 + cp mod 64 <? 192)) with true by zdiv.
    cbv zeta.
    replace (((224 + cp / 4096 - 224) * 64 + (128 + (cp / 64) mod 64 - 128)) * 64
             + (128 + cp mod 64 - 128)) with cp by zdiv.
    unfold valid_code_point.
    replace ((2048 <=? cp) && (cp <=? 1114111) && negb ((55296 <=? cp) && (cp <=? 57343)))
      with true by zdiv.
    rewrite !fmap_app_nil. reflexivity.
  - rewrite decode_from_pct by zdiv.
    unfold step_octet at 1.
    replace (240 + cp / 262144 <? 128) with false by zdiv.
    replace ((192 <=? 240 + cp / 262144) && (240 + cp / 262144 <? 224)) with false by zdiv.
    replace ((224 <=? 240 + cp / 262144) && (240 + cp / 262144 <? 240)) with false by zdiv.
    replace ((240 <=? 240 + cp / 262144) && (240 + cp / 262144 <? 248)) with true by zdiv.
    rewrite decode_from_pct by zdiv.
    unfold step_octet at 1.
    replace ((128 <=? 128 + (cp / 4096) mod 64) && (128 + (cp / 4096) mod 64 <? 192))
      with true by zdiv.
    cbv zeta.
    rewrite decode_from_pct by zdiv.
    unfold step_octet at 1.
    replace ((128 <=? 128 + (cp / 64) mod 64) && (128 + (cp / 64) mod 64 <? 192))
      with true by zdiv.
    cbv zeta.
    rewrite decode_from_pct by zdiv.
    unfold step_octet.
    replace ((128 <=? 128 + cp mod 64) && (128 + cp mod 64 <? 192)) with true by zdiv.
    cbv zeta.
    replace ((((240 + cp / 262144 - 240) * 64 + (128 + (cp / 4096) mod 64 - 128)) * 64
              + (128 + (cp / 64) mod 64 - 128)) * 64 + (128 + cp mod 64 - 128))
      with cp by zdiv.
    unfold valid_code_point.
    replace ((65536 <=? cp) && (cp <=? 1114111) && negb ((55296 <=? cp) && (cp <=? 57343)))
      with true by zdiv.
    rewrite !fmap_app_nil. reflexivity.
Qed.

Lemma unreserved_ascii c : unreserved c = true -> c <> PERCENT /\ 0 <= c < 128.
Proof. unfold unreserved, is_alpha, is_digit, is_mark, PERCENT. lia. Qed.

Lemma utf16_pair hi lo :
  is_lead hi = true -> is_trail lo = true ->
  scalar (pair_code_point hi lo) /\ utf16 (pair_code_point hi lo) = [hi; lo].
Proof.
  unfold is_lead, is_trail, scalar, pair_code_point, utf16. intros Hh Hl.
  split; [lia|].
  replace (_ <? 65536) with false by lia.
  f_equal; [|f_equal]; zdiv.
Qed.

Lemma utf16_bmp c :
  0 <= c < 65536 -> is_lead c = false -> is_trail c = false ->
  scalar c /\ utf16 c = [c].
Proof.
  unfold is_lead, is_trail, scalar, utf16. intros Hc Hh Hl.
  split; [lia|]. by replace (c <? 65536) with true by lia.
Qed.

(** Text outside escapes is copied. *)
Lemma decode_from_raw (l r : jsstring) :
  Forall (fun c => c <> PERCENT) l ->
  decode_from Idle (l ++ r) = app l <$> decode_from Idle r.
Proof.
  induction 1 as [|c l Hc _ IH]; simpl.
  - by rewrite fmap_app_nil.
  - apply Z.eqb_neq in Hc. rewrite Hc, IH. apply fmap_cons_app.
Qed.

(** The round trip, with any text following the encoded part. *)
Lemma encode_decode_bounded (n : nat) :
  forall s e r,
    (length s <= n)%nat ->
    well_formed s = true ->
    encodeURIComponent s = Some e ->
    decode_from Idle (e ++ r) = app s <$> decode_from Idle r.
Proof.
  induction n as [|n IH]; intros s e r Hlen Hwf Henc.
  - destruct s; [|simpl in Hlen; lia]. simpl in Henc. injection Henc as <-.
    simpl. by rewrite fmap_app_nil.
  - destruct s as [|c s]; [simpl in Henc; injection Henc as <-; simpl; by rewrite fmap_app_nil|].
    simpl in Hlen, Hwf, Henc.
    destruct (unreserved c) eqn:Eu.
    + destruct (unreserved_ascii _ Eu) as [Hp Hc].
      assert (Hl : is_lead c = false) by (unfold is_lead; lia).
      assert (Ht : is_trail c = false) by (unfold is_trail; lia).
      rewrite Hl in Hwf.
      destruct (encodeURIComponent s) as [e'|] eqn:Ee; [|done].
      simpl in Henc. injection Henc as <-.
      rewrite <- app_comm_cons. simpl.
      apply Z.eqb_neq in Hp. rewrite Hp.
      rewrite (IH s e' r) by (try done; try lia; apply andb_prop in Hwf; tauto).
      apply fmap_cons_app.
    + destruct (is_lead c) eqn:El.
      * destruct s as [|d s]; [done|].
        destruct (is_trail d) eqn:Et; [|done]. simpl in Hwf, Hlen.
        destruct (encodeURIComponent s) as [e'|] eqn:Ee; [|done].
        simpl in Henc. injection Henc as <-.
        destruct (utf16_pair _ _ El Et) as [Hsc H16].
        rewrite <- app_assoc, decode_from_utf8 by done.
        rewrite (IH s e' r) by (try done; lia).
        rewrite H16, fmap_app_compose. reflexivity.
      * apply andb_prop in Hwf as [Hwf Hs]. apply andb_prop in Hwf as [Hc Ht].
        apply negb_true_iff in Ht. rewrite Ht in Henc.
        destruct (encodeURIComponent s) as [e'|] eqn:Ee; [|done].
        simpl in Henc. injection Henc as <-.
        destruct (utf16_bmp c ltac:(lia) El Ht) as [Hsc H16].
        rewrite <- app_assoc, decode_from_utf8 by done.
        rewrite (IH s e' r) by (try done; lia).
        rewrite H16, fmap_app_compose. reflexivity.
Qed.

Lemma encode_decode_app s e r :
  well_formed s = true ->
  encodeURIComponent s = Some e ->
  decode_from Idle (e ++ r) = app s <$> decode_from Idle r.
Proof. intros. by eapply (encode_decode_bounded (length s)). Qed.

(** On well-formed text the encoder does not raise. *)
Lemma encode_total_bounded (n : nat) :
  forall s, (length s <= n)%nat -> well_formed s = true ->
            is_Some (encodeURIComponent s).
Proof.
  induction n as [|n IH]; intros s Hlen Hwf.
  - destruct s; [by eexists | simpl in Hlen; lia].
  - destruct s as [|c s]; [by eexists|].
    simpl in Hlen, Hwf |- *.
    destruct (unreserved c) eqn:Eu.
    + destruct (unreserved_ascii _ Eu) as [_ Hc].
      replace (is_lead c) with false in Hwf by (unfold is_lead; lia).
      apply andb_prop in Hwf as [_ Hs].
      destruct (IH s ltac:(lia) Hs) as [e ->]. by eexists.
    + destruct (is_lead c) eqn:El.
      * destruct s as [|d s]; [done|].
        apply andb_prop in Hwf as [-> Hs]. simpl in Hlen.
        destruct (IH s ltac:(lia) Hs) as [e ->]. by eexists.
      * apply andb_prop in Hwf as [Hwf Hs]. apply andb_prop in Hwf as [_ Ht].
        apply negb_true_iff in Ht. rewrite Ht.
        destruct (IH s ltac:(lia) Hs) as [e ->]. by eexists.
Qed.

Lemma encode_total s : well_formed s = true -> is_Some (encodeURIComponent s).
Proof. by apply (encode_total_bounded (length s)). Qed.

(** A lone surrogate makes the encoder raise. *)
Lemma encode_raises_inv s : encodeURIComponent s = None -> well_formed s = false.
Proof.
  intros H. destruct (well_formed s) eqn:E; [|done].
  destruct (encode_total s E) as [e He]. congruence.
Qed.

(** Decoding is compositional: a part that decodes on its own decodes the
    same way in front of any other text. *)
Lemma decode_from_app_bounded (n : nat) :
  forall t p d r,
    (length t <= n)%nat ->
    decode_from p t = Some d ->
    decode_from p (t ++ r) = app d <$> decode_from Idle r.
Proof.
  induction n as [|n IH]; intros t p d r Hlen Hd.
  - destruct t; [|simpl in Hlen; lia]. simpl in Hd.
    destruct p; [|done]. injection Hd as <-. simpl. by rewrite fmap_app_nil.
  - destruct t as [|c t].
    { simpl in Hd. destruct p; [|done]. injection Hd as <-. simpl. by rewrite fmap_app_nil. }
    simpl in Hlen, Hd |- *.
    destruct (c =? PERCENT).
    + destruct t as [|h1 [|h2 t]]; [done|done|]. simpl in Hlen.
      cbn [app]. destruct (hexval h1) as [a|]; [|done].
      destruct (hexval h2) as [b|]; [|done].
      destruct (step_octet p (16 * a + b)) as [[p' out]|]; [|done].
      destruct (decode_from p' t) as [d'|] eqn:Ed; [|done].
      simpl in Hd. injection Hd as <-.
      rewrite (IH t p' d' r) by (try done; lia).
      apply fmap_app_compose.
    + destruct p; [|done].
      destruct (decode_from Idle t) as [d'|] eqn:Ed; [|done].
      simpl in Hd. injection Hd as <-.
      rewrite (IH t Idle d' r) by (try done; lia).
      apply fmap_cons_app.
Qed.

Lemma decode_from_app t d r :
  decode_from Idle t = Some d ->
  decode_from Idle (t ++ r) = app d <$> decode_from Idle r.
Proof. intros. by eapply (decode_from_app_bounded (length t)). Qed.

(** The round trip proper. *)
Lemma encode_decode s e :
  well_formed s = true -> encodeURIComponent s = Some e ->
  decodeURIComponent e = Some s.
Proof.
  intros Hwf He. unfold decodeURIComponent.
  rewrite <- (app_nil_r e), (encode_decode_app s e [] Hwf He). simpl.
  by rewrite app_nil_r.
Qed.

(** ** Well-formed text under concatenation and [trim] *)

Lemma space_not_surrogate c :
  is_space c = true -> is_lead c = false /\ is_trail c = false /\ 0 <= c < 65536.
Proof. unfold is_space, is_lead, is_trail. lia. Qed.

Lemma well_formed_app_bounded (n : nat) :
  forall a b, (length a <= n)%nat ->
    well_formed a = true -> well_formed b = true -> well_formed (a ++ b) = true.
Proof.
  induction n as [|n IH]; intros a b Hlen Ha Hb.
  - destruct a; [done | simpl in Hlen; lia].
  - destruct a as [|c a]; [done|]. simpl in Hlen, Ha |- *.
    destruct (is_lead c).
    + destruct a as [|d a]; [done|]. simpl in Hlen |- *.
      apply andb_prop in Ha as [-> Ha]. simpl. apply IH; [lia|done|done].
    + apply andb_prop in Ha as [-> Ha]. simpl. apply IH; [lia|done|done].
Qed.

Lemma well_formed_app a b :
  well_formed a = true -> well_formed b = true -> well_formed (a ++ b) = true.
Proof. by apply (well_formed_app_bounded (length a)). Qed.

Lemma well_formed_drop_spaces_bounded (n : nat) :
  forall a t, (length a <= n)%nat ->
    Forall (fun c => is_space c = true) t ->
    well_formed (a ++ t) = true -> well_formed a = true.
Proof.
  induction n as [|n IH]; intros a t Hlen Ht Hwf.
  - destruct a; [done | simpl in Hlen; lia].
  - destruct a as [|c a]; [done|]. simpl in Hlen, Hwf |- *.
    destruct (is_lead c).
    + destruct a as [|d a].
      * simpl in Hwf. destruct t as [|x t]; [done|].
        apply Forall_cons in Ht as [Hx _].
        destruct (space_not_surrogate x Hx) as (_ & Hx' & _).
        by rewrite Hx' in Hwf.
      * simpl in Hlen, Hwf. apply andb_prop in Hwf as [-> Hwf]. simpl.
        apply (IH a t); [lia|done|done].
    + apply andb_prop in Hwf as [-> Hwf]. simpl. apply (IH a t); [lia|done|done].
Qed.

Lemma trimStart_split s :
  exists sp, s = sp ++ trimStart s /\ Forall (fun c => is_space c = true) sp.
Proof.
  induction s as [|c s (sp & Hs & Hsp)]; [by exists []|]. simpl.
  destruct (is_space c) eqn:E.
  - exists (c :: sp). split; [simpl; by f_equal | by constructor].
  - by exists [].
Qed.

Lemma well_formed_trimStart s : well_formed s = true -> well_formed (trimStart s) = true.
Proof.
  induction s as [|c s IH]; [done|]. intros Hwf. simpl.
  destruct (is_space c) eqn:E; [|done].
  destruct (space_not_surrogate c E) as (Hl & _). simpl in Hwf. rewrite Hl in Hwf.
  apply andb_prop in Hwf as [_ Hwf]. auto.
Qed.

Lemma well_formed_trim s : well_formed s = true -> well_formed (trim s) = true.
Proof.
  intros Hwf. unfold trim, trimEnd.
  apply well_formed_trimStart in Hwf.
  destruct (trimStart_split (rev (trimStart s))) as (sp & Hs & Hsp).
  apply (well_formed_drop_spaces_bounded _ _ (rev sp) (Nat.le_refl _)).
  - by apply Forall_rev.
  - rewrite <- rev_app_distr, <- Hs, rev_involutive. exact Hwf.
Qed.

End UriCodec.

Section Includes.

Lemma starts_with_app (p r : jsstring) : starts_with p (p ++ r) = true.
Proof. induction p as [|a p IH]; simpl; [done|]. by rewrite Z.eqb_refl. Qed.

Lemma includes_here (s p : jsstring) : starts_with p s = true -> includes s p = true.
Proof. intros H. destruct s; simpl; by rewrite H. Qed.

Lemma includes_app (a p b : jsstring) : includes (a ++ p ++ b) p = true.
Proof.
  induction a as [|x a IH]; simpl.
  - apply includes_here, starts_with_app.
  - rewrite IH. apply orb_true_r.
Qed.

Lemma starts_with_inv (p s : jsstring) :
  starts_with p s = true -> exists r, s = p ++ r.
Proof.
  revert s. induction p as [|a p IH]; intros s H; simpl in H.
  - by exists s.
  - destruct s as [|b s]; [done|].
    apply andb_prop in H as [Hab H]. apply Z.eqb_eq in Hab as ->.
    destruct (IH _ H) as [r ->]. by exists r.
Qed.

Lemma includes_inv (s p : jsstring) :
  includes s p = true -> exists a b, s = a ++ p ++ b.
Proof.
  induction s as [|x s IH]; simpl; intros H.
  - rewrite orb_false_r in H. destruct (starts_with_inv _ _ H) as [r ->].
    by exists [], r.
  - apply orb_prop in H as [H|H].
    + destruct (starts_with_inv _ _ H) as [r ->]. by exists [], r.
    + destruct (IH H) as (a & b & ->). by exists (x :: a), b.
Qed.

Lemma includes_prefix (p b : jsstring) : includes (p ++ b) p = true.
Proof. apply (includes_app [] p b). Qed.

Lemma includes_app_r (a b p : jsstring) : includes b p = true -> includes (a ++ b) p = true.
Proof.
  intros H. destruct (includes_inv _ _ H) as (x & y & ->).
  rewrite app_assoc. apply includes_app.
Qed.

End Includes.

(* ===================================================================== *)
(** * Header and dropdowns *)
(* ===================================================================== *)

Section Header.
Import Dom.

Lemma Qgtb_spec (x y : Q) : MainJs.Qgtb x y = true <-> (y < x)%Q.
Proof.
  unfold MainJs.Qgtb. rewrite negb_true_iff.
  split.
  - intros H. apply Qnot_le_lt. intros Hle. apply Qle_bool_iff in Hle. congruence.
  - intros H. destruct (Qle_bool x y) eqn:E; [|done].
    apply Qle_bool_iff in E. by apply Qlt_not_le in H.
Qed.

Lemma checkHeaderScroll_scrolled (y : Q) (header : gset string) :
  "scrolled" ∈ MainJs.checkHeaderScroll y header <-> (50 < y)%Q.
Proof.
  rewrite <- Qgtb_spec. unfold MainJs.checkHeaderScroll, class_add, class_remove.
  destruct (MainJs.Qgtb y 50); set_solver.
Qed.

Lemma checkHeaderScroll_idem (y : Q) (header : gset string) :
  MainJs.checkHeaderScroll y (MainJs.checkHeaderScroll y header)
  = MainJs.checkHeaderScroll y header.
Proof.
  unfold MainJs.checkHeaderScroll, class_add, class_remove.
  destruct (MainJs.Qgtb y 50); set_solver.
Qed.

Lemma checkScroll_same (y : Q) (header : gset string) :
  Optimized.checkScroll y header = MainJs.checkHeaderScroll y header.
Proof. reflexivity. Qed.

(** C7. At every scroll offset [y] the header check leaves the class
    "scrolled" on the header exactly when [y > 50]; it touches no other
    class; and evaluating it again at the same [y], any number of times,
    changes nothing.  Both scripts compute the same header. *)
Theorem header_check_threshold_idempotent (y : Q) (header : gset string) (n : nat) :
  ("scrolled" ∈ MainJs.checkHeaderScroll y header <-> (50 < y)%Q)
  /\ (forall c : string, c ≠ "scrolled" ->
        c ∈ MainJs.checkHeaderScroll y header <-> c ∈ header)
  /\ Nat.iter n (MainJs.checkHeaderScroll y) (MainJs.checkHeaderScroll y header)
     = MainJs.checkHeaderScroll y header
  /\ Optimized.checkScroll y header = MainJs.checkHeaderScroll y header.
Proof.
  split; [apply checkHeaderScroll_scrolled|].
  split.
  { intros c Hc. unfold MainJs.checkHeaderScroll, class_add, class_remove.
    destruct (MainJs.Qgtb y 50); set_solver. }
  split; [|apply checkScroll_same].
  induction n as [|n IH]; simpl; [done|].
  by rewrite IH, checkHeaderScroll_idem.
Qed.

Lemma header_check_witness :
  "scrolled" ∈ MainJs.checkHeaderScroll 120 {[ "sticky" ]}
  /\ "sticky" ∈ MainJs.checkHeaderScroll 120 {[ "sticky" ]}
  /\ "scrolled" ∉ MainJs.checkHeaderScroll 50 {[ "scrolled" ]}.
Proof.
  destruct (header_check_threshold_idempotent 120 {[ "sticky" ]} 3) as (H1 & H2 & _).
  destruct (header_check_threshold_idempotent 50 {[ "scrolled" ]} 1) as (H3 & _).
  split; [apply H1; reflexivity|].
  split; [apply H2; [discriminate | by apply elem_of_singleton]|].
  intros H. apply H3 in H. discriminate H.
Defined.

End Header.

Section Dropdowns.
Import Dom.

Lemma click_prevented (w : Z) (d : nat) (ds : list (gset string)) :
  (MainJs.dropdown_toggle_click w d ds).1 = true <-> w <= 991.
Proof.
  unfold MainJs.dropdown_toggle_click.
  destruct (w <=? 991) eqn:E; simpl; split; intros; try done; lia.
Qed.

Lemma click_others_closed (w : Z) (d i : nat) (ds : list (gset string)) :
  w <= 991 -> is_open (MainJs.dropdown_toggle_click w d ds).2 i -> i = d.
Proof.
  intros Hw (cl & Hl & Ha). unfold MainJs.dropdown_toggle_click in Hl.
  replace (w <=? 991) with true in Hl by lia. simpl in Hl.
  rewrite list_lookup_imap in Hl.
  destruct (alter (class_toggle "active") d ds !! i) as [x|] eqn:E; [|done].
  simpl in Hl. injection Hl as <-.
  destruct (decide (i ≠ d)) as [Hne|Heq].
  - unfold class_remove in Ha. set_solver.
  - by apply dec_stable.
Qed.

Lemma click_toggles (w : Z) (d : nat) (ds : list (gset string)) (cl : gset string) :
  w <= 991 -> ds !! d = Some cl ->
  (MainJs.dropdown_toggle_click w d ds).2 !! d = Some (class_toggle "active" cl).
Proof.
  intros Hw Hd. unfold MainJs.dropdown_toggle_click.
  replace (w <=? 991) with true by lia. simpl.
  rewrite list_lookup_imap, list_lookup_alter_eq, Hd. simpl.
  destruct (decide (d ≠ d)); [done|]. reflexivity.
Qed.

Lemma click_desktop (w : Z) (d : nat) (ds : list (gset string)) :
  991 < w -> MainJs.dropdown_toggle_click w d ds = (false, ds).
Proof.
  intros Hw. unfold MainJs.dropdown_toggle_click.
  by replace (w <=? 991) with false by lia.
Qed.

Lemma click_keeps_at_most_one (w : Z) (d : nat) (ds : list (gset string)) :
  at_most_one_open ds -> at_most_one_open (MainJs.dropdown_toggle_click w d ds).2.
Proof.
  intros H. destruct (decide (w <= 991)) as [Hw|Hw].
  - intros i j Hi Hj.
    rewrite (click_others_closed w d i ds Hw Hi).
    by rewrite (click_others_closed w d j ds Hw Hj).
  - rewrite click_desktop by lia. exact H.
Qed.

Lemma run_clicks_keeps_at_most_one (clicks : list (Z * nat)) (ds : list (gset string)) :
  at_most_one_open ds -> at_most_one_open (run_clicks ds clicks).
Proof.
  revert ds. induction clicks as [|c clicks IH]; intros ds H; simpl; [done|].
  apply IH, click_keeps_at_most_one, H.
Qed.

(** A resize above the breakpoint closes every dropdown. *)
Lemma dropdown_resize_closes (w : Z) (ds : list (gset string)) (i : nat) :
  991 < w -> ~ is_open (MainJs.dropdown_resize w ds) i.
Proof.
  intros Hw (cl & Hl & Ha). unfold MainJs.dropdown_resize in Hl.
  replace (991 <? w) with true in Hl by lia.
  rewrite list_lookup_fmap in Hl.
  destruct (ds !! i) as [x|]; [|done]. simpl in Hl. injection Hl as <-.
  unfold class_remove in Ha. set_solver.
Qed.

Lemma click_optimized_same (w : Z) (d : nat) (ds : list (gset string)) :
  Optimized.dropdown_toggle_click w d ds = MainJs.dropdown_toggle_click w d ds.
Proof. reflexivity. Qed.

(** C6. A click on a dropdown toggle prevents the default action of the
    link exactly when the viewport is at most 991 wide.  At such a width
    the clicked dropdown flips and every other one is closed, so opening
    [A] while [B] is open closes [B]; and from then on, whatever further
    clicks follow, at most one dropdown is open. *)
Theorem dropdown_click_intercept_exclusive
    (w : Z) (A B : nat) (ds : list (gset string)) (clA : gset string)
    (later : list (Z * nat)) :
  ((MainJs.dropdown_toggle_click w A ds).1 = true <-> w <= 991)
  /\ (w <= 991 -> ds !! A = Some clA -> "active" ∉ clA -> A ≠ B ->
      is_open (MainJs.dropdown_toggle_click w A ds).2 A
      /\ ~ is_open (MainJs.dropdown_toggle_click w A ds).2 B)
  /\ (w <= 991 ->
      at_most_one_open (run_clicks (MainJs.dropdown_toggle_click w A ds).2 later))
  /\ Optimized.dropdown_toggle_click w A ds = MainJs.dropdown_toggle_click w A ds.
Proof.
  split; [apply click_prevented|].
  split.
  { intros Hw HA Hcl Hne. split.
    - exists (class_toggle "active" clA). split; [by apply click_toggles|].
      unfold class_toggle, class_contains, class_add.
      rewrite bool_decide_eq_false_2 by done. set_solver.
    - intros HB. apply Hne. symmetry. by eapply click_others_closed. }
  split; [|apply click_optimized_same].
  intros Hw. apply run_clicks_keeps_at_most_one.
  intros i j Hi Hj.
  rewrite (click_others_closed w A i ds Hw Hi).
  by rewrite (click_others_closed w A j ds Hw Hj).
Qed.

Lemma dropdown_click_witness :
  let ds : list (gset string) := [{[ "dropdown" ]}; {[ "dropdown"; "active" ]}] in
  (MainJs.dropdown_toggle_click 768 0 ds).1 = true
  /\ is_open (MainJs.dropdown_toggle_click 768 0 ds).2 0
  /\ ~ is_open (MainJs.dropdown_toggle_click 768 0 ds).2 1
  /\ at_most_one_open
       (run_clicks (MainJs.dropdown_toggle_click 768 0 ds).2 [(768, 1%nat); (1200, 0%nat)]).
Proof.
  intros ds.
  destruct (dropdown_click_intercept_exclusive 768 0 1 ds {[ "dropdown" ]}
              [(768, 1%nat); (1200, 0%nat)]) as (H1 & H2 & H3 & _).
  assert (Hw : 768 <= 991) by lia.
  assert (Hcl : "active" ∉ ({[ "dropdown" ]} : gset string))
    by (intros H; apply elem_of_singleton in H; discriminate H).
  split; [by apply H1|].
  destruct (H2 Hw eq_refl Hcl ltac:(discriminate)) as [Ha Hb].
  split; [exact Ha|]. split; [exact Hb|]. exact (H3 Hw).
Defined.

End Dropdowns.

(* ===================================================================== *)
(** * The matcher and the e-mail pattern *)
(* ===================================================================== *)

Section Matcher.
Import Regex.

Lemma matches_nil_nullable r s : matches r s -> s = [] -> nullable r = true.
Proof.
  induction 1 as [| | |r1 r2 s1 s2 _ IH1 _ IH2| | | |]; intros Hs; simpl; try done.
  - apply app_eq_nil in Hs as [-> ->]. by rewrite IH1, IH2.
  - by rewrite IHmatches.
  - rewrite IHmatches by done. apply orb_true_r.
Qed.

Lemma nullable_matches r : nullable r = true -> matches r [].
Proof.
  induction r; simpl; intros H; try done.
  - constructor.
  - apply andb_prop in H as [H1 H2].
    change (@nil Z) with (@nil Z ++ []). constructor; auto.
  - apply orb_prop in H as [H|H]; [apply MAltL | apply MAltR]; auto.
  - constructor.
Qed.

Lemma deriv_sound c r : forall s, matches (deriv c r) s -> matches r (c :: s).
Proof.
  induction r as [| |d|items|r1 IH1 r2 IH2|r1 IH1 r2 IH2|r1 IH1]; simpl; intros s H.
  - inversion H.
  - inversion H.
  - destruct (c =? d) eqn:E; inversion H; subst.
    apply Z.eqb_eq in E as ->. constructor.
  - destruct (in_class c items) eqn:E; inversion H; subst. by constructor.
  - destruct (nullable r1) eqn:En.
    + inversion H as [| | | |? ? ? HL|? ? ? HR| |]; subst.
      * inversion HL as [| | |? ? s1 s2 H1 H2| | | |]; subst.
        change (c :: s1 ++ s2) with ((c :: s1) ++ s2). constructor; auto.
      * change (c :: s) with ([] ++ c :: s).
        constructor; [by apply nullable_matches | auto].
    + inversion H as [| | |? ? s1 s2 H1 H2| | | |]; subst.
      change (c :: s1 ++ s2) with ((c :: s1) ++ s2). constructor; auto.
  - inversion H; subst; [apply MAltL | apply MAltR]; auto.
  - inversion H as [| | |? ? s1 s2 H1 H2| | | |]; subst.
    change (c :: s1 ++ s2) with ((c :: s1) ++ s2). constructor; auto.
Qed.

Lemma deriv_complete c r s0 :
  matches r s0 -> forall s, s0 = c :: s -> matches (deriv c r) s.
Proof.
  induction 1 as [|d|items d Hd|r1 r2 s1 s2 H1 IH1 H2 IH2|r1 r2 s0 H IH|r1 r2 s0 H IH
                 |r1|r1 s1 s2 H1 IH1 H2 IH2]; intros s Hs; simpl.
  - done.
  - injection Hs as <- <-. rewrite Z.eqb_refl. constructor.
  - injection Hs as <- <-. rewrite Hd. constructor.
  - destruct s1 as [|x s1].
    + simpl in Hs. rewrite (matches_nil_nullable _ _ H1 eq_refl).
      apply MAltR. auto.
    + simpl in Hs. injection Hs as -> <-.
      destruct (nullable r1); [apply MAltL|]; constructor; auto.
  - apply MAltL. auto.
  - apply MAltR. auto.
  - done.
  - destruct s1 as [|x s1].
    + simpl in Hs. apply (IH2 s Hs).
    + simpl in Hs. injection Hs as -> <-. constructor; auto.
Qed.

(** The matcher decides the relation. *)
Lemma full_match_spec s : forall r, full_match r s = true <-> matches r s.
Proof.
  induction s as [|c s IH]; intros r; simpl.
  - split; [apply nullable_matches | intros H; by eapply matches_nil_nullable].
  - rewrite IH. split; [apply deriv_sound | intros H; by eapply deriv_complete].
Qed.

Lemma address_class_char c :
  in_class c [ClassSpace; ClassChar 64] = false <-> address_char c.
Proof.
  unfold in_class, address_char. simpl. rewrite orb_false_r, orb_false_iff, Z.eqb_neq.
  reflexivity.
Qed.

Lemma star_class_spec s : matches (Star address_class) s <-> Forall address_char s.
Proof.
  split.
  - remember (Star address_class) as r eqn:Er. induction 1; try discriminate.
    + constructor.
    + injection Er as ->. inversion H; subst. simpl.
      constructor; [by apply address_class_char | auto].
  - induction 1 as [|c s Hc _ IH]; [constructor|].
    change (c :: s) with ([c] ++ s). constructor; [|done].
    constructor. by apply address_class_char.
Qed.

Lemma plus_class_spec s : matches (Plus address_class) s <-> address_part s.
Proof.
  unfold Plus, address_part. split.
  - intros H. inversion H as [| | |? ? s1 s2 H1 H2| | | |]; subst.
    inversion H1; subst. simpl. split; [done|].
    constructor; [by apply address_class_char | by apply star_class_spec].
  - intros [Hne Hall]. destruct s as [|c s]; [done|].
    apply Forall_cons in Hall as [Hc Hs].
    change (c :: s) with ([c] ++ s). constructor; [|by apply star_class_spec].
    constructor. by apply address_class_char.
Qed.

(** The pattern of the source accepts exactly the shape local@domain.tld. *)
Lemma isValidEmail_spec s :
  MainJs.isValidEmail s = true <-> local_at_domain_tld s.
Proof.
  unfold MainJs.isValidEmail, test_anchored. rewrite full_match_spec.
  unfold MainJs.emailRegex, local_at_domain_tld. cbv zeta.
  fold address_class. split.
  - intros H.
    inversion H as [| | |? ? a s1 Ha H1| | | |]; subst.
    inversion H1 as [| | |? ? at_ s2 Hat H2| | | |]; subst.
    inversion H2 as [| | |? ? b s3 Hb H3| | | |]; subst.
    inversion H3 as [| | |? ? dot c Hdot Hc| | | |]; subst.
    inversion Hat; subst. inversion Hdot; subst.
    exists a, b, c. split; [done|]. by rewrite <- !plus_class_spec.
  - intros (a & b & c & -> & Ha & Hb & Hc).
    apply plus_class_spec in Ha, Hb, Hc.
    repeat (constructor; try done).
Qed.

End Matcher.

(* ===================================================================== *)
(** * Field validation *)
(* ===================================================================== *)

Section Validation.
Import Dom.

Lemma validateField_same (input : input_el) (errorEl : option jsstring) (type : string) :
  Optimized.validateField input errorEl type = MainJs.validateField input errorEl type.
Proof.
  unfold Optimized.validateField, MainJs.validateField, Optimized.isValidEmail,
    MainJs.isValidEmail, Optimized.clearError, MainJs.clearError,
    Optimized.showError, MainJs.showError.
  destruct (trim (value input)) as [|c v]; [done|].
  destruct (String.eqb_spec type "email") as [->|_];
    [|destruct (String.eqb_spec type "name") as [->|_];
      [|destruct (String.eqb_spec type "message") as [->|_]]];
    cbn [String.eqb Ascii.eqb Bool.eqb andb];
    destruct (Regex.test_anchored MainJs.emailRegex (c :: v)),
      (jslength (c :: v) <? 2), (jslength (c :: v) <? 10); reflexivity.
Qed.

(** The verdict a value earns is unique. *)
Lemma verdict_functional f raw v1 v2 : verdict f raw v1 -> verdict f raw v2 -> v1 = v2.
Proof. destruct 1; destruct 1; congruence. Qed.

Lemma add_after_remove (c : string) (cl : gset string) :
  class_add c (class_remove c cl) = cl ∪ {[ c ]}.
Proof.
  unfold class_add, class_remove. apply set_eq. intros x.
  rewrite !elem_of_union, elem_of_difference, !elem_of_singleton.
  destruct (decide (x = c)); tauto.
Qed.

Lemma blank_then_show (errorEl : option jsstring) (msg : jsstring) :
  match match errorEl with Some _ => Some ([] : jsstring) | None => None end with
  | Some _ => Some msg
  | None => None
  end = match errorEl with Some _ => Some msg | None => None end.
Proof. by destruct errorEl. Qed.

Lemma show_after_clear (input : input_el) (errorEl : option jsstring) (msg : jsstring) :
  (let '(i, e) := MainJs.clearError input errorEl in (MainJs.showError i e msg, false))
  = shown (Some msg) input errorEl.
Proof.
  unfold MainJs.clearError, MainJs.showError, shown. cbn [value classList defaultValue].
  by rewrite add_after_remove, blank_then_show.
Qed.

Lemma validateField_verdict (f : field) (input : input_el) (errorEl : option jsstring) :
  exists v, verdict f (value input) v
            /\ MainJs.validateField input errorEl (field_type f) = shown v input errorEl.
Proof.
  unfold MainJs.validateField.
  destruct (trim (value input)) as [|c t] eqn:Et.
  - exists (Some MainJs.MSG_REQUIRED). split; [by constructor|].
    apply show_after_clear.
  - assert (Hne : trim (value input) <> []) by (rewrite Et; discriminate).
    destruct f; cbn [field_type String.eqb Ascii.eqb Bool.eqb andb].
    + (* name *)
      destruct (jslength (c :: t) <? 2) eqn:El.
      * exists (Some (shape_message FName)). split; [|apply show_after_clear].
        apply verdict_shape; [done|]. rewrite Et. simpl. lia.
      * exists None. split; [|done].
        apply verdict_valid; [done|]. rewrite Et. simpl. lia.
    + (* email *)
      destruct (MainJs.isValidEmail (c :: t)) eqn:Ev; cbn [negb].
      * exists None. split; [|done].
        apply verdict_valid; [done|]. rewrite Et. by apply isValidEmail_spec.
      * exists (Some (shape_message FEmail)). split; [|apply show_after_clear].
        apply verdict_shape; [done|]. rewrite Et. simpl.
        rewrite <- isValidEmail_spec. congruence.
    + (* message *)
      destruct (jslength (c :: t) <? 10) eqn:El.
      * exists (Some (shape_message FMessage)). split; [|apply show_after_clear].
        apply verdict_shape; [done|]. rewrite Et. simpl. lia.
      * exists None. split; [|done].
        apply verdict_valid; [done|]. rewrite Et. simpl. lia.
Qed.

(** C2. [validateField] applies the rules in order and the first failure
    wins: an empty trimmed value gives "This field is required."; failing
    that, the e-mail must have the shape local@domain.tld, the name at
    least 2 characters and the message at least 10, each with its own
    message; a value passing every rule is valid, with the error class
    and text cleared.  Exactly one verdict applies, and both scripts agree. *)
Theorem validateField_ordered_rules
    (f : field) (input : input_el) (errorEl : option jsstring) :
  exists v,
    verdict f (value input) v
    /\ (forall v', verdict f (value input) v' -> v' = v)
    /\ MainJs.validateField input errorEl (field_type f) = shown v input errorEl
    /\ Optimized.validateField input errorEl (field_type f) = shown v input errorEl.
Proof.
  destruct (validateField_verdict f input errorEl) as (v & Hv & Heq).
  exists v. split; [done|]. split.
  - intros v' Hv'. by eapply verdict_functional.
  - by rewrite validateField_same.
Qed.

End Validation.

(* ===================================================================== *)
(** * The contact form: submit, reset, input *)
(* ===================================================================== *)

Section Form.
Import Dom.

Lemma validate_all_spec (p : page) :
  MainJs.validate_all p
  = (revalidated p, (validated FName p).2, (validated FEmail p).2, (validated FMessage p).2).
Proof.
  unfold MainJs.validate_all, revalidated, validated. cbn [field_input field_error field_type].
  destruct (MainJs.validateField (nameInput p) (nameError p) "name") as [[ni ne] bn].
  cbn [with_name emailInput emailError].
  destruct (MainJs.validateField (emailInput p) (emailError p) "email") as [[ei ee] be].
  cbn [with_email with_name messageInput messageError].
  destruct (MainJs.validateField (messageInput p) (messageError p) "message") as [[mi me] bm].
  reflexivity.
Qed.

Lemma validate_all_same (p : page) : Optimized.validate_all p = MainJs.validate_all p.
Proof.
  unfold Optimized.validate_all, MainJs.validate_all.
  rewrite validateField_same.
  destruct (MainJs.validateField (nameInput p) (nameError p) "name") as [[ni ne] bn].
  rewrite validateField_same.
  destruct (MainJs.validateField _ _ "email") as [[ei ee] be].
  rewrite validateField_same.
  reflexivity.
Qed.

Lemma revalidated_field (f : field) (p : page) :
  field_input f (revalidated p) = (validated f p).1.1
  /\ field_error f (revalidated p) = (validated f p).1.2.
Proof. by destruct f. Qed.

Lemma revalidated_surroundings (p : page) : surroundings (revalidated p) = surroundings p.
Proof. reflexivity. Qed.

(** A verdict decides the flag of the validation. *)
Lemma validated_flag (f : field) (p : page) (v : option jsstring) :
  verdict f (value (field_input f p)) v ->
  validated f p = shown v (field_input f p) (field_error f p).
Proof.
  intros Hv. unfold validated.
  destruct (validateField_verdict f (field_input f p) (field_error f p)) as (v' & Hv' & ->).
  by rewrite (verdict_functional _ _ _ _ Hv Hv').
Qed.

Lemma submit_rejected (p : page) :
  (validated FName p).2 && (validated FEmail p).2 && (validated FMessage p).2 = false ->
  MainJs.on_submit p = Done (revalidated p) /\ Optimized.on_submit p = Done (revalidated p).
Proof.
  intros H. split.
  - unfold MainJs.on_submit. rewrite validate_all_spec. by rewrite H.
  - unfold Optimized.on_submit.
    rewrite (validate_all_same p), validate_all_spec. by rewrite H.
Qed.

(** C3. A submit validates the three required fields again, each on its
    own.  When one of them is invalid the listener stops there: the page
    is the revalidated page, with the error class and message of every
    invalid field showing, and nothing else has changed: no timer is
    set, no window opened, no link added, nothing logged, the form and
    the success panel keep their display and the submit button its
    state. *)
Theorem submit_invalid_aborts (p : page) (f : field) (msg : jsstring) :
  verdict f (value (field_input f p)) (Some msg) ->
  MainJs.on_submit p = Done (revalidated p)
  /\ Optimized.on_submit p = Done (revalidated p)
  /\ (forall g v, verdict g (value (field_input g p)) v ->
        (field_input g (revalidated p), field_error g (revalidated p))
        = (shown v (field_input g p) (field_error g p)).1)
  /\ "error" ∈ classList (field_input f (revalidated p))
  /\ field_error f (revalidated p) = ((fun _ => msg) <$> field_error f p)
  /\ surroundings (revalidated p) = surroundings p.
Proof.
  intros Hv.
  assert (Hfields : forall g v, verdict g (value (field_input g p)) v ->
            (field_input g (revalidated p), field_error g (revalidated p))
            = (shown v (field_input g p) (field_error g p)).1).
  { intros g v Hg. destruct (revalidated_field g p) as [-> ->].
    rewrite (validated_flag g p v Hg). by destruct (shown _ _ _) as [[? ?] ?]. }
  assert (Hrej : (validated FName p).2 && (validated FEmail p).2
                 && (validated FMessage p).2 = false).
  { pose proof (validated_flag f p _ Hv) as Hf.
    destruct f; rewrite Hf; simpl; rewrite ?andb_false_r; reflexivity. }
  destruct (submit_rejected p Hrej) as [Hm Ho].
  repeat split; try done.
  - specialize (Hfields f _ Hv). simpl in Hfields.
    injection Hfields as -> _. simpl. set_solver.
  - specialize (Hfields f _ Hv). simpl in Hfields.
    injection Hfields as _ ->. by destruct (field_error f p).
Qed.

Lemma resetForm_same (p : page) : Optimized.resetForm_click p = MainJs.resetForm_click p.
Proof. reflexivity. Qed.

(** C8. Whatever the form looked like, a click on the reset control
    puts every control back to the default of the markup: the name,
    e-mail, message and phone fields get their default value, which is
    the empty string when the markup gives them no initial value, and
    the subject control goes back to its default option, with that
    option's value.  The error class is off the three fields, their
    other classes stay, the three error texts are empty, the form is
    displayed and the success panel hidden; the submit button, the
    timers and everything done before stay as they were. *)
Theorem reset_returns_clean_form (p : page) :
  let p' := MainJs.resetForm_click p in
  Optimized.resetForm_click p = p'
  /\ (forall f, value (field_input f p') = defaultValue (field_input f p)
                /\ defaultValue (field_input f p') = defaultValue (field_input f p)
                /\ classList (field_input f p') = classList (field_input f p) ∖ {[ "error" ]}
                /\ field_error f p' = ((fun _ => []) <$> field_error f p))
  /\ (value <$> phoneInput p') = (defaultValue <$> phoneInput p)
  /\ (selectedIndex <$> subjectSelect p') = (defaultIndex <$> subjectSelect p)
  /\ (select_value <$> subjectSelect p') = (default_select_value <$> subjectSelect p)
  /\ contactForm_display p' = DisplayBlock
  /\ formSuccess p' = ((fun _ => DisplayNone) <$> formSuccess p)
  /\ (submitBtn p', body_appended p', window_opened p', timers p', console p')
     = (submitBtn p, body_appended p, window_opened p, timers p, console p)
  /\ (no_default_values p ->
      (forall f, value (field_input f p') = [])
      /\ (value <$> phoneInput p') = ((fun _ => []) <$> phoneInput p)).
Proof.
  intros p'. split; [apply resetForm_same|].
  split.
  { intros f. destruct f; subst p'; simpl; unfold class_remove;
      (split; [done|]); (split; [done|]); (split; [done|]).
    - by destruct (nameError p).
    - by destruct (emailError p).
    - by destruct (messageError p). }
  split; [subst p'; simpl; by destruct (phoneInput p)|].
  split; [subst p'; simpl; by destruct (subjectSelect p)|].
  split; [subst p'; simpl; by destruct (subjectSelect p)|].
  split; [done|].
  split; [subst p'; simpl; by destruct (formSuccess p)|].
  split; [done|].
  intros (Hn & He & Hm & Hp). split.
  - intros f. destruct f; subst p'; simpl; done.
  - subst p'. simpl. destruct (phoneInput p) as [ph|] eqn:E; [|done].
    simpl. by rewrite (Hp ph).
Qed.

(** The subject control of this page has a default option with the
    value "general": the text controls have no initial value, the
    visitor picked the other option, and after the reset click the value
    of the subject is "general", not the empty string. *)
Lemma reset_default_subject_counterexample :
  no_default_values preset_page
  /\ (select_value <$> subjectSelect preset_page) = Some (lit "order")
  /\ (select_value <$> subjectSelect (MainJs.resetForm_click preset_page))
     = Some (lit "general")
  /\ (select_value <$> subjectSelect (Optimized.resetForm_click preset_page))
     = Some (lit "general")
  /\ lit "general" <> [].
Proof.
  split.
  { repeat split; try reflexivity. intros ph Hph. discriminate Hph. }
  repeat split; try (vm_compute; reflexivity). discriminate.
Qed.

Lemma on_input_same (f : field) (p : page) : Optimized.on_input f p = MainJs.on_input f p.
Proof. reflexivity. Qed.

Lemma on_blur_same (f : field) (p : page) : Optimized.on_blur f p = MainJs.on_blur f p.
Proof. unfold Optimized.on_blur, MainJs.on_blur. by rewrite validateField_same. Qed.

Lemma on_blur_other (f g : field) (p : page) :
  g <> f -> field_error f (MainJs.on_blur g p) = field_error f p.
Proof.
  intros Hne. unfold MainJs.on_blur.
  destruct (MainJs.validateField _ _ _) as [[i e] b].
  by destruct f, g.
Qed.

Lemma run_closure_errors (c : closure) (f : field) (p : page) :
  field_error f (MainJs.run_closure c p) = field_error f p.
Proof. destruct c, f; reflexivity. Qed.

Lemma fire_timer_errors (k : nat) (f : field) (p : page) :
  field_error f (MainJs.fire_timer k p) = field_error f p.
Proof.
  unfold MainJs.fire_timer. destruct (timers p !! k) as [[d c]|]; [|done].
  rewrite run_closure_errors. by destruct f.
Qed.

Lemma quiet_keeps_error (f : field) (ev : MainJs.form_event) (p : page) :
  quiet f ev -> field_error f (MainJs.handle p ev) = field_error f p.
Proof.
  destruct ev as [g|g v| | |k]; simpl; intros H; try done.
  - by apply on_blur_other.
  - by destruct f, g.
  - apply fire_timer_errors.
Qed.

Lemma run_closure_errors_opt (c : closure) (f : field) (p : page) :
  field_error f (Optimized.run_closure c p) = field_error f p.
Proof. destruct c, f; reflexivity. Qed.

Lemma fire_timer_errors_opt (k : nat) (f : field) (p : page) :
  field_error f (Optimized.fire_timer k p) = field_error f p.
Proof.
  unfold Optimized.fire_timer. destruct (timers p !! k) as [[d c]|]; [|done].
  rewrite run_closure_errors_opt. by destruct f.
Qed.

Lemma quiet_keeps_error_opt (f : field) (ev : MainJs.form_event) (p : page) :
  quiet f ev -> field_error f (Optimized.handle p ev) = field_error f p.
Proof.
  destruct ev as [g|g v| | |k]; simpl; intros H; try done.
  - rewrite on_blur_same. by apply on_blur_other.
  - by destruct f, g.
  - apply fire_timer_errors_opt.
Qed.

Lemma reset_blanks_error (f : field) (p : page) :
  field_error f (MainJs.resetForm_click p) = ((fun _ => []) <$> field_error f p).
Proof.
  destruct f; simpl.
  - by destruct (nameError p).
  - by destruct (emailError p).
  - by destruct (messageError p).
Qed.

(** C10. An input event on a field takes the class "error" off that
    field and does nothing else to the page: the other classes of the
    field stay, the three error texts stay as the last validation left
    them, the other fields and the rest of the page are untouched.  In
    both scripts the text then stays through any further events that
    are not a validation of that field (its blur, a submit) or a click
    on the reset control; a click on the reset control empties it. *)
Theorem input_clears_class_not_text
    (f : field) (v : jsstring) (p : page) (later : list MainJs.form_event) :
  Forall (quiet f) later ->
  let p' := MainJs.handle p (MainJs.Input f v) in
  Optimized.handle p (MainJs.Input f v) = p'
  /\ classList (field_input f p') = classList (field_input f p) ∖ {[ "error" ]}
  /\ value (field_input f p') = v
  /\ (forall g, field_error g p' = field_error g p)
  /\ (forall g, g <> f -> field_input g p' = field_input g p)
  /\ surroundings p' = surroundings p
  /\ field_error f (foldl MainJs.handle p' later) = field_error f p
  /\ field_error f (foldl Optimized.handle p' later) = field_error f p
  /\ field_error f (MainJs.handle (foldl MainJs.handle p' later) MainJs.ResetClick)
     = ((fun _ => []) <$> field_error f p)
  /\ field_error f (Optimized.handle (foldl Optimized.handle p' later) MainJs.ResetClick)
     = ((fun _ => []) <$> field_error f p).
Proof.
  intros Hq p'.
  assert (Hp' : field_error f p' = field_error f p) by (by destruct f).
  assert (Hmain : field_error f (foldl MainJs.handle p' later) = field_error f p).
  { rewrite <- Hp'. clearbody p'. clear Hp'. revert p'.
    induction Hq as [|ev later Hev _ IH]; intros p'; simpl; [done|].
    rewrite IH. by apply quiet_keeps_error. }
  assert (Hopt : field_error f (foldl Optimized.handle p' later) = field_error f p).
  { rewrite <- Hp'. clearbody p'. clear Hp' Hmain. revert p'.
    induction Hq as [|ev later Hev _ IH]; intros p'; simpl; [done|].
    rewrite IH. by apply quiet_keeps_error_opt. }
  split; [done|].
  split; [by destruct f|]. split; [by destruct f|].
  split; [intros g; by destruct f, g|].
  split; [intros g Hg; by destruct f, g|].
  split; [by destruct f|].
  split; [exact Hmain|]. split; [exact Hopt|].
  split.
  - cbn [MainJs.handle]. by rewrite reset_blanks_error, Hmain.
  - cbn [Optimized.handle]. by rewrite resetForm_same, reset_blanks_error, Hopt.
Qed.

(** The name shows an error; the visitor types, and then clicks the
    reset control: no blur and no submit has happened since the input
    event, and the error text is empty. *)
Lemma input_then_reset_counterexample :
  let p := revalidated short_name_page in
  let p' := MainJs.handle p (MainJs.Input FName (lit "Al")) in
  "error" ∈ classList (nameInput p)
  /\ nameError p = Some MainJs.MSG_NAME
  /\ nameError p' = Some MainJs.MSG_NAME
  /\ nameError (MainJs.handle p' MainJs.ResetClick) = Some []
  /\ nameError (Optimized.handle (Optimized.handle p (MainJs.Input FName (lit "Al")))
                  MainJs.ResetClick) = Some []
  /\ MainJs.MSG_NAME <> [].
Proof.
  intros p p'. repeat split; try (vm_compute; reflexivity). discriminate.
Qed.

(** ** An accepted submission *)

Lemma validateField_value (input : input_el) (errorEl : option jsstring) (type : string) :
  value (MainJs.validateField input errorEl type).1.1 = value input.
Proof.
  unfold MainJs.validateField, MainJs.clearError, MainJs.showError.
  destruct (trim (value input)); [done|].
  destruct (String.eqb type "email"); [by destruct (negb _)|].
  destruct (String.eqb type "name"); [by destruct (_ <? 2)|].
  destruct (String.eqb type "message"); [by destruct (_ <? 10)|done].
Qed.

Lemma gather_submitting (p : page) : MainJs.gather (submitting p) = MainJs.gather p.
Proof.
  unfold MainJs.gather, submitting, revalidated, validated. simpl.
  by rewrite !validateField_value.
Qed.

Lemma on_submit_unfold (p : page) :
  MainJs.on_submit p =
  if (validated FName p).2 && (validated FEmail p).2 && (validated FMessage p).2 then
    match MainJs.subject_label (submitting p) with
    | None => Thrown TypeError (submitting p)
    | Some subjectLabel =>
      match MainJs.whatsappMessage (MainJs.gather (submitting p)) subjectLabel with
      | None => Thrown URIError (submitting p)
      | Some message =>
        match encodeURIComponent (MainJs.emailSubject_text subjectLabel),
              encodeURIComponent
                (MainJs.emailBody_text (MainJs.gather (submitting p)) subjectLabel) with
        | Some emailSubject, Some emailBody =>
          Done (setTimeout
                  (MainSubmitDone (MainJs.WA_PREFIX ++ message)
                     (MainJs.MAILTO_PREFIX ++ emailSubject ++ lit "&body=" ++ emailBody)
                     (MainJs.gather (submitting p)))
                  1000 (submitting p))
        | _, _ => Thrown URIError (submitting p)
        end
      end
    end
  else Done (revalidated p).
Proof. unfold MainJs.on_submit. rewrite validate_all_spec. reflexivity. Qed.

Lemma on_submit_opt_unfold (p : page) :
  Optimized.on_submit p =
  if (validated FName p).2 && (validated FEmail p).2 && (validated FMessage p).2 then
    match MainJs.subject_label (submitting p) with
    | None => Thrown TypeError (submitting p)
    | Some subjectLabel =>
      match MainJs.whatsappMessage (MainJs.gather (submitting p)) subjectLabel with
      | None => Thrown URIError (submitting p)
      | Some message =>
        Done (setTimeout (OptSubmitDone (MainJs.WA_PREFIX ++ message)) 1000 (submitting p))
      end
    end
  else Done (revalidated p).
Proof.
  unfold Optimized.on_submit. rewrite (validate_all_same p), validate_all_spec.
  reflexivity.
Qed.

Lemma submit_accepted (p : page) (label payload es eb : jsstring) :
  (forall f, (validated f p).2 = true) ->
  MainJs.subject_label p = Some label ->
  MainJs.whatsappMessage (MainJs.gather p) label = Some payload ->
  encodeURIComponent (MainJs.emailSubject_text label) = Some es ->
  encodeURIComponent (MainJs.emailBody_text (MainJs.gather p) label) = Some eb ->
  MainJs.on_submit p
  = Done (setTimeout (MainSubmitDone (MainJs.WA_PREFIX ++ payload)
                        (MainJs.MAILTO_PREFIX ++ es ++ lit "&body=" ++ eb)
                        (MainJs.gather p))
                     1000 (submitting p))
  /\ Optimized.on_submit p
     = Done (setTimeout (OptSubmitDone (MainJs.WA_PREFIX ++ payload)) 1000 (submitting p)).
Proof.
  intros Hv Hl Hp Hs Hb.
  assert (Hl' : MainJs.subject_label (submitting p) = Some label) by exact Hl.
  split.
  - rewrite on_submit_unfold.
    rewrite (Hv FName), (Hv FEmail), (Hv FMessage). cbn [andb].
    by rewrite gather_submitting, Hl', Hp, Hs, Hb.
  - rewrite on_submit_opt_unfold.
    rewrite (Hv FName), (Hv FEmail), (Hv FMessage). cbn [andb].
    by rewrite gather_submitting, Hl', Hp.
Qed.

Lemma well_formed_gather (p : page) (label : jsstring) :
  well_formed_entries p label ->
  well_formed (fd_name (MainJs.gather p)) = true
  /\ well_formed (fd_email (MainJs.gather p)) = true
  /\ well_formed (fd_phone (MainJs.gather p)) = true
  /\ well_formed (fd_message (MainJs.gather p)) = true.
Proof.
  intros (Hn & He & Hm & Hp & _). unfold MainJs.gather. simpl.
  repeat split; try by apply well_formed_trim.
  destruct (phoneInput p) as [ph|]; [|done].
  specialize (Hp ph eq_refl). apply well_formed_trim in Hp.
  by destruct (trim (value ph)).
Qed.

(** The message is built without an exception, and decodes to the
    template with the collected values in place. *)
Lemma whatsappMessage_decodes (fd : form_data) (label : jsstring) :
  well_formed (fd_name fd) = true -> well_formed (fd_email fd) = true ->
  well_formed (fd_phone fd) = true -> well_formed (fd_message fd) = true ->
  well_formed label = true ->
  exists payload,
    MainJs.whatsappMessage fd label = Some payload
    /\ decodeURIComponent payload = Some (whatsapp_text fd label).
Proof.
  intros Hn He Hp Hm Hl. unfold MainJs.whatsappMessage.
  destruct (encode_total _ Hn) as [n En], (encode_total _ He) as [e Ee],
    (encode_total _ Hp) as [ph Eph], (encode_total _ Hm) as [m Em],
    (encode_total _ Hl) as [su Esu].
  rewrite En, Ee, Eph, Esu, Em. cbn [mbind option_bind].
  eexists. split; [reflexivity|]. unfold decodeURIComponent.
  rewrite (decode_from_app (lit "*") (lit "*")) by reflexivity.
  rewrite (decode_from_app MainJs.HEADER MainJs.HEADER) by reflexivity.
  rewrite (decode_from_app (lit "*%0A%0A*Name:* ")
             (lit "*" ++ MainJs.NL ++ MainJs.NL ++ lit "*Name:* ")) by reflexivity.
  rewrite (encode_decode_app _ _ _ Hn En).
  rewrite (decode_from_app (lit "%0A*Email:* ") (MainJs.NL ++ lit "*Email:* ")) by reflexivity.
  rewrite (encode_decode_app _ _ _ He Ee).
  rewrite (decode_from_app (lit "%0A*Phone:* ") (MainJs.NL ++ lit "*Phone:* ")) by reflexivity.
  rewrite (encode_decode_app _ _ _ Hp Eph).
  rewrite (decode_from_app (lit "%0A*Subject:* ") (MainJs.NL ++ lit "*Subject:* "))
    by reflexivity.
  rewrite (encode_decode_app _ _ _ Hl Esu).
  rewrite (decode_from_app (lit "%0A%0A*Message:*%0A")
             (MainJs.NL ++ MainJs.NL ++ lit "*Message:*" ++ MainJs.NL)) by reflexivity.
  rewrite (encode_decode_app _ _ _ Hm Em).
  replace (decode_from Idle (lit "%0A%0A_Sent from Freshflow Foods website contact form._"))
    with (Some (MainJs.NL ++ MainJs.NL
                ++ lit "_Sent from Freshflow Foods website contact form._"))
    by reflexivity.
  reflexivity.
Qed.

Lemma valid_by_flag (f : field) (p : page) :
  (validated f p).2 = true -> verdict f (value (field_input f p)) None.
Proof.
  intros H. unfold validated in H.
  destruct (validateField_verdict f (field_input f p) (field_error f p)) as (v & Hv & Heq).
  rewrite Heq in H. destruct v; [discriminate H | exact Hv].
Qed.

Lemma flag_by_valid (f : field) (p : page) :
  verdict f (value (field_input f p)) None -> (validated f p).2 = true.
Proof. intros H. by rewrite (validated_flag f p None H). Qed.

Lemma fire_submit_timer (c : closure) (p : page) :
  MainJs.fire_timer (length (timers p)) (setTimeout c 1000 p)
  = MainJs.run_closure c p
  /\ Optimized.fire_timer (length (timers p)) (setTimeout c 1000 p)
     = Optimized.run_closure c p.
Proof.
  unfold MainJs.fire_timer, Optimized.fire_timer, setTimeout.
  cbn [timers with_effects body_appended window_opened console].
  rewrite list_lookup_middle by done.
  replace (delete (length (timers p)) (timers p ++ [(1000, c)])) with (timers p).
  - by destruct p.
  - induction (timers p) as [|t ts IH]; simpl; [done | by rewrite <- IH].
Qed.

(** C1, as the script has it.  When the three required fields are valid,
    the text typed is well-formed UTF-16 and the subject control, if
    there is one, has a selected option, then the submit listener sets a
    timer that opens https://wa.me/917794084488?text=PAYLOAD in a new
    window, in both scripts.  PAYLOAD percent-decodes to the template
    filled with the collected values: it contains the header
    "New Enquiry - Freshflow Foods" (with an en dash) and the name,
    e-mail and message with the surrounding white space trimmed off.  A
    missing or blank phone is collected as "Not provided" and shown so;
    a missing or empty subject is collected as "General Inquiry", and
    the message shows the label of the selected option, "General
    Inquiry" when there is no subject control. *)
Theorem whatsapp_link_carries_trimmed_values (p : page) (label : jsstring) :
  (forall f, verdict f (value (field_input f p)) None) ->
  MainJs.subject_label p = Some label ->
  well_formed_entries p label ->
  exists payload mailto,
    let url := MainJs.WA_PREFIX ++ payload in
    let fd := MainJs.gather p in
    let text := whatsapp_text fd label in
    MainJs.on_submit p
    = Done (setTimeout (MainSubmitDone url mailto fd) 1000 (submitting p))
    /\ Optimized.on_submit p = Done (setTimeout (OptSubmitDone url) 1000 (submitting p))
    /\ window_opened (MainJs.fire_timer (length (timers p)) (page_of (MainJs.on_submit p)))
       = window_opened p ++ [(url, lit "_blank")]
    /\ window_opened
         (Optimized.fire_timer (length (timers p)) (page_of (Optimized.on_submit p)))
       = window_opened p ++ [(url, lit "_blank")]
    /\ decodeURIComponent payload = Some text
    /\ includes text MainJs.HEADER = true
    /\ includes text (trim (value (nameInput p))) = true
    /\ includes text (trim (value (emailInput p))) = true
    /\ includes text (trim (value (messageInput p))) = true
    /\ (phone_absent p ->
        fd_phone fd = MainJs.DEFAULT_PHONE
        /\ includes text (lit "*Phone:* Not provided") = true)
    /\ (subject_absent p -> fd_subject fd = MainJs.DEFAULT_SUBJECT)
    /\ (subjectSelect p = None ->
        label = MainJs.DEFAULT_SUBJECT
        /\ includes text (lit "*Subject:* General Inquiry") = true).
Proof.
  intros Hvalid Hlabel Hwf.
  destruct (well_formed_gather p label Hwf) as (Hn & He & Hp & Hm).
  assert (Hl : well_formed label = true) by apply Hwf.
  destruct (whatsappMessage_decodes _ label Hn He Hp Hm Hl) as (payload & Hpay & Hdec).
  assert (Hhead : well_formed MainJs.HEADER = true) by reflexivity.
  assert (Hnl : well_formed MainJs.NL = true) by reflexivity.
  destruct (encode_total (MainJs.emailSubject_text label)) as [es Hes].
  { unfold MainJs.emailSubject_text. repeat (apply well_formed_app; try done). }
  destruct (encode_total (MainJs.emailBody_text (MainJs.gather p) label)) as [eb Heb].
  { unfold MainJs.emailBody_text. repeat (apply well_formed_app; try done). }
  destruct (submit_accepted p label payload es eb
              (fun f => flag_by_valid f p (Hvalid f)) Hlabel Hpay Hes Heb) as [Hmain Hopt].
  exists payload, (MainJs.MAILTO_PREFIX ++ es ++ lit "&body=" ++ eb). cbv zeta.
  split; [exact Hmain|]. split; [exact Hopt|].
  split.
  { rewrite Hmain. cbn [page_of].
    change (length (timers p)) with (length (timers (submitting p))).
    rewrite (proj1 (fire_submit_timer _ _)). reflexivity. }
  split.
  { rewrite Hopt. cbn [page_of].
    change (length (timers p)) with (length (timers (submitting p))).
    rewrite (proj2 (fire_submit_timer _ _)). reflexivity. }
  split; [exact Hdec|].
  unfold whatsapp_text.
  split; [apply includes_app_r, includes_prefix|].
  split; [do 6 apply includes_app_r; apply includes_prefix|].
  split; [do 9 apply includes_app_r; apply includes_prefix|].
  split; [do 20 apply includes_app_r; apply includes_prefix|].
  split.
  { intros Hph.
    assert (Hd : fd_phone (MainJs.gather p) = MainJs.DEFAULT_PHONE).
    { unfold MainJs.gather, phone_absent in *. simpl.
      destruct (phoneInput p); [by rewrite Hph | done]. }
    split; [exact Hd|]. rewrite Hd.
    do 11 apply includes_app_r. rewrite app_assoc. apply includes_prefix. }
  split.
  { intros Hsu. unfold MainJs.gather, subject_absent in *. simpl.
    destruct (subjectSelect p); [by rewrite Hsu | done]. }
  intros Hno. unfold MainJs.subject_label in Hlabel. rewrite Hno in Hlabel.
  injection Hlabel as <-. split; [done|].
  do 14 apply includes_app_r. rewrite app_assoc. apply includes_prefix.
Qed.

Lemma whatsapp_link_witness :
  exists payload,
    decodeURIComponent payload = Some (whatsapp_text (MainJs.gather jo_page) MainJs.DEFAULT_SUBJECT)
    /\ window_opened (MainJs.fire_timer 0 (page_of (MainJs.on_submit jo_page)))
       = [(MainJs.WA_PREFIX ++ payload, lit "_blank")]
    /\ includes (whatsapp_text (MainJs.gather jo_page) MainJs.DEFAULT_SUBJECT)
                (lit "Jo Smith") = true.
Proof.
  assert (Hvalid : forall f, verdict f (value (field_input f jo_page)) None).
  { intros f. apply valid_by_flag. destruct f; vm_compute; reflexivity. }
  assert (Hwf : well_formed_entries jo_page MainJs.DEFAULT_SUBJECT).
  { repeat split; try (vm_compute; reflexivity). intros ph Hph; discriminate Hph. }
  destruct (whatsapp_link_carries_trimmed_values jo_page MainJs.DEFAULT_SUBJECT
              Hvalid eq_refl Hwf)
    as (payload & mailto & _ & _ & Hopen & _ & Hdec & _ & Hname & _).
  exists payload. split; [exact Hdec|]. split; [exact Hopen | exact Hname].
Defined.

(** With blanks typed around the name the three fields are still valid,
    yet the decoded message does not contain the value of the name field
    as typed: the script sends the trimmed name. *)
Lemma whatsapp_link_padded_counterexample :
  (forall f, (validated f padded_page).2 = true)
  /\ exists mailto fd text,
       MainJs.on_submit padded_page
       = Done (setTimeout (MainSubmitDone (MainJs.WA_PREFIX ++ jo_payload) mailto fd) 1000
                          (submitting padded_page))
       /\ decodeURIComponent jo_payload = Some text
       /\ value (nameInput padded_page) = lit "  Jo Smith  "
       /\ includes text (value (nameInput padded_page)) = false
       /\ includes text (lit "Jo Smith") = true.
Proof.
  split; [intros f; destruct f; vm_compute; reflexivity|].
  assert (Hpay : MainJs.whatsappMessage (MainJs.gather padded_page) MainJs.DEFAULT_SUBJECT
                 = Some jo_payload) by (vm_compute; reflexivity).
  destruct (encodeURIComponent (MainJs.emailSubject_text MainJs.DEFAULT_SUBJECT))
    as [es|] eqn:Hes; [|vm_compute in Hes; discriminate Hes].
  destruct (encodeURIComponent
              (MainJs.emailBody_text (MainJs.gather padded_page) MainJs.DEFAULT_SUBJECT))
    as [eb|] eqn:Heb; [|vm_compute in Heb; discriminate Heb].
  destruct (submit_accepted padded_page MainJs.DEFAULT_SUBJECT jo_payload es eb) as [Hm _];
    try done.
  { intros f; destruct f; vm_compute; reflexivity. }
  exists (MainJs.MAILTO_PREFIX ++ es ++ lit "&body=" ++ eb), (MainJs.gather padded_page),
    (whatsapp_text (MainJs.gather padded_page) MainJs.DEFAULT_SUBJECT).
  split; [exact Hm|].
  repeat split; vm_compute; reflexivity.
Qed.

(** C9, at the submission of the specification's example.  One second
    after the submit of the original script the page has opened exactly
    one window, the WhatsApp link; the mailto link sits in a hidden
    anchor appended to the body, and nothing follows it. *)
Theorem mailto_link_appended_never_followed :
  let p := MainJs.fire_timer 0 (page_of (MainJs.on_submit jo_page)) in
  window_opened p = [(MainJs.WA_PREFIX ++ jo_payload, lit "_blank")]
  /\ existsb (fun o => starts_with MAILTO_SCHEME o.1) (window_opened p) = false
  /\ (exists mailto,
        body_appended p = [{| href := mailto; anchor_display := DisplayNone |}]
        /\ starts_with MAILTO_SCHEME mailto = true)
  /\ timers p = []
  /\ window_opened (Optimized.fire_timer 0 (page_of (Optimized.on_submit jo_page)))
     = window_opened p
  /\ body_appended (Optimized.fire_timer 0 (page_of (Optimized.on_submit jo_page))) = [].
Proof.
  cbv zeta.
  split; [vm_compute; reflexivity|].
  split; [vm_compute; reflexivity|].
  split.
  { eexists. split; [vm_compute; reflexivity | vm_compute; reflexivity]. }
  repeat split; vm_compute; reflexivity.
Qed.

Lemma validateField_witness :
  MainJs.validateField (text_input (lit "A")) (Some []) "name"
  = shown (Some MainJs.MSG_NAME) (text_input (lit "A")) (Some [])
  /\ MainJs.validateField (text_input (lit "   ")) (Some []) "email"
     = shown (Some MainJs.MSG_REQUIRED) (text_input (lit "   ")) (Some []).
Proof.
  split.
  - destruct (validateField_ordered_rules FName (text_input (lit "A")) (Some []))
      as (v & _ & Huniq & Hmain & _).
    assert (E : Some MainJs.MSG_NAME = v).
    { apply Huniq. apply (verdict_shape FName);
        [vm_compute; discriminate | vm_compute; intros H; by apply H]. }
    rewrite <- E in Hmain. exact Hmain.
  - destruct (validateField_ordered_rules FEmail (text_input (lit "   ")) (Some []))
      as (v & _ & Huniq & Hmain & _).
    assert (E : Some MainJs.MSG_REQUIRED = v).
    { apply Huniq. apply verdict_required. reflexivity. }
    rewrite <- E in Hmain. exact Hmain.
Defined.

Lemma submit_invalid_witness :
  MainJs.on_submit short_name_page = Done (revalidated short_name_page)
  /\ "error" ∈ classList (nameInput (revalidated short_name_page))
  /\ nameError (revalidated short_name_page) = Some MainJs.MSG_NAME
  /\ surroundings (revalidated short_name_page) = surroundings short_name_page.
Proof.
  assert (Hv : verdict FName (value (field_input FName short_name_page))
                 (Some MainJs.MSG_NAME)).
  { apply (verdict_shape FName); [vm_compute; discriminate | vm_compute; intros H; by apply H]. }
  destruct (submit_invalid_aborts short_name_page FName MainJs.MSG_NAME Hv)
    as (Hm & _ & _ & Hc & He & Hs).
  split; [exact Hm|]. split; [exact Hc|]. split; [exact He | exact Hs].
Defined.

Lemma reset_witness :
  let p := MainJs.fire_timer 0 (page_of (MainJs.on_submit jo_page)) in
  value (nameInput (MainJs.resetForm_click p)) = []
  /\ contactForm_display p = DisplayNone
  /\ contactForm_display (MainJs.resetForm_click p) = DisplayBlock
  /\ formSuccess (MainJs.resetForm_click p) = Some DisplayNone.
Proof.
  intros p.
  assert (Hd : no_default_values p).
  { repeat split; try reflexivity. intros ph Hph. vm_compute in Hph. discriminate Hph. }
  destruct (reset_returns_clean_form p) as (_ & _ & _ & _ & _ & Hshow & Hs & _ & Hempty).
  destruct (Hempty Hd) as [Hf _].
  split; [apply (Hf FName)|]. split; [reflexivity|]. split; [exact Hshow | exact Hs].
Defined.

Lemma input_witness :
  let p := revalidated short_name_page in
  let p' := MainJs.handle p (MainJs.Input FName (lit "Al")) in
  "error" ∈ classList (nameInput p)
  /\ classList (nameInput p') = classList (nameInput p) ∖ {[ "error" ]}
  /\ nameError p' = Some MainJs.MSG_NAME
  /\ nameError (foldl MainJs.handle p'
                  [MainJs.Input FName (lit "Ali"); MainJs.Blur FEmail;
                   MainJs.Input FMessage (lit "Hi")])
     = Some MainJs.MSG_NAME.
Proof.
  intros p p'.
  assert (Hq : Forall (quiet FName)
                 [MainJs.Input FName (lit "Ali"); MainJs.Blur FEmail;
                  MainJs.Input FMessage (lit "Hi")]).
  { repeat constructor. discriminate. }
  destruct (input_clears_class_not_text FName (lit "Al") p _ Hq)
    as (_ & Hc & _ & He & _ & _ & Hl & _).
  assert (Herr : "error" ∈ classList (nameInput p)) by (vm_compute; reflexivity).
  assert (Hmsg : nameError p = Some MainJs.MSG_NAME) by (vm_compute; reflexivity).
  split; [exact Herr|]. split; [exact Hc|].
  split; [transitivity (nameError p); [apply (He FName) | exact Hmsg]|].
  transitivity (nameError p); [exact Hl | exact Hmsg].
Defined.

End Form.

(* ===================================================================== *)
(** * The deferred scheduler *)
(* ===================================================================== *)

Section Scheduler.
Import Optimized.

Lemma deferInit_cases (cb : callback) (s : scheduler) :
  (has_requestIdleCallback s = true -> deferInit cb s = requestIdleCallback cb 2000 s)
  /\ (has_requestIdleCallback s = false -> deferInit cb s = setTimeout cb 100 s).
Proof. unfold deferInit. split; intros ->; reflexivity. Qed.

(** The scheduler only ever is in one of four states. *)
Lemma reachable_cases (idle : bool) (s : scheduler) :
  rtc step (start idle) s ->
  s = start idle \/ s = after_outer_frame idle \/ s = bundle_queued idle
  \/ s = bundle_done idle.
Proof.
  revert s. apply rtc_ind_r; [by left|].
  intros y z _ Hstep Hy.
  destruct Hy as [-> | [-> | [-> | ->]]]; inversion Hstep as [s cb rest Hq|s k cb t Hq|s k cb t Hq];
    subst; simpl in Hq; try done.
  - injection Hq as <- <-. right. left. reflexivity.
  - injection Hq as <- <-. right. right. left. by destruct idle.
  - destruct idle; [|done]. destruct k; [|done]. injection Hq as <- <-.
    do 3 right. reflexivity.
  - destruct idle; [done|]. destruct k; [|done]. injection Hq as <- <-.
    do 3 right. reflexivity.
Qed.

Lemma start_to_queued (idle : bool) : rtc step (start idle) (bundle_queued idle).
Proof.
  eapply rtc_l; [by eapply (step_frame (start idle) OuterFrame [])|].
  eapply rtc_l; [by eapply (step_frame _ InnerFrame [])|].
  destruct idle; apply rtc_refl.
Qed.

Lemma queued_to_done (idle : bool) : rtc step (bundle_queued idle) (bundle_done idle).
Proof.
  apply rtc_once. destruct idle.
  - by eapply (step_idle (bundle_queued true) 0 Bundle 2000).
  - by eapply (step_timeout (bundle_queued false) 0 Bundle 100).
Qed.

(** C4. In the deferred scheduler of the optimized script the inner
    animation frame first builds the carousel and then hands the bundle
    of seven initializers to [deferInit].  The bundle goes to
    [requestIdleCallback] with a timeout of 2000 when that function
    exists, and to [setTimeout] with a delay of 100 when it does not, and
    nothing else is ever queued there.  At every moment of every run: a
    queued bundle finds the carousel initializer already called, an
    initializer of the bundle is only called after it, and the run can
    always be completed. *)
Theorem bundle_deferred_after_carousel (idle : bool) (s : scheduler) :
  rtc step (start idle) s ->
  (forall s0, run InnerFrame s0
              = (if has_requestIdleCallback s0 then requestIdleCallback Bundle 2000
                 else setTimeout Bundle 100) (call initHeroSwiperDeferred s0))
  /\ (forall cb t, (cb, t) ∈ idle_requests s -> idle = true /\ cb = Bundle /\ t = 2000)
  /\ (forall cb t, (cb, t) ∈ timeouts s -> idle = false /\ cb = Bundle /\ t = 100)
  /\ (forall cb t, (cb, t) ∈ idle_requests s ++ timeouts s ->
        called s = [initHeroSwiperDeferred])
  /\ (forall i, i ∈ bundle -> i ∈ called s -> called s = initHeroSwiperDeferred :: bundle)
  /\ rtc step s (bundle_done idle).
Proof.
  intros Hr. split; [intros s0; unfold run, deferInit; simpl; by destruct (has_requestIdleCallback s0)|].
  assert (Hnil : forall (A : Type) (x : A) (P : Prop), x ∈ @nil A -> P).
  { intros A x P Hin. by apply elem_of_nil in Hin. }
  destruct (reachable_cases idle s Hr) as [-> | [-> | [-> | ->]]]; simpl.
  - split; [intros cb t; apply Hnil|]. split; [intros cb t; apply Hnil|].
    split; [intros cb t; apply Hnil|]. split; [intros i _; apply Hnil|].
    etrans; [apply start_to_queued | apply queued_to_done].
  - split; [intros cb t; apply Hnil|]. split; [intros cb t; apply Hnil|].
    split; [intros cb t; apply Hnil|]. split; [intros i _; apply Hnil|].
    eapply rtc_l; [by eapply (step_frame _ InnerFrame [])|].
    replace (run InnerFrame _) with (bundle_queued idle) by (by destruct idle).
    apply queued_to_done.
  - assert (Hb : forall i, i ∈ bundle -> i ∈ [initHeroSwiperDeferred] ->
                  [initHeroSwiperDeferred] = initHeroSwiperDeferred :: bundle).
    { intros i Hb Hc. apply list_elem_of_singleton in Hc. subst i.
      repeat (apply elem_of_cons in Hb as [Hb|Hb]; [discriminate Hb|]).
      by apply elem_of_nil in Hb. }
    destruct idle; simpl.
    + split; [intros cb t Hin; apply list_elem_of_singleton in Hin; by injection Hin as -> ->|].
      split; [intros cb t; apply Hnil|].
      split; [done|]. split; [exact Hb | apply (queued_to_done true)].
    + split; [intros cb t; apply Hnil|].
      split; [intros cb t Hin; apply list_elem_of_singleton in Hin; by injection Hin as -> ->|].
      split; [done|]. split; [exact Hb | apply (queued_to_done false)].
  - split; [intros cb t; apply Hnil|]. split; [intros cb t; apply Hnil|].
    split; [intros cb t; apply Hnil|]. split; [done | apply rtc_refl].
Qed.

Lemma bundle_deferred_witness :
  (forall cb t, (cb, t) ∈ idle_requests (bundle_queued true) -> cb = Bundle /\ t = 2000)
  /\ (forall cb t, (cb, t) ∈ timeouts (bundle_queued false) -> cb = Bundle /\ t = 100)
  /\ called (bundle_queued true) = [initHeroSwiperDeferred]
  /\ rtc step (bundle_queued true) (bundle_done true).
Proof.
  destruct (bundle_deferred_after_carousel true (bundle_queued true) (start_to_queued true))
    as (_ & Hi & _ & Hc & _ & Hd).
  destruct (bundle_deferred_after_carousel false (bundle_queued false) (start_to_queued false))
    as (_ & _ & Ht & _).
  split; [intros cb t H; by destruct (Hi cb t H) as (_ & ? & ?)|].
  split; [intros cb t H; by destruct (Ht cb t H) as (_ & ? & ?)|].
  split; [|exact Hd].
  apply (Hc Bundle 2000). simpl. by apply list_elem_of_singleton.
Defined.

End Scheduler.

(* ===================================================================== *)
(** * Scroll animations *)
(* ===================================================================== *)

Section Animations.
Import MainJs.

Lemma on_entry_elements (a : animations) (en : entry) :
  animatedElements (on_entry a en) = animatedElements a.
Proof. unfold on_entry. by destruct (isIntersecting en). Qed.

Lemma on_entry_observed (a : animations) (en : entry) :
  observed (on_entry a en) ⊆ observed a.
Proof. unfold on_entry. destruct (isIntersecting en); simpl; set_solver. Qed.

Lemma callback_elements (es : list entry) (a : animations) :
  animatedElements (observer_callback es a) = animatedElements a.
Proof.
  unfold observer_callback. revert a.
  induction es as [|en es IH]; intros a; simpl; [done|].
  by rewrite IH, on_entry_elements.
Qed.

Lemma callback_observed (es : list entry) (a : animations) :
  observed (observer_callback es a) ⊆ observed a.
Proof.
  unfold observer_callback. revert a.
  induction es as [|en es IH]; intros a; simpl; [done|].
  etrans; [apply IH | apply on_entry_observed].
Qed.

(** The callback stops observing what it reveals. *)
Lemma callback_unobserves (es : list entry) (a : animations) (el : nat) :
  {| target := el; isIntersecting := true |} ∈ es ->
  el ∉ observed (observer_callback es a).
Proof.
  unfold observer_callback. revert a.
  induction es as [|en es IH]; intros a Hin; simpl.
  - by apply elem_of_nil in Hin.
  - apply elem_of_cons in Hin as [<-|Hin]; [|by apply IH].
    intros Hel. apply (callback_observed es) in Hel.
    unfold on_entry in Hel. simpl in Hel. set_solver.
Qed.

Lemma pending_reveals_app (el : nat) (ts1 ts2 : list (Z * nat)) :
  pending_reveals el (ts1 ++ ts2)
  = (pending_reveals el ts1 + pending_reveals el ts2)%nat.
Proof.
  induction ts1 as [|[d t] ts1 IH]; simpl; [done|]. rewrite IH. lia.
Qed.

Lemma pending_reveals_delete (el : nat) (k : nat) (ts : list (Z * nat)) :
  (pending_reveals el (delete k ts) <= pending_reveals el ts)%nat.
Proof.
  revert k. induction ts as [|[d t] ts IH]; intros k; simpl; [done|].
  destruct k; simpl; [lia|]. specialize (IH k). lia.
Qed.

Lemma on_entry_pending (a : animations) (en : entry) (el : nat) :
  pending_reveals el (reveal_timers (on_entry a en))
  = (pending_reveals el (reveal_timers a)
     + if isIntersecting en && Nat.eqb (target en) el then 1 else 0)%nat.
Proof.
  unfold on_entry. destruct (isIntersecting en); simpl; [|lia].
  rewrite pending_reveals_app. simpl. lia.
Qed.

Lemma callback_pending_le (es : list entry) (a : animations) (el : nat) :
  (pending_reveals el (reveal_timers a)
   <= pending_reveals el (reveal_timers (observer_callback es a)))%nat.
Proof.
  unfold observer_callback. revert a.
  induction es as [|en es IH]; intros a; simpl; [done|].
  etrans; [|apply IH]. rewrite on_entry_pending. lia.
Qed.

(** The callback sets a timer for what it reveals. *)
Lemma callback_schedules (es : list entry) (a : animations) (el : nat) :
  {| target := el; isIntersecting := true |} ∈ es ->
  (pending_reveals el (reveal_timers a)
   < pending_reveals el (reveal_timers (observer_callback es a)))%nat.
Proof.
  unfold observer_callback. revert a.
  induction es as [|en es IH]; intros a Hin; simpl.
  - by apply elem_of_nil in Hin.
  - apply elem_of_cons in Hin as [<-|Hin].
    + eapply Nat.lt_le_trans; [|apply callback_pending_le].
      rewrite on_entry_pending. simpl. rewrite Nat.eqb_refl. lia.
    + eapply Nat.le_lt_trans; [|by apply IH]. rewrite on_entry_pending. lia.
Qed.

Lemma callback_pending_same (es : list entry) (a : animations) (el : nat) :
  Forall (fun en => target en ≠ el) es ->
  pending_reveals el (reveal_timers (observer_callback es a))
  = pending_reveals el (reveal_timers a).
Proof.
  unfold observer_callback. intros H. revert a.
  induction H as [|en es Hen _ IH]; intros a; simpl; [done|].
  rewrite IH, on_entry_pending.
  apply Nat.eqb_neq in Hen. rewrite Hen, andb_false_r. lia.
Qed.

(** With the reduced-motion preference every candidate is revealed at
    once and nothing is observed. *)
Lemma reduced_motion_reveals_all (els : list animated_el) (el : nat) :
  (el < length els)%nat ->
  is_revealed (initScrollAnimations true els) el = true
  /\ observed (initScrollAnimations true els) = ∅
  /\ reveal_timers (initScrollAnimations true els) = [].
Proof.
  intros Hel. unfold initScrollAnimations.
  destruct (length els =? 0)%nat eqn:E; [apply Nat.eqb_eq in E; lia|].
  split; [|done]. unfold is_revealed. simpl. rewrite list_lookup_fmap.
  destruct (lookup_lt_is_Some_2 els el Hel) as [e ->]. simpl.
  apply bool_decide_eq_true. unfold Dom.class_add. set_solver.
Qed.

(** A revealed element stays revealed. *)
Lemma revealed_stays (w : observer_world) (ev : anim_event) (el : nat) :
  is_revealed (anims w) el = true -> is_revealed (anims (anim_exec w ev)) el = true.
Proof.
  intros H. destruct ev as [x|x| |k]; simpl.
  - unfold crossing. by destruct (bool_decide _).
  - unfold crossing. by destruct (bool_decide _).
  - unfold is_revealed in *. by rewrite callback_elements.
  - destruct (reveal_timers (anims w) !! k) as [[d t]|]; [|done].
    unfold is_revealed in *. simpl.
    destruct (decide (t = el)) as [->|Hne].
    + rewrite list_lookup_alter_eq.
      destruct (animatedElements (anims w) !! el) as [e|]; [|done]. simpl.
      apply bool_decide_eq_true. apply bool_decide_eq_true in H.
      unfold Dom.class_add. set_solver.
    + by rewrite list_lookup_alter_ne.
Qed.

Lemma revealed_stays_run (evs : list anim_event) (w : observer_world) (el : nat) :
  is_revealed (anims w) el = true -> is_revealed (anims (anim_run w evs)) el = true.
Proof.
  unfold anim_run. revert w.
  induction evs as [|ev evs IH]; intros w H; simpl; [done|].
  by apply IH, revealed_stays.
Qed.

(** The transitions of a run, counted: one if the element was not
    revealed at the start and is at the end, none otherwise. *)
Lemma reveal_transitions_count (el : nat) (evs : list anim_event) (w : observer_world) :
  reveal_transitions el w evs
  = if negb (is_revealed (anims w) el) && is_revealed (anims (anim_run w evs)) el
    then 1%nat else 0%nat.
Proof.
  revert w. induction evs as [|ev evs IH]; intros w; simpl.
  - by destruct (is_revealed (anims w) el).
  - rewrite IH. fold (anim_run (anim_exec w ev) evs).
    destruct (is_revealed (anims w) el) eqn:E0.
    + by rewrite (revealed_stays w ev el E0).
    + destruct (is_revealed (anims (anim_exec w ev)) el) eqn:E1; simpl; [|done].
      by rewrite (revealed_stays_run evs _ el E1).
Qed.

Lemma gone_exec (el : nat) (w : observer_world) (ev : anim_event) :
  gone el w ->
  gone el (anim_exec w ev)
  /\ (pending_reveals el (reveal_timers (anims (anim_exec w ev)))
      <= pending_reveals el (reveal_timers (anims w)))%nat.
Proof.
  intros [Ho Hq]. destruct ev as [x|x| |k]; simpl.
  - unfold crossing. destruct (bool_decide _) eqn:E; [|done].
    apply bool_decide_eq_true in E. split; [|done]. split; [done|]. simpl.
    apply Forall_app. split; [done|]. constructor; [|done]. simpl. congruence.
  - unfold crossing. destruct (bool_decide _) eqn:E; [|done].
    apply bool_decide_eq_true in E. split; [|done]. split; [done|]. simpl.
    apply Forall_app. split; [done|]. constructor; [|done]. simpl. congruence.
  - split.
    + split; simpl; [intros H; by apply callback_observed in H | constructor].
    + simpl. by rewrite callback_pending_same.
  - destruct (reveal_timers (anims w) !! k) as [[d t]|]; [|done]. simpl.
    split; [done | apply pending_reveals_delete].
Qed.

Lemma gone_run (el : nat) (evs : list anim_event) (w : observer_world) :
  gone el w ->
  gone el (anim_run w evs)
  /\ (pending_reveals el (reveal_timers (anims (anim_run w evs)))
      <= pending_reveals el (reveal_timers (anims w)))%nat.
Proof.
  unfold anim_run. revert w.
  induction evs as [|ev evs IH]; intros w H; simpl; [done|].
  destruct (gone_exec el w ev H) as [H1 Hle1].
  destruct (IH _ H1) as [H2 Hle2]. split; [done | lia].
Qed.

Lemma in_range_start (els : list animated_el) : in_range (length els) (observing els).
Proof.
  unfold observing, initScrollAnimations.
  destruct (length els =? 0)%nat eqn:E; simpl.
  - apply Nat.eqb_eq in E. destruct els; [|discriminate E].
    split; [done|]. split; [|by split].
    intros x Hx. by apply not_elem_of_empty in Hx.
  - split; [apply length_imap|]. split; [|by split].
    intros x Hx. apply elem_of_list_to_set, elem_of_seq in Hx. lia.
Qed.

Lemma in_range_callback (n : nat) (es : list entry) (a : animations) :
  Forall (fun en => (target en < n)%nat) es ->
  Forall (fun t => (t.2 < n)%nat) (reveal_timers a) ->
  Forall (fun t => (t.2 < n)%nat) (reveal_timers (observer_callback es a)).
Proof.
  unfold observer_callback. intros H. revert a.
  induction H as [|en es Hen _ IH]; intros a Ha; simpl; [done|].
  apply IH. unfold on_entry. destruct (isIntersecting en); [|done]. simpl.
  apply Forall_app. split; [done|]. by constructor.
Qed.

Lemma Forall_delete_at {A : Type} (P : A -> Prop) (k : nat) (l : list A) :
  Forall P l -> Forall P (delete k l).
Proof.
  intros H. revert k. induction H as [|x l Hx Hl IH]; intros k; [by destruct k|].
  destruct k; simpl; [done | by constructor].
Qed.

Lemma in_range_exec (n : nat) (w : observer_world) (ev : anim_event) :
  in_range n w -> in_range n (anim_exec w ev).
Proof.
  intros (Hl & Ho & Hq & Ht). destruct ev as [x|x| |k]; simpl.
  - unfold crossing. destruct (bool_decide _) eqn:E; [|done].
    apply bool_decide_eq_true in E. repeat split; try done. simpl.
    apply Forall_app. split; [done|]. constructor; [|done]. by apply Ho.
  - unfold crossing. destruct (bool_decide _) eqn:E; [|done].
    apply bool_decide_eq_true in E. repeat split; try done. simpl.
    apply Forall_app. split; [done|]. constructor; [|done]. by apply Ho.
  - repeat split; simpl.
    + by rewrite callback_elements.
    + intros x Hx. apply Ho. by apply callback_observed in Hx.
    + constructor.
    + by apply in_range_callback.
  - destruct (reveal_timers (anims w) !! k) as [[d t]|] eqn:E; [|done].
    repeat split; simpl; try done.
    + by rewrite length_alter.
    + by apply Forall_delete_at.
Qed.

Lemma in_range_run (n : nat) (evs : list anim_event) (w : observer_world) :
  in_range n w -> in_range n (anim_run w evs).
Proof.
  unfold anim_run. revert w.
  induction evs as [|ev evs IH]; intros w H; simpl; [done|].
  by apply IH, in_range_exec.
Qed.

(** A timer that fires reveals its element. *)
Lemma fire_reveals (n : nat) (w : observer_world) (k : nat) (d : Z) (el : nat) :
  in_range n w ->
  reveal_timers (anims w) !! k = Some (d, el) ->
  is_revealed (anims (anim_exec w (Fire k))) el = true.
Proof.
  intros (Hl & _ & _ & Ht) Hk. simpl. rewrite Hk. unfold is_revealed. simpl.
  rewrite list_lookup_alter_eq.
  assert (Hel : (el < n)%nat).
  { rewrite Forall_forall in Ht. apply (Ht (d, el)).
    eapply list_elem_of_lookup_2, Hk. }
  destruct (lookup_lt_is_Some_2 (animatedElements (anims w)) el) as [e He]; [lia|].
  rewrite He. simpl. apply bool_decide_eq_true. unfold Dom.class_add. set_solver.
Qed.

(** An entry that does not report the element as sufficiently in view
    sets no timer for it and leaves it observed. *)
Lemma on_entry_quiet (a : animations) (en : entry) (el : nat) :
  ~ (target en = el /\ isIntersecting en = true) ->
  pending_reveals el (reveal_timers (on_entry a en))
  = pending_reveals el (reveal_timers a)
  /\ (el ∈ observed a -> el ∈ observed (on_entry a en)).
Proof.
  intros Hno. split.
  - rewrite on_entry_pending.
    destruct (isIntersecting en) eqn:Ei; simpl; [|lia].
    destruct (Nat.eqb_spec (target en) el) as [He|He]; [|lia].
    destruct Hno. by split.
  - intros Hel. unfold on_entry.
    destruct (isIntersecting en) eqn:Ei; [|done]. simpl.
    apply elem_of_difference. split; [done|].
    rewrite elem_of_singleton. intros ->. by apply Hno.
Qed.

Lemma callback_quiet (es : list entry) (a : animations) (el : nat) :
  Forall (fun en => ~ (target en = el /\ isIntersecting en = true)) es ->
  pending_reveals el (reveal_timers (observer_callback es a))
  = pending_reveals el (reveal_timers a)
  /\ (el ∈ observed a -> el ∈ observed (observer_callback es a)).
Proof.
  unfold observer_callback. intros H. revert a.
  induction H as [|en es Hen _ IH]; intros a; simpl; [done|].
  destruct (on_entry_quiet a en el Hen) as [Hp Ho].
  destruct (IH (on_entry a en)) as [Hp' Ho'].
  split; [by rewrite Hp', Hp | intros Hel; by apply Ho', Ho].
Qed.

Lemma pending_none_lookup (el : nat) (ts : list (Z * nat)) (k : nat) (d : Z) (t : nat) :
  pending_reveals el ts = 0%nat -> ts !! k = Some (d, t) -> t <> el.
Proof.
  revert k. induction ts as [|[d' t'] ts IH]; intros k Hp Hk; [done|].
  simpl in Hp. destruct k as [|k]; simpl in Hk.
  - injection Hk as -> ->. intros ->. rewrite Nat.eqb_refl in Hp. lia.
  - apply (IH k); [lia | done].
Qed.

(** As long as the element has not come into view, nothing happens to
    it: no timer is set for it, no entry reports it in view, it is
    neither more nor less revealed than before, and it stays observed. *)
Lemma not_entered_exec (el : nat) (w : observer_world) (ev : anim_event) :
  ev <> Enter el ->
  pending_reveals el (reveal_timers (anims w)) = 0%nat ->
  Forall (fun en => ~ (target en = el /\ isIntersecting en = true)) (queued w) ->
  pending_reveals el (reveal_timers (anims (anim_exec w ev))) = 0%nat
  /\ Forall (fun en => ~ (target en = el /\ isIntersecting en = true))
            (queued (anim_exec w ev))
  /\ is_revealed (anims (anim_exec w ev)) el = is_revealed (anims w) el
  /\ (el ∈ observed (anims w) -> el ∈ observed (anims (anim_exec w ev))).
Proof.
  intros Hev Hp Hq. destruct ev as [x|x| |k]; simpl.
  - unfold crossing. destruct (bool_decide _); [|done]. simpl.
    split; [done|]. split; [|done].
    apply Forall_app. split; [done|]. constructor; [|done]. simpl.
    intros [-> _]. by apply Hev.
  - unfold crossing. destruct (bool_decide _); [|done]. simpl.
    split; [done|]. split; [|done].
    apply Forall_app. split; [done|]. constructor; [|done]. simpl.
    by intros [_ ?].
  - destruct (callback_quiet (queued w) (anims w) el Hq) as [Hp' Ho'].
    split; [by rewrite Hp'|]. split; [constructor|].
    split; [|done]. unfold is_revealed. by rewrite callback_elements.
  - destruct (reveal_timers (anims w) !! k) as [[d t]|] eqn:Ek; [|done]. simpl.
    split.
    { pose proof (pending_reveals_delete el k (reveal_timers (anims w))). lia. }
    split; [done|]. split; [|done].
    unfold is_revealed. simpl.
    rewrite list_lookup_alter_ne; [done|]. by eapply pending_none_lookup.
Qed.

Lemma not_entered_run (el : nat) (evs : list anim_event) (w : observer_world) :
  Enter el ∉ evs ->
  pending_reveals el (reveal_timers (anims w)) = 0%nat ->
  Forall (fun en => ~ (target en = el /\ isIntersecting en = true)) (queued w) ->
  pending_reveals el (reveal_timers (anims (anim_run w evs))) = 0%nat
  /\ Forall (fun en => ~ (target en = el /\ isIntersecting en = true))
            (queued (anim_run w evs))
  /\ is_revealed (anims (anim_run w evs)) el = is_revealed (anims w) el
  /\ (el ∈ observed (anims w) -> el ∈ observed (anims (anim_run w evs))).
Proof.
  unfold anim_run. revert w.
  induction evs as [|ev evs IH]; intros w Hno Hp Hq; simpl; [done|].
  apply not_elem_of_cons in Hno as [Hev Hno].
  destruct (not_entered_exec el w ev) as (Hp1 & Hq1 & Hr1 & Ho1); [done..|].
  destruct (IH (anim_exec w ev) Hno Hp1 Hq1) as (Hp2 & Hq2 & Hr2 & Ho2).
  split; [done|]. split; [done|]. split; [by rewrite Hr2 | intros Hel; by apply Ho2, Ho1].
Qed.

Lemma observing_all (els : list animated_el) (el : nat) :
  (el < length els)%nat -> el ∈ observed (anims (observing els)).
Proof.
  intros Hel. unfold observing, initScrollAnimations. simpl.
  destruct (length els =? 0)%nat eqn:E; [apply Nat.eqb_eq in E; lia|]. simpl.
  apply elem_of_list_to_set, elem_of_seq. lia.
Qed.

Lemma observing_no_timers (els : list animated_el) :
  reveal_timers (anims (observing els)) = [] /\ queued (observing els) = [].
Proof.
  unfold observing, initScrollAnimations. simpl.
  by destruct (length els =? 0)%nat, false.
Qed.



End Animations.

(* ===================================================================== *)
(** * The examples of the specification *)
(* ===================================================================== *)

Section Examples.
Import Dom.

Example encode_jo : encodeURIComponent (lit "Jo Smith") = Some (lit "Jo%20Smith").
Proof. reflexivity. Qed.

Example encode_dash : encodeURIComponent [MainJs.EN_DASH] = Some (lit "%E2%80%93").
Proof. reflexivity. Qed.

Example encode_astral : encodeURIComponent [55357; 56832] = Some (lit "%F0%9F%98%80").
Proof. reflexivity. Qed.

Example encode_lone_surrogate : encodeURIComponent [74; 55357; 111] = None.
Proof. reflexivity. Qed.

Example decode_astral :
  decodeURIComponent (lit "a%F0%9F%98%80%0A") = Some [97; 55357; 56832; 10].
Proof. reflexivity. Qed.

Example decode_overlong_rejected : decodeURIComponent (lit "%C0%80") = None.
Proof. reflexivity. Qed.

Example trim_padded : trim (lit "  Jo Smith  ") = lit "Jo Smith".
Proof. reflexivity. Qed.

Example email_accepted : MainJs.isValidEmail (lit "jo@example.com") = true.
Proof. reflexivity. Qed.

Example email_without_tld : MainJs.isValidEmail (lit "jo@example") = false.
Proof. reflexivity. Qed.

Example email_two_ats : MainJs.isValidEmail (lit "jo@@example.com") = false.
Proof. reflexivity. Qed.

(** Empty name: "This field is required." *)
Example empty_name_required :
  MainJs.validateField (text_input []) (Some []) "name"
  = shown (Some MainJs.MSG_REQUIRED) (text_input []) (Some []).
Proof. vm_compute. reflexivity. Qed.

(** The example submission produces the payload spelled out above. *)
Example jo_payload_built :
  MainJs.whatsappMessage (MainJs.gather jo_page) MainJs.DEFAULT_SUBJECT = Some jo_payload.
Proof. vm_compute. reflexivity. Qed.

(** With no option selected the label lookup raises, after the button has
    been disabled. *)
Example no_selection_raises :
  let p := sample_page (lit "Jo Smith") (lit "jo@example.com")
             (lit "Hello, I would like to order.") None
             (Some {| options := []; selectedIndex := -1; defaultIndex := -1 |}) in
  exists p', MainJs.on_submit p = Thrown TypeError p'
             /\ (disabled <$> submitBtn p') = Some true.
Proof. eexists. split; vm_compute; reflexivity. Qed.

(** A lone surrogate in the name makes [encodeURIComponent] raise, with
    the button left disabled and no timer set. *)
Example lone_surrogate_raises :
  let p := sample_page [74; 55357; 111] (lit "jo@example.com")
             (lit "Hello, I would like to order.") None None in
  (forall f, (validated f p).2 = true)
  /\ exists p', MainJs.on_submit p = Thrown URIError p'
                /\ (disabled <$> submitBtn p') = Some true /\ timers p' = [].
Proof.
  split; [intros f; destruct f; vm_compute; reflexivity|].
  eexists. split; [vm_compute; reflexivity|]. split; vm_compute; reflexivity.
Qed.

End Examples.

(* ===================================================================== *)
(** * The contact form: links, exceptions and the life of a submission *)
(* ===================================================================== *)

Section FormLinks.
Import Dom.

Lemma jscount_app (c : Z) (a b : jsstring) :
  jscount c (a ++ b) = (jscount c a + jscount c b)%nat.
Proof. induction a as [|x a IH]; simpl; [done|]. rewrite IH. lia. Qed.

Lemma jscount_escaped (c : Z) (e : jsstring) :
  Forall escaped_char e -> ~ escaped_char c -> jscount c e = 0%nat.
Proof.
  induction 1 as [|x e Hx _ IH]; intros Hc; simpl; [done|].
  rewrite IH by done. destruct (Z.eqb_spec x c) as [->|_]; [done | lia].
Qed.

Lemma hexdigit_unreserved n : 0 <= n < 16 -> unreserved (hexdigit n) = true.
Proof.
  intros Hn. unfold unreserved, is_alpha, is_digit, is_mark, hexdigit.
  destruct (n <? 10) eqn:E; lia.
Qed.

Lemma pct_escaped b : 0 <= b < 256 -> Forall escaped_char (pct b).
Proof.
  intros Hb. unfold pct.
  apply Forall_cons. split; [by right|].
  apply Forall_cons. split; [left; apply hexdigit_unreserved; zdiv|].
  apply Forall_cons. split; [left; apply hexdigit_unreserved; zdiv | constructor].
Qed.

Lemma utf8_octets cp : scalar cp -> Forall (fun b => 0 <= b < 256) (utf8 cp).
Proof.
  intros [Hr Hs]. unfold utf8.
  destruct (cp <? 128) eqn:E1; [|destruct (cp <? 2048) eqn:E2; [|destruct (cp <? 65536) eqn:E3]];
    repeat (apply Forall_cons; split; [zdiv|]); constructor.
Qed.

Lemma pct_all_escaped cp : scalar cp -> Forall escaped_char (pct_all (utf8 cp)).
Proof.
  intros Hcp. unfold pct_all. apply utf8_octets in Hcp.
  induction Hcp as [|b bs Hb _ IH]; cbn [map concat]; [constructor|].
  apply Forall_app. split; [by apply pct_escaped | exact IH].
Qed.

(** What [encodeURIComponent] returns is made of unreserved characters
    and percent signs. *)
Lemma encode_escaped_bounded (n : nat) :
  forall s e, (length s <= n)%nat -> well_formed s = true ->
              encodeURIComponent s = Some e -> Forall escaped_char e.
Proof.
  induction n as [|n IH]; intros s e Hlen Hwf Henc.
  - destruct s; [|simpl in Hlen; lia]. injection Henc as <-. constructor.
  - destruct s as [|c s]; [injection Henc as <-; constructor|].
    simpl in Hlen, Hwf, Henc.
    destruct (unreserved c) eqn:Eu.
    + destruct (unreserved_ascii _ Eu) as [_ Hc].
      replace (is_lead c) with false in Hwf by (unfold is_lead; lia).
      apply andb_prop in Hwf as [_ Hs].
      destruct (encodeURIComponent s) as [e'|] eqn:Ee; [|done].
      simpl in Henc. injection Henc as <-.
      constructor; [by left | apply (IH s e'); [lia|done|done]].
    + destruct (is_lead c) eqn:El.
      * destruct s as [|d s]; [done|].
        destruct (is_trail d) eqn:Et; [|done]. simpl in Hwf, Hlen.
        destruct (encodeURIComponent s) as [e'|] eqn:Ee; [|done].
        simpl in Henc. injection Henc as <-.
        apply Forall_app. split.
        -- apply pct_all_escaped. by apply utf16_pair.
        -- apply (IH s e'); [lia|done|done].
      * apply andb_prop in Hwf as [Hwf Hs]. apply andb_prop in Hwf as [Hc Ht].
        apply negb_true_iff in Ht. rewrite Ht in Henc.
        destruct (encodeURIComponent s) as [e'|] eqn:Ee; [|done].
        simpl in Henc. injection Henc as <-.
        apply Forall_app. split.
        -- apply pct_all_escaped. apply utf16_bmp; [lia|done|done].
        -- apply (IH s e'); [lia|done|done].
Qed.

Lemma encode_escaped s e :
  well_formed s = true -> encodeURIComponent s = Some e -> Forall escaped_char e.
Proof. by apply (encode_escaped_bounded (length s)). Qed.

(** In range, only well-formed text is escaped without an exception. *)
Lemma encode_some_well_formed_bounded (n : nat) :
  forall s e, (length s <= n)%nat -> code_units s ->
              encodeURIComponent s = Some e -> well_formed s = true.
Proof.
  induction n as [|n IH]; intros s e Hlen Hcu Henc.
  - destruct s; [done | simpl in Hlen; lia].
  - destruct s as [|c s]; [done|].
    apply Forall_cons in Hcu as [Hc Hcu]. unfold code_unit in Hc.
    simpl in Hlen, Henc |- *.
    destruct (unreserved c) eqn:Eu.
    + destruct (unreserved_ascii _ Eu) as [_ Hc'].
      replace (is_lead c) with false by (unfold is_lead; lia).
      destruct (encodeURIComponent s) as [e'|] eqn:Ee; [|done].
      rewrite (IH s e') by (try done; lia).
      unfold is_trail. lia.
    + destruct (is_lead c) eqn:El.
      * destruct s as [|d s]; [done|].
        destruct (is_trail d) eqn:Et; [|done]. simpl in Hlen.
        apply Forall_cons in Hcu as [_ Hcu].
        destruct (encodeURIComponent s) as [e'|] eqn:Ee; [|done].
        by rewrite (IH s e') by (try done; lia).
      * destruct (is_trail c) eqn:Et; [done|].
        destruct (encodeURIComponent s) as [e'|] eqn:Ee; [|done].
        rewrite (IH s e') by (try done; lia). lia.
Qed.

Lemma encode_ill_formed_raises s :
  code_units s -> well_formed s = false -> encodeURIComponent s = None.
Proof.
  intros Hcu Hwf. destruct (encodeURIComponent s) as [e|] eqn:E; [|done].
  rewrite (encode_some_well_formed_bounded (length s) s e) in Hwf; done.
Qed.

Lemma whatsappMessage_parts (fd : form_data) (label payload : jsstring) :
  MainJs.whatsappMessage fd label = Some payload ->
  exists n e ph su m,
    encodeURIComponent (fd_name fd) = Some n
    /\ encodeURIComponent (fd_email fd) = Some e
    /\ encodeURIComponent (fd_phone fd) = Some ph
    /\ encodeURIComponent label = Some su
    /\ encodeURIComponent (fd_message fd) = Some m
    /\ payload = wa_template n e ph su m.
Proof.
  unfold MainJs.whatsappMessage. intros H.
  destruct (encodeURIComponent (fd_name fd)) as [n|]; [|done].
  destruct (encodeURIComponent (fd_email fd)) as [e|]; [|done].
  destruct (encodeURIComponent (fd_phone fd)) as [ph|]; [|done].
  destruct (encodeURIComponent label) as [su|]; [|done].
  destruct (encodeURIComponent (fd_message fd)) as [m|]; [|done].
  simpl in H. injection H as <-. by exists n, e, ph, su, m.
Qed.

(** What an accepted submission computes, in one place. *)
Lemma accepted_submission (p : page) (label : jsstring) :
  (forall f, verdict f (value (field_input f p)) None) ->
  MainJs.subject_label p = Some label ->
  well_formed_entries p label ->
  exists payload es eb,
    MainJs.whatsappMessage (MainJs.gather p) label = Some payload
    /\ encodeURIComponent (MainJs.emailSubject_text label) = Some es
    /\ encodeURIComponent (MainJs.emailBody_text (MainJs.gather p) label) = Some eb
    /\ well_formed (MainJs.emailSubject_text label) = true
    /\ well_formed (MainJs.emailBody_text (MainJs.gather p) label) = true
    /\ MainJs.on_submit p
       = Done (setTimeout (MainSubmitDone (MainJs.WA_PREFIX ++ payload)
                             (MainJs.MAILTO_PREFIX ++ es ++ lit "&body=" ++ eb)
                             (MainJs.gather p))
                          1000 (submitting p))
    /\ Optimized.on_submit p
       = Done (setTimeout (OptSubmitDone (MainJs.WA_PREFIX ++ payload)) 1000 (submitting p)).
Proof.
  intros Hvalid Hlabel Hwf.
  destruct (well_formed_gather p label Hwf) as (Hn & He & Hp & Hm).
  assert (Hl : well_formed label = true) by apply Hwf.
  destruct (whatsappMessage_decodes _ label Hn He Hp Hm Hl) as (payload & Hpay & _).
  assert (Hhead : well_formed MainJs.HEADER = true) by reflexivity.
  assert (Hnl : well_formed MainJs.NL = true) by reflexivity.
  assert (Hws : well_formed (MainJs.emailSubject_text label) = true).
  { unfold MainJs.emailSubject_text. repeat (apply well_formed_app; try done). }
  assert (Hwb : well_formed (MainJs.emailBody_text (MainJs.gather p) label) = true).
  { unfold MainJs.emailBody_text. repeat (apply well_formed_app; try done). }
  destruct (encode_total _ Hws) as [es Hes], (encode_total _ Hwb) as [eb Heb].
  destruct (submit_accepted p label payload es eb
              (fun f => flag_by_valid f p (Hvalid f)) Hlabel Hpay Hes Heb) as [Hmain Hopt].
  by exists payload, es, eb.
Qed.

(** X1. The mailto link of the original script: for an accepted
    submission the hidden anchor appended to the body has the href
    mailto:freshflowfoods@gmail.com?subject=S&body=B, where S
    percent-decodes to "New Enquiry - Freshflow Foods: LABEL" and B to the
    plain-text template, which contains the trimmed name, e-mail and
    message. *)
Theorem mailto_link_decodes (p : page) (label : jsstring) :
  (forall f, verdict f (value (field_input f p)) None) ->
  MainJs.subject_label p = Some label ->
  well_formed_entries p label ->
  exists es eb,
    body_appended (after_success p)
    = body_appended p
      ++ [ {| href := MainJs.MAILTO_PREFIX ++ es ++ lit "&body=" ++ eb;
              anchor_display := DisplayNone |} ]
    /\ decodeURIComponent es = Some (MainJs.HEADER ++ lit ": " ++ label)
    /\ decodeURIComponent eb = Some (MainJs.emailBody_text (MainJs.gather p) label)
    /\ includes (MainJs.emailBody_text (MainJs.gather p) label)
                (trim (value (nameInput p))) = true
    /\ includes (MainJs.emailBody_text (MainJs.gather p) label)
                (trim (value (emailInput p))) = true
    /\ includes (MainJs.emailBody_text (MainJs.gather p) label)
                (trim (value (messageInput p))) = true.
Proof.
  intros Hvalid Hlabel Hwf.
  destruct (accepted_submission p label Hvalid Hlabel Hwf)
    as (payload & es & eb & _ & Hes & Heb & Hws & Hwb & Hmain & _).
  exists es, eb. split.
  { unfold after_success. rewrite Hmain. cbn [page_of].
    change (length (timers p)) with (length (timers (submitting p))).
    rewrite (proj1 (fire_submit_timer _ _)). reflexivity. }
  split; [by apply encode_decode|]. split; [by apply encode_decode|].
  unfold MainJs.emailBody_text.
  split; [do 4 apply includes_app_r; apply includes_prefix|].
  split; [do 7 apply includes_app_r; apply includes_prefix|].
  do 18 apply includes_app_r. apply includes_prefix.
Qed.

Lemma mailto_link_decodes_witness :
  exists es eb,
    body_appended (after_success jo_page)
    = [ {| href := MainJs.MAILTO_PREFIX ++ es ++ lit "&body=" ++ eb;
           anchor_display := DisplayNone |} ]
    /\ decodeURIComponent es = Some (MainJs.HEADER ++ lit ": General Inquiry").
Proof.
  assert (Hvalid : forall f, verdict f (value (field_input f jo_page)) None).
  { intros f. apply valid_by_flag. destruct f; vm_compute; reflexivity. }
  assert (Hwf : well_formed_entries jo_page MainJs.DEFAULT_SUBJECT).
  { repeat split; try (vm_compute; reflexivity). intros ph Hph; discriminate Hph. }
  destruct (mailto_link_decodes jo_page MainJs.DEFAULT_SUBJECT Hvalid eq_refl Hwf)
    as (es & eb & Hbody & Hes & _).
  exists es, eb. split; [exact Hbody | exact Hes].
Defined.

End FormLinks.

Section FormLife.
Import Dom.

Lemma not_escaped_ampersand : ~ escaped_char AMPERSAND.
Proof. intros [H|H]; [vm_compute in H | ]; discriminate H. Qed.

Lemma not_escaped_hash : ~ escaped_char HASH.
Proof. intros [H|H]; [vm_compute in H | ]; discriminate H. Qed.

(** X2. What the visitor types cannot leave its place in the links: for
    an accepted submission, the text parameter of the WhatsApp link holds
    no ampersand and no hash sign, and the query of the mailto link holds
    exactly one ampersand, the one in front of "body=", and no hash
    sign. *)
Theorem links_confine_typed_text (p : page) (label : jsstring) :
  (forall f, verdict f (value (field_input f p)) None) ->
  MainJs.subject_label p = Some label ->
  well_formed_entries p label ->
  exists payload es eb,
    MainJs.on_submit p
    = Done (setTimeout (MainSubmitDone (MainJs.WA_PREFIX ++ payload)
                          (MainJs.MAILTO_PREFIX ++ es ++ lit "&body=" ++ eb)
                          (MainJs.gather p))
                       1000 (submitting p))
    /\ jscount AMPERSAND payload = 0%nat
    /\ jscount HASH payload = 0%nat
    /\ jscount AMPERSAND es = 0%nat
    /\ jscount AMPERSAND eb = 0%nat
    /\ jscount AMPERSAND (es ++ lit "&body=" ++ eb) = 1%nat
    /\ jscount HASH (es ++ lit "&body=" ++ eb) = 0%nat.
Proof.
  intros Hvalid Hlabel Hwf.
  destruct (accepted_submission p label Hvalid Hlabel Hwf)
    as (payload & es & eb & Hpay & Hes & Heb & Hws & Hwb & Hmain & _).
  destruct (well_formed_gather p label Hwf) as (Hn & He & Hp & Hm).
  assert (Hl : well_formed label = true) by apply Hwf.
  destruct (whatsappMessage_parts _ _ _ Hpay)
    as (n & e & ph & su & m & En & Ee & Eph & Esu & Em & ->).
  pose proof (encode_escaped _ _ Hn En) as An.
  pose proof (encode_escaped _ _ He Ee) as Ae.
  pose proof (encode_escaped _ _ Hp Eph) as Aph.
  pose proof (encode_escaped _ _ Hl Esu) as Asu.
  pose proof (encode_escaped _ _ Hm Em) as Am.
  pose proof (encode_escaped _ _ Hws Hes) as Aes.
  pose proof (encode_escaped _ _ Hwb Heb) as Aeb.
  exists (wa_template n e ph su m), es, eb.
  assert (Za : forall x, Forall escaped_char x -> jscount AMPERSAND x = 0%nat).
  { intros x Hx. apply jscount_escaped; [exact Hx | apply not_escaped_ampersand]. }
  assert (Zh : forall x, Forall escaped_char x -> jscount HASH x = 0%nat).
  { intros x Hx. apply jscount_escaped; [exact Hx | apply not_escaped_hash]. }
  split; [exact Hmain|].
  split.
  { unfold wa_template. rewrite !jscount_app.
    rewrite (Za n An), (Za e Ae), (Za ph Aph), (Za su Asu), (Za m Am). reflexivity. }
  split.
  { unfold wa_template. rewrite !jscount_app.
    rewrite (Zh n An), (Zh e Ae), (Zh ph Aph), (Zh su Asu), (Zh m Am). reflexivity. }
  split; [by apply Za|]. split; [by apply Za|].
  split.
  - rewrite !jscount_app, (Za es Aes), (Za eb Aeb). reflexivity.
  - rewrite !jscount_app, (Zh es Aes), (Zh eb Aeb). reflexivity.
Qed.

Lemma links_confine_witness :
  let p := sample_page (lit "Jo & Co #1") (lit "jo@example.com")
             (lit "Hello&cc=boss@example.com") None None in
  exists payload es eb,
    MainJs.on_submit p
    = Done (setTimeout (MainSubmitDone (MainJs.WA_PREFIX ++ payload)
                          (MainJs.MAILTO_PREFIX ++ es ++ lit "&body=" ++ eb)
                          (MainJs.gather p))
                       1000 (submitting p))
    /\ jscount AMPERSAND payload = 0%nat
    /\ jscount AMPERSAND (es ++ lit "&body=" ++ eb) = 1%nat.
Proof.
  intros p.
  assert (Hvalid : forall f, verdict f (value (field_input f p)) None).
  { intros f. apply valid_by_flag. destruct f; vm_compute; reflexivity. }
  assert (Hwf : well_formed_entries p MainJs.DEFAULT_SUBJECT).
  { repeat split; try (vm_compute; reflexivity). intros ph Hph; discriminate Hph. }
  destruct (links_confine_typed_text p MainJs.DEFAULT_SUBJECT Hvalid eq_refl Hwf)
    as (payload & es & eb & Hs & Ha & _ & _ & _ & Hm & _).
  exists payload, es, eb. split; [exact Hs|]. split; [exact Ha | exact Hm].
Defined.

(** X3. A subject control with no selected option: the three fields are
    valid, the button is put in its busy state, and then reading the
    label raises a TypeError, in both scripts.  No timer is set, so
    nothing opens and nothing ever gives the button back. *)
Theorem submit_without_selection_raises (p : page) (sel : select_el) :
  (forall f, verdict f (value (field_input f p)) None) ->
  subjectSelect p = Some sel ->
  option_at sel (selectedIndex sel) = None ->
  MainJs.on_submit p = Thrown TypeError (submitting p)
  /\ Optimized.on_submit p = Thrown TypeError (submitting p)
  /\ submitBtn (submitting p) = (MainJs.btn_busy <$> submitBtn p)
  /\ (disabled <$> submitBtn (submitting p)) = ((fun _ => true) <$> submitBtn p)
  /\ timers (submitting p) = timers p
  /\ window_opened (submitting p) = window_opened p
  /\ contactForm_display (submitting p) = contactForm_display p.
Proof.
  intros Hvalid Hsel Hnone.
  assert (Hl : MainJs.subject_label (submitting p) = None).
  { unfold MainJs.subject_label. cbn [submitting subjectSelect with_submitBtn revalidated
      with_message with_email with_name]. by rewrite Hsel, Hnone. }
  split.
  { rewrite on_submit_unfold.
    rewrite !(flag_by_valid _ p (Hvalid _)). cbn [andb]. by rewrite Hl. }
  split.
  { rewrite on_submit_opt_unfold.
    rewrite !(flag_by_valid _ p (Hvalid _)). cbn [andb]. by rewrite Hl. }
  split; [done|]. split; [|done].
  cbn [submitting submitBtn with_submitBtn]. by destruct (submitBtn p).
Qed.

Lemma submit_without_selection_witness :
  MainJs.on_submit unselected_page = Thrown TypeError (submitting unselected_page)
  /\ (disabled <$> submitBtn (submitting unselected_page)) = Some true
  /\ timers (submitting unselected_page) = [].
Proof.
  assert (Hvalid : forall f, verdict f (value (field_input f unselected_page)) None).
  { intros f. apply valid_by_flag. destruct f; vm_compute; reflexivity. }
  destruct (submit_without_selection_raises unselected_page _ Hvalid eq_refl eq_refl)
    as (Hm & _ & _ & Hd & Ht & _).
  split; [exact Hm|]. split; [exact Hd | exact Ht].
Defined.

Lemma whatsappMessage_raises (fd : form_data) (label bad : jsstring) :
  bad ∈ [fd_name fd; fd_email fd; fd_phone fd; label; fd_message fd] ->
  encodeURIComponent bad = None ->
  MainJs.whatsappMessage fd label = None.
Proof.
  intros Hin Hbad. unfold MainJs.whatsappMessage.
  repeat (apply elem_of_cons in Hin as [<-|Hin];
          [rewrite Hbad; repeat (destruct (encodeURIComponent _); simpl; try done)|]).
  by apply elem_of_nil in Hin.
Qed.

(** X4. A lone surrogate in any of the five texts of the message: the
    fields are valid, the button is put in its busy state, and then
    [encodeURIComponent] raises a URIError, in both scripts, with no
    timer set and nothing opened. *)
Theorem submit_lone_surrogate_raises (p : page) (label bad : jsstring) :
  (forall f, verdict f (value (field_input f p)) None) ->
  MainJs.subject_label p = Some label ->
  bad ∈ escaped_texts p label ->
  code_units bad ->
  well_formed bad = false ->
  MainJs.on_submit p = Thrown URIError (submitting p)
  /\ Optimized.on_submit p = Thrown URIError (submitting p)
  /\ (disabled <$> submitBtn (submitting p)) = ((fun _ => true) <$> submitBtn p)
  /\ timers (submitting p) = timers p
  /\ window_opened (submitting p) = window_opened p.
Proof.
  intros Hvalid Hlabel Hin Hcu Hbad.
  assert (Hl : MainJs.subject_label (submitting p) = Some label) by exact Hlabel.
  assert (Hw : MainJs.whatsappMessage (MainJs.gather p) label = None).
  { eapply whatsappMessage_raises; [exact Hin|]. by apply encode_ill_formed_raises. }
  split.
  { rewrite on_submit_unfold.
    rewrite !(flag_by_valid _ p (Hvalid _)). cbn [andb].
    by rewrite gather_submitting, Hl, Hw. }
  split.
  { rewrite on_submit_opt_unfold.
    rewrite !(flag_by_valid _ p (Hvalid _)). cbn [andb].
    by rewrite gather_submitting, Hl, Hw. }
  split; [|done].
  cbn [submitting submitBtn with_submitBtn]. by destruct (submitBtn p).
Qed.

Lemma submit_lone_surrogate_witness :
  MainJs.on_submit surrogate_page = Thrown URIError (submitting surrogate_page)
  /\ Optimized.on_submit surrogate_page = Thrown URIError (submitting surrogate_page)
  /\ timers (submitting surrogate_page) = [].
Proof.
  assert (Hvalid : forall f, verdict f (value (field_input f surrogate_page)) None).
  { intros f. apply valid_by_flag. destruct f; vm_compute; reflexivity. }
  assert (Hin : [74; 55357; 111] ∈ escaped_texts surrogate_page MainJs.DEFAULT_SUBJECT).
  { apply elem_of_cons. left. vm_compute. reflexivity. }
  assert (Hcu : code_units [74; 55357; 111]).
  { repeat (apply Forall_cons; split; [unfold code_unit; lia|]). constructor. }
  destruct (submit_lone_surrogate_raises surrogate_page MainJs.DEFAULT_SUBJECT
              [74; 55357; 111] Hvalid eq_refl Hin Hcu eq_refl)
    as (Hm & Ho & _ & Ht & _).
  split; [exact Hm|]. split; [exact Ho | exact Ht].
Defined.

End FormLife.

Section FormStages.
Import Dom.

Lemma submitting_reads (p : page) :
  (forall f, verdict f (value (field_input f p)) None) ->
  submitBtn (submitting p) = (MainJs.btn_busy <$> submitBtn p)
  /\ surroundings (submitting p)
     = (phoneInput p, subjectSelect p, MainJs.btn_busy <$> submitBtn p,
        contactForm_display p, formSuccess p, body_appended p, window_opened p,
        timers p, console p)
  /\ (forall f, ("error" ∉ classList (field_input f (submitting p)))
                /\ value (field_input f (submitting p)) = value (field_input f p)
                /\ field_error f (submitting p) = ((fun _ => []) <$> field_error f p)).
Proof.
  intros Hvalid. split; [reflexivity|]. split; [reflexivity|].
  intros f.
  assert (Hs : field_input f (submitting p) = (validated f p).1.1
               /\ field_error f (submitting p) = (validated f p).1.2)
    by (by destruct f).
  destruct Hs as [-> ->]. rewrite (validated_flag f p None (Hvalid f)). simpl.
  split; [set_solver|]. split; [done | by destruct (field_error f p)].
Qed.

(** X5. The stages of an accepted submission.  While the timer runs the
    submit button is disabled with its loading label, the errors are
    cleared, and nothing else has changed.  When the timer fires the
    form is hidden, the success panel (if any) shown, the button enabled
    again and the timer gone; the typed values stay in the hidden form.
    The optimized script goes through the same stages and adds no link
    to the body. *)
Theorem accepted_submit_stages (p : page) (label : jsstring) :
  (forall f, verdict f (value (field_input f p)) None) ->
  MainJs.subject_label p = Some label ->
  well_formed_entries p label ->
  let waiting := page_of (MainJs.on_submit p) in
  let finished := after_success p in
  submitBtn waiting = (MainJs.btn_busy <$> submitBtn p)
  /\ length (timers waiting) = S (length (timers p))
  /\ window_opened waiting = window_opened p
  /\ contactForm_display waiting = contactForm_display p
  /\ formSuccess waiting = formSuccess p
  /\ (forall f, ("error" ∉ classList (field_input f waiting))
                /\ value (field_input f waiting) = value (field_input f p)
                /\ field_error f waiting = ((fun _ => []) <$> field_error f p))
  /\ submitBtn finished = (MainJs.btn_ready <$> submitBtn p)
  /\ timers finished = timers p
  /\ contactForm_display finished = DisplayNone
  /\ formSuccess finished = ((fun _ => DisplayBlock) <$> formSuccess p)
  /\ (forall f, field_input f finished = field_input f waiting)
  /\ submitBtn (after_success_opt p) = submitBtn finished
  /\ contactForm_display (after_success_opt p) = DisplayNone
  /\ formSuccess (after_success_opt p) = formSuccess finished
  /\ window_opened (after_success_opt p) = window_opened finished
  /\ body_appended (after_success_opt p) = body_appended p
  /\ console (after_success_opt p) = console p.
Proof.
  intros Hvalid Hlabel Hwf waiting finished.
  destruct (accepted_submission p label Hvalid Hlabel Hwf)
    as (payload & es & eb & _ & _ & _ & _ & _ & Hmain & Hopt).
  destruct (submitting_reads p Hvalid) as (Hb & Hs & Hfields).
  assert (Hlen : length (timers p) = length (timers (submitting p))).
  { apply (f_equal (fun x => length x.1.2)) in Hs. symmetry. exact Hs. }
  assert (Hw : waiting = setTimeout (MainSubmitDone (MainJs.WA_PREFIX ++ payload)
                           (MainJs.MAILTO_PREFIX ++ es ++ lit "&body=" ++ eb)
                           (MainJs.gather p)) 1000 (submitting p)).
  { unfold waiting. by rewrite Hmain. }
  assert (Hf : finished = MainJs.run_closure
                 (MainSubmitDone (MainJs.WA_PREFIX ++ payload)
                    (MainJs.MAILTO_PREFIX ++ es ++ lit "&body=" ++ eb)
                    (MainJs.gather p)) (submitting p)).
  { unfold finished, after_success. rewrite Hmain. cbn [page_of].
    rewrite Hlen. apply fire_submit_timer. }
  assert (Ho : after_success_opt p
               = Optimized.run_closure (OptSubmitDone (MainJs.WA_PREFIX ++ payload))
                   (submitting p)).
  { unfold after_success_opt. rewrite Hopt. cbn [page_of].
    rewrite Hlen. apply fire_submit_timer. }
  clearbody waiting finished. subst waiting finished. rewrite Ho.
  clear Hmain Hopt Ho Hlen.
  generalize dependent (submitting p). intros q Hb Hs Hfields.
  apply (f_equal (fun x => (x.1.1.1.1.1.2, x.1.1.1.1.2, x.1.1.1.2, x.1.1.2, x.1.2, x.2)))
    in Hs.
  unfold surroundings in Hs. cbn [fst snd] in Hs.
  injection Hs as Hq1 Hq2 Hq3 Hq4 Hq5 Hq6.
  split; [exact Hb|].
  split; [cbn [setTimeout timers with_effects]; rewrite length_app, Hq5; simpl; lia|].
  split; [exact Hq4|]. split; [exact Hq1|]. split; [exact Hq2|].
  split.
  { intros f. destruct (Hfields f) as (Hc & Hv & He).
    rewrite <- Hv, <- He. by destruct f. }
  split; [cbn; rewrite Hb; by destruct (submitBtn p)|].
  split; [exact Hq5|]. split; [reflexivity|].
  split; [cbn; rewrite Hq2; by destruct (formSuccess p)|].
  split; [intros f; by destruct f|].
  split; [reflexivity|]. split; [reflexivity|].
  split; [reflexivity|]. split; [reflexivity|].
  split; [exact Hq3 | exact Hq6].
Qed.

Lemma accepted_submit_stages_witness :
  (disabled <$> submitBtn (page_of (MainJs.on_submit jo_page))) = Some true
  /\ (disabled <$> submitBtn (after_success jo_page)) = Some false
  /\ contactForm_display (after_success jo_page) = DisplayNone
  /\ formSuccess (after_success jo_page) = Some DisplayBlock
  /\ timers (after_success jo_page) = [].
Proof.
  assert (Hvalid : forall f, verdict f (value (field_input f jo_page)) None).
  { intros f. apply valid_by_flag. destruct f; vm_compute; reflexivity. }
  assert (Hwf : well_formed_entries jo_page MainJs.DEFAULT_SUBJECT).
  { repeat split; try (vm_compute; reflexivity). intros ph Hph; discriminate Hph. }
  destruct (accepted_submit_stages jo_page MainJs.DEFAULT_SUBJECT Hvalid eq_refl Hwf)
    as (Hb & _ & _ & _ & _ & _ & Hr & Ht & Hd & Hs & _).
  split; [by rewrite Hb|]. split; [by rewrite Hr|].
  split; [exact Hd|]. split; [exact Hs | exact Ht].
Defined.

Lemma shown_again (v : option jsstring) (input : input_el) (errorEl : option jsstring) :
  shown v (shown v input errorEl).1.1 (shown v input errorEl).1.2 = shown v input errorEl.
Proof.
  destruct v as [msg|]; simpl.
  - replace (classList input ∪ {[ "error" ]} ∪ {[ "error" ]})
      with (classList input ∪ {[ "error" ]}) by set_solver.
    by destruct errorEl.
  - replace (classList input ∖ {[ "error" ]} ∖ {[ "error" ]})
      with (classList input ∖ {[ "error" ]}) by set_solver.
    by destruct errorEl.
Qed.

Lemma with_field_twice (f : field) (i i' : input_el) (e e' : option jsstring) (p : page) :
  with_field f i e (with_field f i' e' p) = with_field f i e p.
Proof. by destruct f. Qed.

Lemma with_field_reads (f : field) (i : input_el) (e : option jsstring) (p : page) :
  field_input f (with_field f i e p) = i /\ field_error f (with_field f i e p) = e.
Proof. by destruct f. Qed.

Lemma on_blur_shown (f : field) (p : page) (v : option jsstring) :
  verdict f (value (field_input f p)) v ->
  MainJs.on_blur f p
  = with_field f (shown v (field_input f p) (field_error f p)).1.1
                 (shown v (field_input f p) (field_error f p)).1.2 p.
Proof.
  intros Hv. unfold MainJs.on_blur.
  pose proof (validated_flag f p v Hv) as E. unfold validated in E. rewrite E.
  by destruct (shown _ _ _) as [[? ?] ?].
Qed.

(** X6. Leaving a field validates that field and nothing else: the field
    gets the error class and text of its verdict, the two other fields,
    their error texts and the rest of the page stay as they were, and
    leaving the field again without typing changes nothing more. *)
Theorem blur_validates_one_field (f : field) (p : page) :
  let p' := MainJs.on_blur f p in
  Optimized.on_blur f p = p'
  /\ MainJs.on_blur f p' = p'
  /\ (exists v, verdict f (value (field_input f p)) v
                /\ (field_input f p', field_error f p')
                   = (shown v (field_input f p) (field_error f p)).1)
  /\ (forall g, g <> f ->
        field_input g p' = field_input g p /\ field_error g p' = field_error g p)
  /\ surroundings p' = surroundings p.
Proof.
  intros p'.
  destruct (validateField_verdict f (field_input f p) (field_error f p)) as (v & Hv & _).
  assert (Hp' : p' = with_field f (shown v (field_input f p) (field_error f p)).1.1
                       (shown v (field_input f p) (field_error f p)).1.2 p)
    by (by apply on_blur_shown).
  split; [apply on_blur_same|].
  split.
  { rewrite Hp'.
    destruct (with_field_reads f (shown v (field_input f p) (field_error f p)).1.1
                (shown v (field_input f p) (field_error f p)).1.2 p) as [Hi He].
    rewrite (on_blur_shown f _ v).
    - rewrite Hi, He, shown_again. apply with_field_twice.
    - rewrite Hi. by destruct v. }
  split.
  { exists v. split; [done|]. rewrite Hp'.
    destruct (with_field_reads f (shown v (field_input f p) (field_error f p)).1.1
                (shown v (field_input f p) (field_error f p)).1.2 p) as [-> ->].
    by destruct (shown _ _ _) as [[? ?] ?]. }
  split; [intros g Hg; rewrite Hp'; by destruct f, g|].
  rewrite Hp'. by destruct f.
Qed.

Lemma blur_validates_witness :
  let p := short_name_page in
  nameError (MainJs.on_blur FName p) = Some MainJs.MSG_NAME
  /\ emailInput (MainJs.on_blur FName p) = emailInput p
  /\ emailError (MainJs.on_blur FName p) = emailError p
  /\ MainJs.on_blur FName (MainJs.on_blur FName p) = MainJs.on_blur FName p.
Proof.
  intros p.
  destruct (blur_validates_one_field FName p) as (_ & Hidem & _ & Hother & _).
  destruct (Hother FEmail ltac:(discriminate)) as [Hi He].
  split; [vm_compute; reflexivity|]. split; [exact Hi|]. split; [exact He | exact Hidem].
Defined.

End FormStages.

(* ===================================================================== *)
(** * Navigation *)
(* ===================================================================== *)

Section MobileMenu.
Import Dom Navigation.

Lemma hidden_not_empty : HIDDEN <> [].
Proof. discriminate. Qed.

Lemma class_toggle_active (cl : gset string) :
  "active" ∈ class_toggle "active" cl <-> "active" ∉ cl.
Proof.
  unfold class_toggle, class_contains, class_add, class_remove.
  destruct (bool_decide ("active" ∈ cl)) eqn:E.
  - apply bool_decide_eq_true in E. set_solver.
  - apply bool_decide_eq_false in E. set_solver.
Qed.

Lemma navToggle_click_locks (s : nav) : locked_iff_open (navToggle_click s).
Proof.
  unfold locked_iff_open, navToggle_click. simpl. unfold class_contains.
  destruct (bool_decide _) eqn:E.
  - apply bool_decide_eq_true in E. tauto.
  - apply bool_decide_eq_false in E. split; [discriminate | tauto].
Qed.

Lemma navToggle_click_synced (s : nav) : synced s -> synced (navToggle_click s).
Proof.
  unfold synced, navToggle_click. simpl. rewrite !class_toggle_active. tauto.
Qed.

Lemma close_menu_closed (s : nav) : menu_closed (close_menu s).
Proof. unfold menu_closed, close_menu, class_remove. simpl. set_solver. Qed.

Lemma menu_closed_inv (s : nav) : menu_closed s -> locked_iff_open s /\ synced s.
Proof.
  intros (Hm & Ht & Ho). unfold locked_iff_open, synced. rewrite Ho.
  split; split; intros H; done.
Qed.

Lemma closing_closes (s : nav) (ev : menu_event) :
  closing ev -> menu_closed (menu_handle s ev).
Proof.
  destruct ev as [| | | |w]; simpl; try done.
  - intros _. apply close_menu_closed.
  - intros _. apply close_menu_closed.
  - intros Hw. unfold handleResize. replace (991 <? w) with true by lia.
    apply close_menu_closed.
Qed.

Lemma menu_handle_keeps (s : nav) (ev : menu_event) :
  locked_iff_open s -> synced s ->
  locked_iff_open (menu_handle s ev) /\ synced (menu_handle s ev).
Proof.
  intros Hl Hs. destruct ev as [| | | |w]; simpl.
  - split; [apply navToggle_click_locks | by apply navToggle_click_synced].
  - apply menu_closed_inv, close_menu_closed.
  - done.
  - apply menu_closed_inv, close_menu_closed.
  - unfold handleResize. destruct (991 <? w); simpl; [|done].
    apply menu_closed_inv, close_menu_closed.
Qed.

(** X7. The mobile menu and the scroll lock.  If the page scroll is
    locked exactly when the menu is open and the toggle button shows the
    state of the menu, this stays so through any clicks and resizes.  A
    click on the toggle always leaves the lock equal to the state of the
    menu and flips the menu; a click on a menu link, a click outside and
    a resize above 991 always leave the menu closed and the page
    unlocked; a click inside the menu that is not on a link changes
    nothing. *)
Theorem menu_lock_follows_menu (s : nav) (evs : list menu_event) (ev : menu_event) :
  locked_iff_open s -> synced s ->
  (locked_iff_open (foldl menu_handle s evs) /\ synced (foldl menu_handle s evs))
  /\ (closing ev -> menu_closed (menu_handle (foldl menu_handle s evs) ev))
  /\ ("active" ∈ navMenu (menu_handle (foldl menu_handle s evs) ClickToggle)
      <-> "active" ∉ navMenu (foldl menu_handle s evs))
  /\ menu_handle (foldl menu_handle s evs) ClickInsideMenu = foldl menu_handle s evs.
Proof.
  intros Hl Hs.
  assert (Hinv : locked_iff_open (foldl menu_handle s evs)
                 /\ synced (foldl menu_handle s evs)).
  { revert s Hl Hs. induction evs as [|e evs IH]; intros s Hl Hs; simpl; [done|].
    destruct (menu_handle_keeps s e Hl Hs) as [Hl' Hs']. by apply IH. }
  split; [exact Hinv|]. split; [apply closing_closes|].
  split; [|done]. simpl. apply class_toggle_active.
Qed.

Lemma menu_lock_witness :
  let s := foldl menu_handle open_menu [ClickToggle; ClickToggle; ClickInsideMenu] in
  locked_iff_open s /\ synced s
  /\ menu_closed (menu_handle s ClickOutside)
  /\ menu_closed (menu_handle s (Resized 1200)).
Proof.
  intros s.
  assert (Hl : locked_iff_open open_menu).
  { unfold locked_iff_open, open_menu. simpl.
    split; intros _; [vm_compute|]; reflexivity. }
  assert (Hs : synced open_menu).
  { unfold synced, open_menu. simpl. split; intros _; vm_compute; reflexivity. }
  destruct (menu_lock_follows_menu open_menu [ClickToggle; ClickToggle; ClickInsideMenu]
              ClickOutside Hl Hs) as (Hinv & Hc & _).
  destruct (menu_lock_follows_menu open_menu [ClickToggle; ClickToggle; ClickInsideMenu]
              (Resized 1200) Hl Hs) as (_ & Hr & _).
  split; [apply Hinv|]. split; [apply Hinv|].
  split; [by apply Hc | apply Hr; simpl; lia].
Defined.

(** X8. The debounced resize handler.  Above 991 it closes the menu,
    unlocks the page and closes every dropdown, as the resize listener
    of [initDropdowns] does for the dropdowns; at 991 or below it
    changes nothing. *)
Theorem resize_closes_above_breakpoint
    (w : Z) (menu : nav) (dropdowns : list (gset string)) (i : nat) :
  (991 < w ->
   (exists s', (handleResize w (Some menu) dropdowns).1 = Some s' /\ menu_closed s')
   /\ ~ is_open (handleResize w (Some menu) dropdowns).2 i
   /\ (handleResize w None dropdowns).1 = None
   /\ (handleResize w (Some menu) dropdowns).2 = MainJs.dropdown_resize w dropdowns
   /\ length (handleResize w (Some menu) dropdowns).2 = length dropdowns)
  /\ (w <= 991 ->
      handleResize w (Some menu) dropdowns = (Some menu, dropdowns)
      /\ MainJs.dropdown_resize w dropdowns = dropdowns).
Proof.
  split; intros Hw.
  - unfold handleResize, MainJs.dropdown_resize. replace (991 <? w) with true by lia.
    simpl. split; [eexists; split; [reflexivity | apply close_menu_closed]|].
    split.
    { intros (cl & Hl & Ha). rewrite list_lookup_fmap in Hl.
      destruct (dropdowns !! i) as [x|]; [|done]. simpl in Hl. injection Hl as <-.
      unfold class_remove in Ha. set_solver. }
    split; [done|]. split; [done | apply length_fmap].
  - unfold handleResize, MainJs.dropdown_resize. by replace (991 <? w) with false by lia.
Qed.

Lemma resize_closes_witness :
  menu_closed (default open_menu (handleResize 1024 (Some open_menu) [{[ "active" ]}]).1)
  /\ ~ is_open (handleResize 1024 (Some open_menu) [{[ "active" ]}]).2 0
  /\ handleResize 991 (Some open_menu) [{[ "active" ]}] = (Some open_menu, [{[ "active" ]}]).
Proof.
  destruct (resize_closes_above_breakpoint 1024 open_menu [{[ "active" ]}] 0) as [Hup _].
  destruct (resize_closes_above_breakpoint 991 open_menu [{[ "active" ]}] 0) as [_ Hdown].
  destruct (Hup ltac:(lia)) as ((s' & Hs' & Hc) & Hd & _).
  split; [by rewrite Hs'|]. split; [exact Hd|]. apply Hdown. lia.
Defined.

End MobileMenu.

Section ActiveLink.
Import Dom Navigation.

Lemma ends_with_refl (t : jsstring) : ends_with t t = true.
Proof.
  unfold ends_with. rewrite <- (app_nil_r (rev t)) at 2. apply starts_with_app.
Qed.

Lemma same_or_ends_with (href t : jsstring) : jseq href t || ends_with href t = ends_with href t.
Proof.
  unfold jseq. destruct (bool_decide (href = t)) eqn:E; [|done].
  apply bool_decide_eq_true in E as ->. by rewrite ends_with_refl.
Qed.

Lemma mark_links_all (id : jsstring) (links : list nav_link) :
  Forall has_href links -> mark_links id links = (highlighted id <$> links, true).
Proof.
  induction 1 as [|link links Hl _ IH]; [done|].
  unfold has_href in Hl. destruct link as [[href|] cl]; [|done].
  cbn [mark_links link_href link_classList]. rewrite IH, same_or_ends_with.
  rewrite fmap_cons, add_after_remove. reflexivity.
Qed.

Lemma highlighted_twice (id1 id2 : jsstring) (link : nav_link) :
  highlighted id2 (highlighted id1 link) = highlighted id2 link.
Proof.
  unfold highlighted. cbn [link_href link_classList].
  destruct (ends_with (default [] (link_href link)) (HASH_SIGN ++ id1)),
    (ends_with (default [] (link_href link)) (HASH_SIGN ++ id2)); f_equal.
  - set_solver.
  - set_solver.
  - apply add_after_remove.
  - set_solver.
Qed.

Lemma highlighted_has_href (id : jsstring) (links : list nav_link) :
  Forall has_href links -> Forall has_href (highlighted id <$> links).
Proof. induction 1; simpl; by constructor. Qed.

Lemma update_from_all (pos : Q) (sections : list section_el) :
  forall links, Forall has_href links ->
    updateActiveNav_from pos sections links
    = (match last_current pos sections with
       | Some sec => highlighted (section_id sec) <$> links
       | None => links
       end, true).
Proof.
  induction sections as [|sec rest IH]; intros links Hl; simpl; [done|].
  destruct (section_current pos sec).
  - rewrite mark_links_all by done.
    rewrite IH by (by apply highlighted_has_href).
    destruct (last_current pos rest) as [s|]; [|done].
    f_equal. rewrite <- list_fmap_compose. apply list_fmap_ext.
    intros i x _. apply highlighted_twice.
  - rewrite IH by done. by destruct (last_current pos rest).
Qed.

Lemma last_current_is_current (pos : Q) (sections : list section_el) (sec : section_el) :
  last_current pos sections = Some sec -> sec ∈ sections /\ section_current pos sec = true.
Proof.
  induction sections as [|s rest IH]; simpl; [done|].
  destruct (last_current pos rest) as [s'|].
  - intros H. destruct (IH H) as [Hin Hc]. split; [by apply list_elem_of_further | done].
  - destruct (section_current pos s) eqn:E; [|done].
    intros [= <-]. split; [apply list_elem_of_here | done].
Qed.

(** X9. The active link.  When every link of the menu has an href, one
    run of [updateActiveNav] at scroll offset [y] ends with the links of
    the last section (in document order) that contains [y + 100]
    active, meaning those whose href is or ends with "#" and the
    section's id, and with no other link active; the other classes of
    the links are kept; and when no section contains the position the
    links are left as they are. *)
Theorem active_link_follows_last_section
    (scrollY : Q) (sections : list section_el) (links : list nav_link) :
  Forall has_href links ->
  (updateActiveNav scrollY sections links).2 = true
  /\ (last_current (scrollY + 100) sections = None ->
      (updateActiveNav scrollY sections links).1 = links)
  /\ (forall sec, last_current (scrollY + 100) sections = Some sec ->
        sec ∈ sections
        /\ section_current (scrollY + 100) sec = true
        /\ (updateActiveNav scrollY sections links).1
           = (highlighted (section_id sec) <$> links)
        /\ forall i link href, links !! i = Some link -> link_href link = Some href ->
             exists link',
               (updateActiveNav scrollY sections links).1 !! i = Some link'
               /\ link_href link' = Some href
               /\ ("active" ∈ link_classList link'
                   <-> ends_with href (HASH_SIGN ++ section_id sec) = true)
               /\ forall c : string, c <> "active" ->
                    (c ∈ link_classList link' <-> c ∈ link_classList link)).
Proof.
  intros Hl. unfold updateActiveNav. cbv zeta.
  rewrite (update_from_all _ _ links Hl). cbn [fst snd].
  split; [done|]. split; [by intros ->|].
  intros sec Hsec. rewrite Hsec.
  destruct (last_current_is_current _ _ _ Hsec) as [Hin Hc].
  split; [done|]. split; [done|]. split; [done|].
  intros i link href Hi Hh. exists (highlighted (section_id sec) link).
  split; [by rewrite list_lookup_fmap, Hi|].
  split; [done|]. unfold highlighted. cbn [link_href link_classList]. rewrite Hh.
  change (default [] (Some href)) with href.
  destruct (ends_with href (HASH_SIGN ++ section_id sec)).
  - split; [split; [done | intros _; set_solver]|]. intros c Hne. set_solver.
  - split; [split; [intros H; set_solver | done]|]. intros c Hne. set_solver.
Qed.

Lemma active_link_witness :
  (updateActiveNav 650 sample_sections sample_links).2 = true
  /\ (updateActiveNav 650 sample_sections sample_links).1
     = (highlighted (lit "about") <$> sample_links)
  /\ exists link', (updateActiveNav 650 sample_sections sample_links).1 !! 1%nat
                   = Some link'
                   /\ "active" ∈ link_classList link'.
Proof.
  assert (Hl : Forall has_href sample_links) by (repeat constructor; discriminate).
  destruct (active_link_follows_last_section 650 sample_sections sample_links Hl)
    as (Hok & _ & Hsec).
  destruct (Hsec {| offsetTop := 600; offsetHeight := 800; section_id := lit "about" |}
              eq_refl) as (_ & _ & Heq & Hlinks).
  split; [exact Hok|]. split; [exact Heq|].
  destruct (Hlinks 1%nat _ (lit "index.html#about") eq_refl eq_refl)
    as (link' & Hi & _ & Ha & _).
  exists link'. split; [exact Hi|]. apply Ha. reflexivity.
Defined.

Lemma mark_links_raises (id : jsstring) (links : list nav_link) :
  (exists link, link ∈ links /\ link_href link = None) -> (mark_links id links).2 = false.
Proof.
  intros (link & Hin & Hn).
  induction links as [|l rest IH]; [by apply elem_of_nil in Hin|]. simpl.
  destruct (link_href l) as [h|] eqn:E; [|done].
  apply elem_of_cons in Hin as [->|Hin]; [congruence|].
  specialize (IH Hin). by destruct (mark_links id rest) as [r ok].
Qed.

(** X10. A link of the menu without an href: as soon as some section
    contains the scroll position, [updateActiveNav] raises (reading
    [endsWith] of null), in both scripts. *)
Theorem active_link_raises_without_href
    (scrollY : Q) (sections : list section_el) (links : list nav_link)
    (sec : section_el) (link : nav_link) :
  sec ∈ sections -> section_current (scrollY + 100) sec = true ->
  link ∈ links -> link_href link = None ->
  (updateActiveNav scrollY sections links).2 = false.
Proof.
  intros Hsec Hc Hlink Hn. unfold updateActiveNav. cbv zeta.
  induction sections as [|s rest IH]; [by apply elem_of_nil in Hsec|]. simpl.
  destruct (section_current (scrollY + 100) s) eqn:E.
  - pose proof (mark_links_raises (section_id s) links
                  (ex_intro _ link (conj Hlink Hn))) as Hr.
    destruct (mark_links (section_id s) links) as [l ok]. simpl in Hr. by rewrite Hr.
  - apply elem_of_cons in Hsec as [->|Hsec]; [congruence | by apply IH].
Qed.

Lemma active_link_raises_witness :
  (updateActiveNav 0 sample_sections
     [ {| link_href := None; link_classList := {[ "nav-link" ]} |} ]).2 = false.
Proof.
  eapply (active_link_raises_without_href 0 sample_sections _
            {| offsetTop := 0; offsetHeight := 600; section_id := lit "home" |}).
  - apply list_elem_of_here.
  - reflexivity.
  - apply list_elem_of_here.
  - reflexivity.
Defined.



(** X12. A click on an in-page link.  The default action is prevented
    exactly when the href is neither "#" nor empty and names an element
    of the page; then one smooth scroll is requested, to the offset of
    the element in the document less the height of the header (nothing
    less when there is no header), whatever the current scroll offset,
    and the href is pushed on the history.  In every other case nothing
    is scrolled or pushed. *)
Theorem anchor_click_lands_below_header
    (href : jsstring) (querySelector : jsstring -> query_result)
    (header_offsetHeight : option Z) (scrollY : Q) :
  let o := anchor_click href querySelector header_offsetHeight scrollY in
  (defaultPrevented o = true
   <-> href <> lit "#" /\ href <> [] /\ exists t, querySelector href = QueryFound t)
  /\ (forall t, href <> lit "#" -> href <> [] -> querySelector href = QueryFound t ->
        exists top, scrollTo_top o = Some top
                    /\ (top == t - inject_Z (default 0%Z header_offsetHeight))%Q
                    /\ pushState_url o = Some href /\ raised o = false)
  /\ (defaultPrevented o = false -> scrollTo_top o = None /\ pushState_url o = None)
  /\ (raised o = true <-> href <> lit "#" /\ href <> []
                          /\ querySelector href = QuerySyntaxError).
Proof.
  intros o. subst o. unfold anchor_click, jseq.
  destruct (bool_decide (href = lit "#")) eqn:E1; cbn [orb].
  { apply bool_decide_eq_true in E1. cbn [defaultPrevented scrollTo_top pushState_url raised].
    split; [naive_solver|]. split; [naive_solver|]. split; naive_solver. }
  apply bool_decide_eq_false in E1.
  destruct (bool_decide (href = [])) eqn:E2; cbn [orb].
  { apply bool_decide_eq_true in E2. cbn [defaultPrevented scrollTo_top pushState_url raised].
    split; [naive_solver|]. split; [naive_solver|]. split; naive_solver. }
  apply bool_decide_eq_false in E2.
  destruct (querySelector href) as [| |t] eqn:Eq;
    cbn [defaultPrevented scrollTo_top pushState_url raised].
  - split; [naive_solver|]. split; [naive_solver|]. split; naive_solver.
  - split; [naive_solver|]. split; [naive_solver|]. split; naive_solver.
  - split; [naive_solver|]. split; [|split; naive_solver].
    intros t' _ _ [= <-]. eexists. split; [reflexivity|].
    split; [unfold rect_top; ring | done].
Qed.

Lemma anchor_click_witness :
  let q := fun h : jsstring => if jseq h (lit "#about") then QueryFound 600 else QueryNull in
  exists top, scrollTo_top (anchor_click (lit "#about") q (Some 80) 1234) = Some top
              /\ (top == 520)%Q
              /\ defaultPrevented (anchor_click (lit "#nowhere") q (Some 80) 1234) = false.
Proof.
  intros q.
  destruct (anchor_click_lands_below_header (lit "#about") q (Some 80) 1234)
    as (_ & Hfound & _).
  destruct (Hfound 600%Q ltac:(discriminate) ltac:(discriminate) eq_refl)
    as (top & Htop & Heq & _).
  exists top. split; [exact Htop|]. split; [rewrite Heq; reflexivity | reflexivity].
Defined.

End ActiveLink.

(* ===================================================================== *)
(** * Throttle and debounce *)
(* ===================================================================== *)

Section TimingFacts.
Import Timing.
Context {A : Type}.

Lemma throttle_exec_keeps (limit : Z) (w w' : Z * throttled A) (ev : throttle_event A) :
  throttle_inv limit w -> throttle_exec limit w ev = Some w' -> throttle_inv limit w'.
Proof.
  destruct w as [clock s]. unfold throttle_exec, throttle_inv.
  intros [Hsp Hst] Hex.
  destruct (throttle_time ev <? clock) eqn:Et; [done|].
  destruct ev as [now args raises|now k]; simpl in Et.
  - injection Hex as <-. unfold throttle_call.
    destruct (inThrottle s) eqn:Ei.
    + rewrite Ei. split; [done|].
      destruct (throttle_ran s) as [|[[t a] r] ran]; [by destruct Hst|].
      destruct Hst as [Ht Hst]. split; [lia | done].
    + destruct raises; cbn [inThrottle throttle_timers throttle_ran]; rewrite ?Ei.
      * destruct (throttle_ran s) as [|[[t a] r] ran].
        -- destruct Hst as [_ ->]. split; [done|]. split; [lia|]. by split.
        -- destruct Hst as [Ht [-> Hgap]].
           split; [split; [lia|]; split; [intros Hr; specialize (Hgap Hr); lia | done]|].
           split; [lia|]. by split.
      * destruct (throttle_ran s) as [|[[t a] r] ran].
        -- destruct Hst as [_ ->]. split; [done|]. split; [lia | done].
        -- destruct Hst as [Ht [-> Hgap]].
           split; [split; [lia|]; split; [intros Hr; specialize (Hgap Hr); lia | done]|].
           split; [lia | done].
  - destruct (throttle_timers s !! k) as [due|] eqn:Ek; [|done].
    destruct (due <=? now) eqn:Ed; [|done]. injection Hex as <-. simpl.
    split; [done|].
    destruct (throttle_ran s) as [|[[t a] r] ran] eqn:Er.
    + destruct Hst as [_ Hnil]. by rewrite Hnil in Ek.
    + destruct Hst as [Ht Hst]. destruct (inThrottle s).
      * destruct Hst as [Hr Hst]. rewrite Hst in Ek |- *.
        destruct k; [|done]. injection Ek as <-.
        simpl. split; [lia|]. split; [done | intros _; lia].
      * destruct Hst as [Hnil _]. by rewrite Hnil in Ek.
Qed.

Lemma throttle_run_keeps (limit : Z) (evs : list (throttle_event A)) :
  forall w w', throttle_inv limit w ->
               throttle_run limit w evs = Some w' -> throttle_inv limit w'.
Proof.
  induction evs as [|ev evs IH]; intros w w' Hinv Hrun; simpl in Hrun.
  - by injection Hrun as <-.
  - destruct (throttle_exec limit w ev) as [w1|] eqn:E; [|done].
    eapply IH; [|exact Hrun]. by eapply throttle_exec_keeps.
Qed.

Lemma throttle_exec_ran (limit : Z) (w w' : Z * throttled A) (ev : throttle_event A)
    (t : Z) (a : A) (r : bool) :
  throttle_exec limit w ev = Some w' ->
  (t, a, r) ∈ throttle_ran w'.2 -> (t, a, r) ∈ throttle_ran w.2 \/ ev = TCall t a r.
Proof.
  destruct w as [clock s]. unfold throttle_exec.
  destruct (throttle_time ev <? clock); [done|].
  destruct ev as [now args raises|now k].
  - intros [= <-]. simpl. unfold throttle_call.
    destruct (inThrottle s); simpl; [by left|].
    destruct raises; simpl; intros Hin;
      (apply elem_of_cons in Hin as [[= -> -> ->]|Hin]; [by right | by left]).
  - destruct (throttle_timers s !! k) as [due|]; [|done].
    destruct (due <=? now); [|done]. intros [= <-]. simpl. by left.
Qed.

Lemma throttle_run_ran (limit : Z) (evs : list (throttle_event A)) :
  forall (p w : Z * throttled A),
    throttle_run limit p evs = Some w ->
    forall t a r, (t, a, r) ∈ throttle_ran w.2 ->
                  (t, a, r) ∈ throttle_ran p.2 \/ TCall t a r ∈ evs.
Proof.
  induction evs as [|ev evs IH]; intros p w Hrun t a r Hin; simpl in Hrun.
  - injection Hrun as <-. by left.
  - destruct (throttle_exec limit p ev) as [w1|] eqn:E; [|done].
    destruct (IH w1 w Hrun t a r Hin) as [H1|H1].
    + destruct (throttle_exec_ran _ _ _ _ _ _ _ E H1) as [H2| ->];
        [by left | right; apply list_elem_of_here].
    + right. by apply list_elem_of_further.
Qed.

(** X13. [throttle]: however the wrapper is called and however the
    wrapped function ends, a run that returned is followed by no run
    for [limit]; a run that raised leaves the wrapper open with no
    timer, so that the very next call runs the function again, however
    soon it comes.  Every run is one of the calls, with its arguments,
    at the time of that call; and at most one timer is pending, exactly
    while the wrapper is shut. *)
Theorem throttle_runs_are_spaced
    (limit start : Z) (evs : list (throttle_event A)) (w : Z * throttled A) :
  throttle_run limit (start, throttle_new) evs = Some w ->
  spaced limit (throttle_ran w.2)
  /\ (forall t a r, (t, a, r) ∈ throttle_ran w.2 -> TCall t a r ∈ evs)
  /\ (length (throttle_timers w.2) <= 1)%nat
  /\ (inThrottle w.2 = true <-> throttle_timers w.2 <> [])
  /\ (forall t a ran, throttle_ran w.2 = (t, a, true) :: ran ->
        inThrottle w.2 = false
        /\ forall now args r,
             throttle_ran (throttle_call limit now args r w.2)
             = (now, args, r) :: throttle_ran w.2)
  /\ (forall t a ran, throttle_ran w.2 = (t, a, false) :: ran ->
        forall now args r, now < t + limit ->
          throttle_run limit w [TCall now args r] = None
          \/ throttle_run limit w [TCall now args r] = Some (now, w.2)).
Proof.
  intros Hrun.
  assert (Hinv : throttle_inv limit w).
  { eapply throttle_run_keeps; [|exact Hrun]. by split. }
  split; [destruct w; apply Hinv|].
  split.
  { intros t a r Hin.
    destruct (throttle_run_ran limit evs _ _ Hrun t a r Hin) as [H|H]; [|done].
    by apply elem_of_nil in H. }
  destruct w as [clock s]. destruct Hinv as [_ Hst]. simpl.
  destruct (throttle_ran s) as [|[[t a] r] ran] eqn:Er.
  - destruct Hst as [Hi Ht]. rewrite Hi, Ht.
    split; [simpl; lia|]. split; [done|]. split; intros; discriminate.
  - destruct Hst as [Hclock Hst]. destruct (inThrottle s) eqn:Ei.
    + destruct Hst as [-> Hst]. rewrite Hst.
      split; [simpl; lia|]. split; [done|].
      split; [intros; discriminate|].
      intros t' a' ran' [= -> -> ->] now args r' Hnow.
      destruct (now <? clock) eqn:En; [by left | right].
      unfold throttle_call. by rewrite Ei.
    + destruct Hst as [Ht Hgap]. rewrite Ht.
      split; [simpl; lia|]. split; [done|].
      split.
      * intros t' a' ran' [= -> -> -> ->]. split; [done|].
        intros now args r'. unfold throttle_call. rewrite Ei, Er. by destruct r'.
      * intros t' a' ran' [= -> -> -> ->] now args r' Hnow.
        specialize (Hgap eq_refl). left.
        assert (Hlt : (now <? clock) = true) by lia. by rewrite Hlt.
Qed.

End TimingFacts.

Lemma throttle_spaced_witness :
  exists w : Z * Timing.throttled string,
    Timing.throttle_run 100 (0, Timing.throttle_new)
      [Timing.TCall 0 "a" true; Timing.TCall 10 "b" false; Timing.TCall 30 "c" false;
       Timing.TFire 110 0; Timing.TCall 130 "d" false; Timing.TCall 140 "e" false]
    = Some w
    /\ Timing.throttle_ran w.2 = [(130, "d", false); (10, "b", false); (0, "a", true)]
    /\ Timing.spaced 100 (Timing.throttle_ran w.2).
Proof.
  eexists. split; [vm_compute; reflexivity|]. split; [reflexivity|].
  eapply (throttle_runs_are_spaced 100 0
            [Timing.TCall 0 "a" true; Timing.TCall 10 "b" false; Timing.TCall 30 "c" false;
             Timing.TFire 110 0; Timing.TCall 130 "d" false; Timing.TCall 140 "e" false]).
  vm_compute. reflexivity.
Defined.

Section DebounceFacts.
Import Timing.
Context {A : Type}.

Lemma clearTimeout_nil (id : option nat) : clearTimeout id (@nil (nat * Z * A)) = [].
Proof. by destruct id. Qed.

Lemma clearTimeout_own (id : nat) (due : Z) (args : A) :
  clearTimeout (Some id) [(id, due, args)] = [].
Proof.
  unfold clearTimeout. rewrite filter_cons. simpl.
  destruct (decide (id ≠ id)); [done|]. apply filter_nil.
Qed.

Lemma debounce_exec_keeps (original : bool) (wait : Z) (called : option (Z * A))
    (w w' : Z * debounced A) (ev : timing_event A) :
  debounce_inv wait called w ->
  debounce_exec original wait w ev = Some w' ->
  debounce_inv wait (last_call [ev] called) w'.
Proof.
  destruct w as [clock s]. unfold debounce_exec, debounce_inv.
  intros Hinv Hex.
  destruct (event_time ev <? clock); [done|].
  destruct ev as [now args|now k].
  - injection Hex as <-. right. exists (next_timer_id s), now, args.
    split; [done|]. split; [done|]. unfold debounce_call. simpl.
    destruct Hinv as [->|(id & tc & a & _ & -> & ->)].
    + by rewrite clearTimeout_nil.
    + by rewrite clearTimeout_own.
  - destruct (debounce_timers s !! k) as [[[id due] args]|] eqn:Ek; [|done].
    destruct (due <=? now); [|done]. injection Hex as <-. left.
    destruct Hinv as [Hnil|(id' & tc & a & _ & Ht & Hone)].
    + by rewrite Hnil in Ek.
    + rewrite Hone in Ek |- *. destruct k; [|done].
      destruct original; simpl; [apply clearTimeout_nil | done].
Qed.

Lemma last_call_app (evs1 evs2 : list (timing_event A)) (found : option (Z * A)) :
  last_call (evs1 ++ evs2) found = last_call evs2 (last_call evs1 found).
Proof.
  revert found. induction evs1 as [|[now args|now k] evs1 IH]; intros found; simpl; auto.
Qed.

Lemma debounce_run_keeps (original : bool) (wait : Z) (evs : list (timing_event A)) :
  forall called w w',
    debounce_inv wait called w ->
    run_events (debounce_exec original wait) w evs = Some w' ->
    debounce_inv wait (last_call evs called) w'.
Proof.
  induction evs as [|ev evs IH]; intros called w w' Hinv Hrun; simpl in Hrun.
  - by injection Hrun as <-.
  - destruct (debounce_exec original wait w ev) as [w1|] eqn:E; [|done].
    change (ev :: evs) with ([ev] ++ evs). rewrite last_call_app.
    eapply IH; [|exact Hrun]. by eapply debounce_exec_keeps.
Qed.

Lemma debounce_exec_same (wait : Z) (called : option (Z * A)) (w : Z * debounced A)
    (ev : timing_event A) :
  debounce_inv wait called w ->
  debounce_exec true wait w ev = debounce_exec false wait w ev.
Proof.
  destruct w as [clock s]. unfold debounce_exec, debounce_inv. intros Hinv.
  destruct (event_time ev <? clock); [done|].
  destruct ev as [now args|now k]; [done|].
  destruct (debounce_timers s !! k) as [[[id due] args]|] eqn:Ek; [|done].
  destruct (due <=? now); [|done].
  destruct Hinv as [Hnil|(id' & tc & a & _ & Ht & Hone)].
  - by rewrite Hnil in Ek.
  - rewrite Hone in Ek |- *. destruct k; [|done]. unfold later, later_opt. simpl.
    by rewrite clearTimeout_nil.
Qed.

Lemma debounce_run_same (wait : Z) (evs : list (timing_event A)) :
  forall called w,
    debounce_inv wait called w ->
    run_events (debounce_exec true wait) w evs
    = run_events (debounce_exec false wait) w evs.
Proof.
  induction evs as [|ev evs IH]; intros called w Hinv; simpl; [done|].
  rewrite <- (debounce_exec_same wait called w ev Hinv).
  destruct (debounce_exec true wait w ev) as [w1|] eqn:E; [|done].
  eapply IH. by eapply debounce_exec_keeps.
Qed.

Lemma last_call_in (evs : list (timing_event A)) :
  forall found tc a,
    last_call evs found = Some (tc, a) -> found = Some (tc, a) \/ Call tc a ∈ evs.
Proof.
  induction evs as [|[n x|n j] evs IH]; intros found tc a H; simpl in H.
  - by left.
  - destruct (IH _ _ _ H) as [[= -> ->]|Hin];
      right; [apply list_elem_of_here | by apply list_elem_of_further].
  - destruct (IH _ _ _ H) as [->|Hin]; [by left | right; by apply list_elem_of_further].
Qed.

(** X14. [debounce]: whenever the wrapped function runs, it runs with
    the arguments of the call that came last, at least [wait] after that
    call, and leaves no timer pending; until then at most one timer is
    pending.  The [later] of the original script, which clears the timer
    once more, and the arrow function of the optimized script behave
    alike. *)
Theorem debounce_runs_last_call
    (original : bool) (wait start : Z) (evs : list (timing_event A))
    (w w' : Z * debounced A) (now : Z) (k : nat) :
  run_events (debounce_exec original wait) (start, debounce_new) evs = Some w ->
  debounce_exec original wait w (Fire now k) = Some w' ->
  (exists tc args,
     last_call evs None = Some (tc, args)
     /\ Call tc args ∈ evs
     /\ tc + wait <= now
     /\ debounce_ran w'.2 = (now, args) :: debounce_ran w.2
     /\ debounce_timers w'.2 = [])
  /\ (length (debounce_timers w.2) <= 1)%nat
  /\ run_events (debounce_exec true wait) (start, debounce_new) evs
     = run_events (debounce_exec false wait) (start, debounce_new) evs.
Proof.
  intros Hrun Hfire.
  assert (H0 : debounce_inv wait None (start, @debounce_new A)) by (by left).
  pose proof (debounce_run_keeps original wait evs None _ _ H0 Hrun) as Hinv.
  split; [|split; [|by eapply debounce_run_same]].
  - destruct w as [clock s]. unfold debounce_exec in Hfire. simpl in Hfire.
    destruct (now <? clock); [done|].
    destruct (debounce_timers s !! k) as [[[id due] args]|] eqn:Ek; [|done].
    destruct (due <=? now) eqn:Ed; [|done]. injection Hfire as <-.
    destruct Hinv as [Hnil|(id' & tc & a & Hlast & Ht & Hone)].
    { by rewrite Hnil in Ek. }
    rewrite Hone in Ek. destruct k; [|done]. injection Ek as <- <- <-.
    exists tc, a. split; [done|]. split.
    { destruct (last_call_in evs None tc a Hlast) as [H|H]; [discriminate H | done]. }
    split; [lia|]. rewrite Hone.
    destruct original; simpl; [split; [done | apply clearTimeout_nil] | done].
  - destruct w as [clock s]. simpl.
    destruct Hinv as [->|(id' & tc & a & _ & _ & ->)]; simpl; lia.
Qed.

End DebounceFacts.

Lemma debounce_last_call_witness :
  exists w w' : Z * Timing.debounced Z,
    Timing.run_events (Timing.debounce_exec true 150) (0, Timing.debounce_new)
      [Timing.Call 0 1024; Timing.Call 100 800; Timing.Call 200 640] = Some w
    /\ Timing.debounce_exec true 150 w (Timing.Fire 350 0) = Some w'
    /\ Timing.debounce_ran w'.2 = [(350, 640)]
    /\ Timing.debounce_timers w'.2 = [].
Proof.
  assert (Hrun : Timing.run_events (Timing.debounce_exec true 150) (0, Timing.debounce_new)
                   [Timing.Call 0 1024; Timing.Call 100 800; Timing.Call 200 640]
                 = Some (200, {| Timing.timeout := Some 2%nat; Timing.next_timer_id := 3;
                                 Timing.debounce_timers := [(2%nat, 350, 640)];
                                 Timing.debounce_ran := [] |}))
    by (vm_compute; reflexivity).
  eexists _, _. split; [exact Hrun|].
  split; [vm_compute; reflexivity|].
  destruct (debounce_runs_last_call true 150 0 _ _ _ 350 0 Hrun eq_refl)
    as ((tc & args & Hlast & _ & _ & Hran & Htimers) & _).
  injection Hlast as <- <-. split; [exact Hran | exact Htimers].
Defined.

(* ===================================================================== *)
(** * Cards, images, delays and the start of the optimized script *)
(* ===================================================================== *)

Section CardsAndImages.
Import Dom MainJs Media.

Lemma card_entry_lookup (d : card_deck) (en : entry) (c : nat) (cl : gset string) :
  allCards d !! c = Some cl ->
  exists cl1, allCards (card_entry d en) !! c = Some cl1
              /\ forall x : string,
                   x ∈ cl1 <-> x ∈ cl \/ (x = "animate-in"
                                          /\ en = {| target := c; isIntersecting := true |}).
Proof.
  intros Hc. unfold card_entry. destruct en as [t [|]]; simpl.
  - destruct (decide (t = c)) as [->|Hne].
    + exists (class_add "animate-in" cl).
      split; [by rewrite list_lookup_alter_eq, Hc|].
      intros x. unfold class_add. rewrite elem_of_union, elem_of_singleton. naive_solver.
    + exists cl. split; [by rewrite list_lookup_alter_ne|]. naive_solver.
  - exists cl. split; [done|]. naive_solver.
Qed.

Lemma cards_callback_lookup (entries : list entry) :
  forall (d : card_deck) (c : nat) (cl : gset string),
    allCards d !! c = Some cl ->
    exists cl', allCards (cards_callback entries d) !! c = Some cl'
                /\ forall x : string,
                     x ∈ cl' <-> x ∈ cl
                                 \/ (x = "animate-in"
                                     /\ {| target := c; isIntersecting := true |} ∈ entries).
Proof.
  unfold cards_callback.
  induction entries as [|en entries IH]; intros d c cl Hc; simpl.
  - exists cl. split; [done|]. intros x. rewrite elem_of_nil. naive_solver.
  - destruct (card_entry_lookup d en c cl Hc) as (cl1 & H1 & Hx1).
    destruct (IH _ c cl1 H1) as (cl' & H' & Hx').
    exists cl'. split; [done|]. intros x.
    rewrite Hx', Hx1, elem_of_cons. naive_solver.
Qed.

Lemma cards_callback_observed (entries : list entry) :
  forall (d : card_deck) (c : nat),
    c ∈ cards_observed (cards_callback entries d)
    <-> c ∈ cards_observed d /\ {| target := c; isIntersecting := true |} ∉ entries.
Proof.
  unfold cards_callback.
  induction entries as [|en entries IH]; intros d c; simpl.
  - rewrite elem_of_nil. naive_solver.
  - rewrite IH, not_elem_of_cons. unfold card_entry.
    destruct en as [t [|]]; simpl.
    + rewrite elem_of_difference, elem_of_singleton. naive_solver.
    + naive_solver.
Qed.

(** X15. The observer callback of the cards: after it has run, a card
    carries "animate-in" exactly if it carried it before or the batch
    reported it as intersecting, every other class of every card is as
    before, and a card is still observed exactly if it was observed and
    the batch did not report it as intersecting. *)
Theorem cards_callback_reveals_intersecting
    (entries : list entry) (d : card_deck) (c : nat) (cl : gset string) :
  allCards d !! c = Some cl ->
  (exists cl', allCards (cards_callback entries d) !! c = Some cl'
               /\ ("animate-in" ∈ cl'
                   <-> "animate-in" ∈ cl
                       \/ {| target := c; isIntersecting := true |} ∈ entries)
               /\ forall x : string, x <> "animate-in" -> (x ∈ cl' <-> x ∈ cl))
  /\ (c ∈ cards_observed (cards_callback entries d)
      <-> c ∈ cards_observed d /\ {| target := c; isIntersecting := true |} ∉ entries).
Proof.
  intros Hc. split; [|apply cards_callback_observed].
  destruct (cards_callback_lookup entries d c cl Hc) as (cl' & H' & Hx).
  exists cl'. split; [done|]. split.
  - rewrite Hx. naive_solver.
  - intros x Hne. rewrite Hx. naive_solver.
Qed.

Lemma cards_callback_witness :
  let d := initBreedCardsAnimation false [{[ "breed-card" ]}] [{[ "region-card" ]}] in
  let d' := cards_callback [ {| target := 1; isIntersecting := true |};
                             {| target := 0; isIntersecting := false |} ] d in
  (exists cl', allCards d' !! 1%nat = Some cl' /\ "animate-in" ∈ cl')
  /\ (1%nat ∉ cards_observed d').
Proof.
  intros d d'.
  destruct (cards_callback_reveals_intersecting
              [ {| target := 1; isIntersecting := true |};
                {| target := 0; isIntersecting := false |} ] d 1 {[ "region-card" ]} eq_refl)
    as ((cl' & Hl & Ha & _) & Ho).
  split.
  - exists cl'. split; [exact Hl|]. apply Ha. right. apply list_elem_of_here.
  - intros H. apply Ho in H as [_ Hn]. apply Hn, list_elem_of_here.
Defined.

(** X16. With the reduced-motion preference both initializers reveal
    every candidate at once, keep its other classes, observe nothing and
    set no timer. *)
Theorem reduced_motion_skips_observers
    (els : list animated_el) (breedCards regionCards : list (gset string))
    (i : nat) (e : animated_el) (j : nat) (cl : gset string) :
  els !! i = Some e -> (breedCards ++ regionCards) !! j = Some cl ->
  animatedElements (initScrollAnimations true els) !! i
  = Some {| el_classList := el_classList e ∪ {[ "animated" ]};
            dataset_delay := dataset_delay e |}
  /\ observed (initScrollAnimations true els) = ∅
  /\ reveal_timers (initScrollAnimations true els) = []
  /\ allCards (initBreedCardsAnimation true breedCards regionCards) !! j
     = Some (cl ∪ {[ "animate-in" ]})
  /\ cards_observed (initBreedCardsAnimation true breedCards regionCards) = ∅.
Proof.
  intros Hi Hj. unfold initScrollAnimations, initBreedCardsAnimation.
  destruct (length els =? 0)%nat eqn:E1.
  { apply Nat.eqb_eq in E1. destruct els; [done | discriminate E1]. }
  cbv zeta.
  destruct (length (breedCards ++ regionCards) =? 0)%nat eqn:E2.
  { apply Nat.eqb_eq in E2. destruct (breedCards ++ regionCards); [done | discriminate E2]. }
  simpl. rewrite !list_lookup_fmap, Hi, Hj. done.
Qed.

Lemma reduced_motion_witness :
  animatedElements (initScrollAnimations true two_elements) !! 0%nat
  = Some {| el_classList := {[ "card" ]} ∪ {[ "animated" ]}; dataset_delay := None |}
  /\ observed (initScrollAnimations true two_elements) = ∅.
Proof.
  destruct (reduced_motion_skips_observers two_elements [{[ "breed-card" ]}] [] 0
              {| el_classList := {[ "card" ]}; dataset_delay := None |} 0
              {[ "breed-card" ]} eq_refl eq_refl) as (H1 & H2 & _).
  split; [exact H1 | exact H2].
Defined.

Lemma image_entry_lookup (g : gallery) (en : entry) (i : nat) :
  lazyImages (image_entry g en) !! i
  = Nat.iter (intersections i [en]) load_image <$> lazyImages g !! i.
Proof.
  unfold image_entry, intersections. rewrite filter_cons, filter_nil.
  destruct en as [t [|]]; cbn [isIntersecting target lazyImages].
  - destruct (decide (t = i)) as [->|Hne].
    + rewrite list_lookup_alter_eq. case_decide as Hd; [done|]. by destruct Hd.
    + rewrite list_lookup_alter_ne by done.
      case_decide as Hd; [by destruct Hd|]. simpl.
      by destruct (lazyImages g !! i).
  - case_decide as Hd; [by destruct Hd|]. simpl. by destruct (lazyImages g !! i).
Qed.

Lemma intersections_cons (i : nat) (en : entry) (entries : list entry) :
  intersections i (en :: entries)
  = (intersections i [en] + intersections i entries)%nat.
Proof.
  unfold intersections. rewrite !filter_cons, filter_nil.
  by case_decide.
Qed.

Lemma images_callback_lookup (entries : list entry) :
  forall (g : gallery) (i : nat),
    lazyImages (images_callback entries g) !! i
    = Nat.iter (intersections i entries) load_image <$> lazyImages g !! i.
Proof.
  unfold images_callback.
  induction entries as [|en entries IH]; intros g i; simpl.
  - by destruct (lazyImages g !! i).
  - rewrite IH, image_entry_lookup, (intersections_cons i en entries).
    destruct (lazyImages g !! i) as [img|]; [|done]. simpl. f_equal.
    rewrite Nat.add_comm. symmetry. apply Nat.iter_add.
Qed.

Lemma toUSVString_well_formed (s : jsstring) :
  well_formed s = true -> toUSVString s = s.
Proof.
  assert (H : forall (n : nat) (s : jsstring),
             (length s <= n)%nat -> well_formed s = true -> toUSVString s = s).
  { clear s. induction n as [|n IH]; intros s Hn Hw.
    { destruct s; [done | simpl in Hn; lia]. }
    destruct s as [|c r]; [done|]. simpl in Hn, Hw |- *.
    destruct (is_lead c).
    - destruct r as [|d r']; [done|].
      apply andb_true_iff in Hw as [Hd Hw]. rewrite Hd.
      rewrite (IH r') by (simpl in Hn; lia || done); done.
    - apply andb_true_iff in Hw as [Hc Hw]. apply andb_true_iff in Hc as [_ Hc].
      apply negb_true_iff in Hc. rewrite Hc.
      rewrite (IH r) by (lia || done); done. }
  apply (H (length s)). lia.
Qed.

(** X17. Lazy images, for a well-formed data-src.  Without
    IntersectionObserver every image gets its data-src as src at once.
    With it, an image the callback has not seen intersecting is
    untouched; an image reported once gets its data-src as src and loses
    the attribute; an image reported twice or more in the batches gets
    the src "undefined", since the second assignment reads the attribute
    the first one removed. *)
Theorem lazy_images_take_their_source
    (lazy : list image) (i : nat) (img : image) (url : jsstring)
    (entries : list entry) :
  lazy !! i = Some img -> data_src img = Some url -> well_formed url = true ->
  let seen := lazyImages (images_callback entries (initLazyImages true lazy)) !! i in
  lazyImages (initLazyImages false lazy) !! i
  = Some {| img_src := Some url; data_src := None |}
  /\ i ∈ images_observed (initLazyImages true lazy)
  /\ (intersections i entries = 0%nat -> seen = Some img)
  /\ (intersections i entries = 1%nat ->
      seen = Some {| img_src := Some url; data_src := None |})
  /\ ((2 <= intersections i entries)%nat ->
      seen = Some {| img_src := Some (lit "undefined"); data_src := None |}).
Proof.
  intros Hi Hu Hw seen.
  assert (Hload : load_image img = {| img_src := Some url; data_src := None |}).
  { unfold load_image. rewrite Hu. simpl. by rewrite toUSVString_well_formed. }
  assert (Hlen : (i < length lazy)%nat) by (by eapply lookup_lt_Some).
  assert (E : (length lazy =? 0)%nat = false) by (apply Nat.eqb_neq; lia).
  assert (Hseen : seen = Some (Nat.iter (intersections i entries) load_image img)).
  { unfold seen. rewrite images_callback_lookup. unfold initLazyImages. rewrite E.
    simpl. by rewrite Hi. }
  split.
  { unfold initLazyImages. rewrite E. simpl. rewrite list_lookup_fmap, Hi. simpl.
    by rewrite Hload. }
  split.
  { unfold initLazyImages. rewrite E. simpl.
    apply elem_of_list_to_set, elem_of_seq. lia. }
  split; [intros Hn; by rewrite Hseen, Hn|].
  split.
  { intros Hn. rewrite Hseen, Hn. simpl. by rewrite Hload. }
  intros Hn. rewrite Hseen.
  destruct (intersections i entries) as [|[|n]]; [lia|lia|]. clear Hn.
  assert (Hit : Nat.iter (S (S n)) load_image img
                = {| img_src := Some (lit "undefined"); data_src := None |}).
  { clear Hseen. induction n as [|n IH].
    - cbn [Nat.iter nat_rect]. rewrite Hload. reflexivity.
    - rewrite Nat.iter_succ, IH. reflexivity. }
  by rewrite Hit.
Qed.

Lemma lazy_images_witness :
  let img := {| img_src := None; data_src := Some (lit "hero2.webp") |} in
  lazyImages (images_callback [ {| target := 0; isIntersecting := true |} ]
                (initLazyImages true [img])) !! 0%nat
  = Some {| img_src := Some (lit "hero2.webp"); data_src := None |}
  /\ lazyImages (images_callback [ {| target := 0; isIntersecting := true |};
                                   {| target := 0; isIntersecting := false |};
                                   {| target := 0; isIntersecting := true |} ]
                   (initLazyImages true [img])) !! 0%nat
     = Some {| img_src := Some (lit "undefined"); data_src := None |}.
Proof.
  intros img.
  destruct (lazy_images_take_their_source [img] 0 img (lit "hero2.webp")
              [ {| target := 0; isIntersecting := true |} ] eq_refl eq_refl eq_refl)
    as (_ & _ & _ & Hone & _).
  destruct (lazy_images_take_their_source [img] 0 img (lit "hero2.webp")
              [ {| target := 0; isIntersecting := true |};
                {| target := 0; isIntersecting := false |};
                {| target := 0; isIntersecting := true |} ] eq_refl eq_refl eq_refl)
    as (_ & _ & _ & _ & Htwice).
  split; [apply Hone; reflexivity | apply Htwice; vm_compute; lia].
Defined.

(** X18. The staggered delays.  After [initScrollAnimations] an element
    keeps the delay its markup gives it; otherwise its delay is its
    index modulo 6 times 100, a multiple of 100 between 0 and 500.  The
    element keeps its classes, is observed, and the timer the callback
    sets when the element comes into view has that delay. *)
Theorem stagger_delay_by_index (els : list animated_el) (i : nat) (e : animated_el) :
  els !! i = Some e ->
  let a := initScrollAnimations false els in
  let delay := default (Z.of_nat i mod 6 * 100) (dataset_delay e) in
  animatedElements a !! i
  = Some {| el_classList := el_classList e; dataset_delay := Some delay |}
  /\ (dataset_delay e = None -> 0 <= delay <= 500 /\ delay mod 100 = 0)
  /\ i ∈ observed a
  /\ reveal_timers (observer_callback [ {| target := i; isIntersecting := true |} ] a)
     = [(delay, i)].
Proof.
  intros Hi a delay.
  assert (Hlen : (i < length els)%nat) by (by eapply lookup_lt_Some).
  assert (E : (length els =? 0)%nat = false) by (apply Nat.eqb_neq; lia).
  assert (Ha : animatedElements a !! i
               = Some {| el_classList := el_classList e; dataset_delay := Some delay |}).
  { unfold a, initScrollAnimations. rewrite E. simpl.
    rewrite list_lookup_imap, Hi. simpl. unfold stagger, delay.
    destruct e as [cl [d|]]; reflexivity. }
  split; [exact Ha|]. split.
  { intros Hn. unfold delay. rewrite Hn. simpl. zdiv. }
  split.
  { unfold a, initScrollAnimations. rewrite E. simpl.
    apply elem_of_list_to_set, elem_of_seq. lia. }
  unfold observer_callback, on_entry. simpl. rewrite Ha. simpl.
  unfold a, initScrollAnimations. by rewrite E.
Qed.

Lemma stagger_delay_witness :
  let els := replicate 8 {| el_classList := ∅; dataset_delay := None |} in
  animatedElements (initScrollAnimations false els) !! 7%nat
  = Some {| el_classList := ∅; dataset_delay := Some 100 |}
  /\ reveal_timers (observer_callback [ {| target := 7; isIntersecting := true |} ]
                      (initScrollAnimations false els)) = [(100, 7%nat)].
Proof.
  intros els.
  destruct (stagger_delay_by_index els 7 {| el_classList := ∅; dataset_delay := None |}
              eq_refl) as (H1 & _ & _ & H2).
  split; [exact H1 | exact H2].
Defined.

End CardsAndImages.

Section BootOrder.
Import Optimized Boot.

Lemma blank_scheduler_stuck (idle : bool) (s' : scheduler) :
  ~ step {| has_requestIdleCallback := idle; frame_requests := [];
            idle_requests := []; timeouts := []; called := [] |} s'.
Proof. intros H. inversion H; simplify_eq/=. Qed.

(** A run of the page either still waits for DOMContentLoaded with both
    listeners registered, or has run the three critical initializers
    once, will not run them again, and has its scheduler somewhere in a
    run of the deferred part. *)
Lemma boot_cases (isLoading idle : bool) (b : boot) :
  rtc boot_step (script (blank isLoading idle)) b ->
  b = script (blank true idle)
  \/ (loading b = false
      /\ critical_called b = [initHeader; initMobileMenu; initDropdowns]
      /\ rtc step (start idle) (deferred b)).
Proof.
  revert b. apply rtc_ind_r.
  - destruct isLoading; [by left | right]. repeat split. apply rtc_refl.
  - intros y z _ Hstep [-> | (Hl & Hc & Hd)].
    + inversion Hstep as [b Hload | b s' Hs]; subst.
      * right. repeat split. apply rtc_refl.
      * exfalso. exact (blank_scheduler_stuck idle s' Hs).
    + inversion Hstep as [b Hload | b s' Hs]; subst.
      * congruence.
      * right. simpl. split; [done|]. split; [done|]. by eapply rtc_r.
Qed.

Lemma scheduler_steps_lift (s s' : scheduler) :
  rtc step s s' ->
  forall (l : bool) (ls : list dom_listener) (cs : list critical),
    rtc boot_step
      {| loading := l; dom_listeners := ls; critical_called := cs; deferred := s |}
      {| loading := l; dom_listeners := ls; critical_called := cs; deferred := s' |}.
Proof.
  induction 1 as [s | s s1 s2 Hs _ IH]; intros l ls cs; [apply rtc_refl|].
  eapply rtc_l; [|apply IH].
  by apply (step_scheduler
              {| loading := l; dom_listeners := ls; critical_called := cs;
                 deferred := s |} s1).
Qed.

(** Wherever the deferred part is, it can be brought to its end. *)
Lemma scheduler_completes (idle : bool) (s : scheduler) :
  rtc step (start idle) s -> rtc step s (bundle_done idle).
Proof.
  intros Hr. destruct (reachable_cases idle s Hr) as [-> | [-> | [-> | ->]]].
  - etrans; [apply start_to_queued | apply queued_to_done].
  - eapply rtc_l; [by eapply (step_frame _ InnerFrame [])|].
    replace (run InnerFrame _) with (bundle_queued idle) by (by destruct idle).
    apply queued_to_done.
  - apply queued_to_done.
  - apply rtc_refl.
Qed.

(** X19. The start of the optimized script.  Whether or not the document
    is still loading when the script runs, at every moment of every run
    the three critical initializers have run either not at all or once,
    in the order header, mobile menu, dropdowns; and as soon as the
    deferred part has requested or called anything they have run.
    Every run can be completed from where it is: it can be continued to
    a moment at which the critical initializers have run once and the
    carousel and the bundle have been called. *)
Theorem critical_before_deferred (isLoading idle : bool) (b : boot) :
  rtc boot_step (script (blank isLoading idle)) b ->
  (critical_called b = []
   \/ critical_called b = [initHeader; initMobileMenu; initDropdowns])
  /\ (deferred_begun (deferred b) ->
      critical_called b = [initHeader; initMobileMenu; initDropdowns])
  /\ (critical_called b = [] ->
      loading b = true /\ dom_listeners b = [RunCritical; RunDeferred])
  /\ exists b', rtc boot_step b b'
                /\ critical_called b' = [initHeader; initMobileMenu; initDropdowns]
                /\ called (deferred b') = initHeroSwiperDeferred :: bundle.
Proof.
  intros Hrun. destruct (boot_cases _ _ _ Hrun) as [-> | (Hl & Hc & Hd)].
  - split; [by left|]. split.
    { intros [H | [H | [H | H]]]; by destruct H. }
    split; [done|].
    exists {| loading := false; dom_listeners := [RunCritical; RunDeferred];
              critical_called := [initHeader; initMobileMenu; initDropdowns];
              deferred := bundle_done idle |}.
    split; [|done].
    eapply rtc_l; [by apply (step_dom_ready (script (blank true idle)))|].
    apply (scheduler_steps_lift (start idle) (bundle_done idle)).
    apply scheduler_completes, rtc_refl.
  - split; [by right|]. split; [done|]. split; [by rewrite Hc|].
    destruct b as [l ls cs s]. simpl in Hl, Hc, Hd |- *.
    exists {| loading := l; dom_listeners := ls; critical_called := cs;
              deferred := bundle_done idle |}.
    split; [|done].
    apply scheduler_steps_lift. by apply scheduler_completes.
Qed.

Lemma critical_before_deferred_witness :
  let b := {| loading := false; dom_listeners := [RunCritical; RunDeferred];
              critical_called := [initHeader; initMobileMenu; initDropdowns];
              deferred := start true |} in
  rtc boot_step (script (blank true true)) b
  /\ deferred_begun (deferred b)
  /\ critical_called b = [initHeader; initMobileMenu; initDropdowns]
  /\ exists b', rtc boot_step b b'
                /\ called (deferred b') = initHeroSwiperDeferred :: bundle.
Proof.
  intros b.
  assert (Hrun : rtc boot_step (script (blank true true)) b).
  { apply rtc_once. exact (step_dom_ready (script (blank true true)) eq_refl). }
  destruct (critical_before_deferred true true b Hrun) as (_ & Hbegun & _ & b' & Hb' & _ & Hc).
  assert (Hb : deferred_begun (deferred b)) by (left; discriminate).
  split; [exact Hrun|]. split; [exact Hb|]. split; [exact (Hbegun Hb)|].
  exists b'. split; [exact Hb' | exact Hc].
Defined.

End BootOrder.

Section EmailShape.
Import Dom Regex MainJs.

Lemma jscount_absent (c : Z) (s : jsstring) :
  Forall (fun x => x <> c) s -> jscount c s = 0%nat.
Proof.
  induction 1 as [|x r Hx _ IH]; [done|]. simpl. rewrite IH.
  by destruct (Z.eqb_spec x c).
Qed.

Lemma trimStart_no_space (s : jsstring) :
  Forall (fun c => is_space c = false) s -> trimStart s = s.
Proof. intros H. destruct H as [|c r Hc _]; [done|]. simpl. by rewrite Hc. Qed.

Lemma trim_no_space (s : jsstring) :
  Forall (fun c => is_space c = false) s -> trim s = s.
Proof.
  intros H. unfold trim, trimEnd. rewrite (trimStart_no_space s H).
  rewrite trimStart_no_space; [apply rev_involutive|].
  by apply List.Forall_rev.
Qed.

Lemma address_part_facts (s : jsstring) :
  address_part s ->
  (1 <= length s)%nat /\ Forall (fun c => is_space c = false) s
  /\ Forall (fun x => x <> AT_SIGN) s.
Proof.
  intros [Hne H]. split; [destruct s; [done | simpl; lia]|].
  split; eapply Forall_impl; try exact H; by intros x [? ?].
Qed.

(** X20. What an accepted e-mail address looks like.  A string that
    [isValidEmail] accepts has exactly one at sign, which is not its
    first code unit, no white space anywhere (so trimming leaves it
    unchanged), at least five code units, and after the at sign a dot
    that is neither the first nor the last code unit of that part. *)
Theorem valid_email_facts (s : jsstring) :
  isValidEmail s = true ->
  jscount AT_SIGN s = 1%nat
  /\ Forall (fun c => is_space c = false) s
  /\ trim s = s
  /\ (5 <= length s)%nat
  /\ exists a b k, s = a ++ [AT_SIGN] ++ b /\ a <> []
                   /\ b !! k = Some 46 /\ (0 < k < length b - 1)%nat.
Proof.
  intros H. apply isValidEmail_spec in H as (loc & dom & tld & -> & Hl & Hd & Ht).
  destruct (address_part_facts _ Hl) as (Ll & Sl & Al).
  destruct (address_part_facts _ Hd) as (Ld & Sd & Ad).
  destruct (address_part_facts _ Ht) as (Lt & St & At).
  assert (Hsp : Forall (fun c => is_space c = false) (loc ++ [64] ++ dom ++ [46] ++ tld)).
  { repeat (apply Forall_app; split); try done; by apply Forall_singleton. }
  split.
  { rewrite !jscount_app, (jscount_absent _ _ Al), (jscount_absent _ _ Ad),
      (jscount_absent _ _ At). reflexivity. }
  split; [exact Hsp|]. split; [by apply trim_no_space|].
  split; [rewrite !length_app; simpl; lia|].
  exists loc, (dom ++ [46] ++ tld), (length dom).
  split; [done|]. split; [by destruct Hl|]. split.
  - rewrite lookup_app_r by lia. by rewrite Nat.sub_diag.
  - rewrite !length_app. simpl. lia.
Qed.

Lemma valid_email_facts_witness :
  isValidEmail (lit "jo@example.com") = true
  /\ jscount AT_SIGN (lit "jo@example.com") = 1%nat
  /\ trim (lit "jo@example.com") = lit "jo@example.com".
Proof.
  assert (H : isValidEmail (lit "jo@example.com") = true) by (vm_compute; reflexivity).
  destruct (valid_email_facts (lit "jo@example.com") H) as (H1 & _ & H2 & _).
  split; [exact H | split; [exact H1 | exact H2]].
Defined.

End EmailShape.
